(** * MNIST transfer-learning experiment (MNIST_test/compare2.py)

    A shallow embedding of the experiment script: the subset selectors,
    the label remapping dataset, the data loaders, the training and
    evaluation loops, the logger set-up and the experiment driver.

    Conventions.
    - Python [int] labels are [Z]; positions produced by [enumerate] and by
      the samplers are [nat] (they are never negative).
    - Python [float] metrics ([loss.item()], [epoch_loss / len(loader)],
      [100 * correct / total]) are exact rationals [Q]; a division by the
      integer zero raises [ZeroDivisionError] as in Python.
    - The tensor library (forward pass, criterion, gradients, Adam update,
      random initialisation and shuffling) is not part of the script: it is
      a parameter of the development, the class [TensorLib] below. What the
      script itself fixes of the forward pass, the sizes of its layers, is
      modelled on tensor shapes ([forward_shape]).
    - Parameter objects live in a heap and are referred to by identity, so
      that the model, the optimizer and a replaced layer share or do not
      share them as in Python.
    - The observable effects (console lines, log files, saved images and
      arrays) are recorded in a trace, in the order the script performs
      them.
    - Left out, having no effect on what is recorded: the device placement
      ([.to(device)]), the creation of the [logs] and [images] directories,
      the train/eval flag of the module (the network has no layer that
      depends on it), the time stamp of the log lines. *)

From Stdlib Require Import ZArith QArith Lia Ascii String.
From stdpp Require Import base gmap strings list pretty.

Open Scope Z_scope.

(** ** Exceptions raised by the script *)

Inductive exn : Type :=
| KeyError (key : Z)
| IndexError
| ZeroDivisionError
| UnboundLocalError (var : string)
| RuntimeError
| ValueError.

(** Outcome of a pure, fallible computation. *)
Inductive result (A : Type) : Type :=
| Ok (a : A)
| Raise (e : exn).
Arguments Ok {A} a.
Arguments Raise {A} e.

Definition rbind {A B} (r : result A) (k : A → result B) : result B :=
  match r with
  | Ok a => k a
  | Raise e => Raise e
  end.

(** ** Label maps (lines 33-34) *)

Definition even_label_map : gmap Z Z :=
  <[0 := 0]> (<[2 := 1]> (<[4 := 2]> (<[6 := 3]> (<[8 := 4]> ∅)))).
Definition odd_label_map : gmap Z Z :=
  <[1 := 0]> (<[3 := 1]> (<[5 := 2]> (<[7 := 3]> (<[9 := 4]> ∅)))).

Definition even_labels : list Z := [0; 2; 4; 6; 8].
Definition odd_labels : list Z := [1; 3; 5; 7; 9].

Section Data.

Context {image : Type}.

(** ** Subset selection (lines 37-52) *)

(** [[i for i, (img, lbl) in enumerate(ds) if p lbl]], with the counter of
    [enumerate] starting at [i]. *)
Fixpoint positions_from (i : nat) (p : Z → bool) (ds : list (image * Z)) : list nat :=
  match ds with
  | [] => []
  | (_, lbl) :: rest =>
      if p lbl then i :: positions_from (S i) p rest
      else positions_from (S i) p rest
  end.

Definition positions (p : Z → bool) (ds : list (image * Z)) : list nat :=
  positions_from 0 p ds.

(** [label in [0, 2, 4, 6, 8]] *)
Definition label_in (ls : list Z) (lbl : Z) : bool := bool_decide (lbl ∈ ls).
(** [lbl == label] *)
Definition label_is (label lbl : Z) : bool := bool_decide (lbl = label).

(** line 37 *)
Definition train_indices (ds : list (image * Z)) : list nat :=
  positions (label_in even_labels) ds.

(** The loop of lines 41-44 and 48-51:
    [for label in labels: indices = [...]; out.extend(indices[:K])]. *)
Fixpoint select_per_label (K : nat) (labels : list Z) (ds : list (image * Z))
    (out : list nat) : list nat :=
  match labels with
  | [] => out
  | label :: rest =>
      let indices := positions (label_is label) ds in
      select_per_label K rest ds (out ++ take K indices)
  end.

Definition small_train_indices (ds : list (image * Z)) : list nat :=
  select_per_label 20 odd_labels ds [].
Definition test_indices (ds : list (image * Z)) : list nat :=
  select_per_label 200 odd_labels ds [].

(** ** Datasets (lines 29-30, 38, 45, 52, 55-71) *)

Inductive dataset : Type :=
| MNIST (items : list (image * Z))
| Subset (d : dataset) (indices : list nat)
| RemapLabelsDataset (d : dataset) (label_map : gmap Z Z).

(** [len(dataset)] *)
Fixpoint ds_len (d : dataset) : nat :=
  match d with
  | MNIST items => length items
  | Subset _ indices => length indices
  | RemapLabelsDataset d _ => ds_len d
  end.

(** [dataset[idx]] *)
Fixpoint getitem (d : dataset) (idx : nat) : result (image * Z) :=
  match d with
  | MNIST items =>
      match items !! idx with
      | Some it => Ok it
      | None => Raise IndexError
      end
  | Subset d indices =>
      match indices !! idx with
      | Some i => getitem d i
      | None => Raise IndexError
      end
  | RemapLabelsDataset d label_map =>
      rbind (getitem d idx) (λ '(img, label),
        match label_map !! label with
        | Some new_label => Ok (img, new_label)
        | None => Raise (KeyError label)
        end)
  end.

(** The three datasets the script builds (lines 38-71). *)
Definition big_train_dataset (full_train : list (image * Z)) : dataset :=
  RemapLabelsDataset (Subset (MNIST full_train) (train_indices full_train)) even_label_map.
Definition small_train_dataset (full_train : list (image * Z)) : dataset :=
  RemapLabelsDataset (Subset (MNIST full_train) (small_train_indices full_train)) odd_label_map.
Definition test_dataset (test : list (image * Z)) : dataset :=
  RemapLabelsDataset (Subset (MNIST test) (test_indices test)) odd_label_map.

End Data.

(** ** The tensor library the script runs on

    Everything the script takes from [torch]: layer initialisation, the
    forward pass of the network, [torch.max(outputs, 1)], the criterion,
    [loss.backward()], the Adam update rule, [torch.randperm] behind
    [shuffle=True], and Python's float formatting. *)

Inductive shape : Type :=
| Conv2d (in_channels out_channels kernel_size padding : nat)
| Linear (in_features out_features : nat).

Class TensorLib (image : Type) : Type := {
  tensor : Type;
  outputs : Type;
  rng_state : Type;
  adam_state : Type;
  criterion : Type;
  (** fresh (weight, bias) of a layer, drawn from the global generator *)
  init_layer : shape → rng_state → tensor * tensor * rng_state;
  (** [torch.randperm(n)]: a permutation of [0 .. n-1] *)
  randperm : nat → rng_state → list nat * rng_state;
  randperm_perm : ∀ n g, (randperm n g).1 ≡ₚ seq 0 n;
  (** [MNISTNet.forward] on the parameter values in [model.parameters()] order *)
  forward : list tensor → list image → outputs;
  (** [torch.max(outputs, 1)[1]]: the predicted class of every row *)
  argmax : outputs → list Z;
  (** [nn.CrossEntropyLoss()] *)
  cross_entropy : criterion;
  (** [criterion(outputs, labels).item()] *)
  crit_eval : criterion → outputs → list Z → Q;
  (** gradient of [criterion(model(images), labels)] with respect to the
      [i]-th parameter *)
  autograd : criterion → list tensor → list image → list Z → nat → tensor;
  (** gradient accumulation [p.grad + g] *)
  tadd : tensor → tensor → tensor;
  (** one Adam update (lr = 0.001) of a parameter from its gradient; the
      per-parameter optimizer state is created on first use *)
  adam_step : option adam_state → tensor → tensor → tensor * adam_state;
  (** [f'{x:.4f}'] and [f'{x:.2f}'] *)
  fmt_float : nat → Q → string;
}.

Section Model.

Context {image : Type} `{TL : TensorLib image}.

(** ** Program state *)

(** A [torch.nn.Parameter] object. *)
Record param : Type := Param {
  data : tensor;
  requires_grad : bool;
  grad : option tensor;
}.

(** NumPy arrays handed to [np.save]. *)
Inductive ndarray : Type :=
| Array1 (xs : list Q)
| Array2 (rows : list (list Q)).

(** Observable effects, in the order the script performs them. A plotted
    value [None] stands for NaN. *)
Inductive event : Type :=
| Print (line : string)
| FileOpen (path : string)
| FileWrite (path : string) (message : string)
| SaveFig (path : string) (curves : list (list (option Q)))
| NpSave (path : string) (arr : ndarray).

Record state : Type := State {
  heap : gmap nat param;                 (** parameter objects, by identity *)
  rng : rng_state;                       (** torch's global generator *)
  handlers : gmap string (list string);  (** [logging.getLogger(name).handlers], as file paths *)
  trace : list event;
}.

(** ** The state-and-exception monad *)

Inductive outcome (A : Type) : Type :=
| Done (a : A) (s : state)
| Throw (e : exn) (s : state).
Arguments Done {A} a s.
Arguments Throw {A} e s.

Definition M (A : Type) : Type := state → outcome A.

#[export] Instance M_ret : MRet M := λ A a s, Done a s.
#[export] Instance M_bind : MBind M := λ A B k m s,
  match m s with
  | Done a s' => k a s'
  | Throw e s' => Throw e s'
  end.

Definition raise {A} (e : exn) : M A := λ s, Throw e s.
Definition lift {A} (r : result A) : M A := λ s,
  match r with
  | Ok a => Done a s
  | Raise e => Throw e s
  end.
Definition gets {A} (f : state → A) : M A := λ s, Done (f s) s.
Definition modify (f : state → state) : M unit := λ s, Done () (f s).

(** [for x in xs: acc = body x acc] *)
Fixpoint for_each {A B} (xs : list A) (body : A → B → M B) (acc : B) : M B :=
  match xs with
  | [] => mret acc
  | x :: rest => acc' ← body x acc; for_each rest body acc'
  end.

Definition emit (ev : event) : M unit :=
  modify (λ s, State (heap s) (rng s) (handlers s) (trace s ++ [ev])).
Definition print (line : string) : M unit := emit (Print line).

(** ** Data loaders (lines 74-76) *)

Record DataLoader : Type := {
  dl_dataset : @dataset image;
  batch_size : nat;
  shuffle : bool;
}.

(** [DataLoader(dataset, batch_size=.., shuffle=..)]: the constructor
    rejects a non-positive batch size, and a shuffling loader (a
    [RandomSampler]) rejects an empty dataset. *)
Definition new_DataLoader (d : @dataset image) (bs : nat) (shuf : bool) : M DataLoader :=
  if (bs =? 0)%nat then raise ValueError
  else if shuf && (ds_len d =? 0)%nat then raise ValueError
  else mret {| dl_dataset := d; batch_size := bs; shuffle := shuf |}.

(** [torch.utils.data.BatchSampler] with [drop_last=False]: indices are
    collected into [batch]; a full batch is yielded and a non-empty rest is
    yielded at the end. *)
Fixpoint batch_sampler (bs : nat) (idxs : list nat) (batch : list nat) : list (list nat) :=
  match idxs with
  | [] => match batch with [] => [] | _ => [batch] end
  | idx :: rest =>
      let batch' := batch ++ [idx] in
      if (length batch' =? bs)%nat then batch' :: batch_sampler bs rest []
      else batch_sampler bs rest batch'
  end.

(** [len(loader)]: the number of batches, computed from the dataset length. *)
Definition dl_len (dl : DataLoader) : nat :=
  ((ds_len (dl_dataset dl) + batch_size dl - 1) / batch_size dl)%nat.

(** [iter(loader)]: the index batches of one pass; a shuffling loader draws
    a fresh permutation from the global generator. *)
Definition dl_iter (dl : DataLoader) : M (list (list nat)) :=
  let n := ds_len (dl_dataset dl) in
  if shuffle dl then
    g ← gets rng;
    let '(perm, g') := randperm n g in
    modify (λ s, State (heap s) g' (handlers s) (trace s));;
    mret (batch_sampler (batch_size dl) perm [])
  else mret (batch_sampler (batch_size dl) (seq 0 n) []).

(** [[dataset[i] for i in batch]], collated into (images, labels). *)
Fixpoint fetch (d : @dataset image) (batch : list nat) : result (list image * list Z) :=
  match batch with
  | [] => Ok ([], [])
  | i :: rest =>
      rbind (getitem d i) (λ '(img, lbl),
      rbind (fetch d rest) (λ '(imgs, lbls), Ok (img :: imgs, lbl :: lbls)))
  end.

(** ** The network (lines 79-93) *)

Record layer : Type := Layer { weight : nat; bias : nat }.
Record MNISTNet : Type := Net { conv1 : layer; conv2 : layer; fc1 : layer }.

(** [layer.parameters()] and [model.parameters()], in registration order. *)
Definition layer_parameters (l : layer) : list nat := [weight l; bias l].
Definition parameters (m : MNISTNet) : list nat :=
  layer_parameters (conv1 m) ++ layer_parameters (conv2 m) ++ layer_parameters (fc1 m).

Definition alloc (p : param) : M nat := λ s,
  let a := fresh (dom (heap s)) in
  Done a (State (<[a := p]> (heap s)) (rng s) (handlers s) (trace s)).
(** Reading and updating a parameter object through a reference. *)
Definition lookup_param (a : nat) : M (option param) := gets (λ s, heap s !! a).
Definition update (a : nat) (f : param → param) : M unit :=
  modify (λ s, State (alter f a (heap s)) (rng s) (handlers s) (trace s)).

(** [nn.Conv2d(...)] / [nn.Linear(...)]: a layer with freshly initialised,
    trainable parameters. *)
Definition new_layer (sh : shape) : M layer :=
  g ← gets rng;
  let '(w, b, g') := init_layer sh g in
  modify (λ s, State (heap s) g' (handlers s) (trace s));;
  wa ← alloc (Param w true None);
  ba ← alloc (Param b true None);
  mret (Layer wa ba).

(** [MNISTNet(num_classes)] (lines 80-84) *)
Definition new_MNISTNet (num_classes : nat) : M MNISTNet :=
  c1 ← new_layer (Conv2d 1 32 3 1);
  c2 ← new_layer (Conv2d 32 64 3 1);
  f1 ← new_layer (Linear (64 * 7 * 7) num_classes);
  mret (Net c1 c2 f1).

(** [p.requires_grad] of the parameter behind a reference. *)
Definition trainable_in (h : gmap nat param) (a : nat) : bool :=
  match h !! a with
  | Some p => requires_grad p
  | None => false
  end.

(** The current values of [model.parameters()]. *)
Definition weights_in (h : gmap nat param) (m : MNISTNet) : list tensor :=
  omap (λ a, data <$> h !! a) (parameters m).
Definition read_weights (m : MNISTNet) : M (list tensor) :=
  gets (λ s, weights_in (heap s) m).

(** ** Optimizer: [optim.Adam(params, lr=0.001)] *)

Record optimizer : Type := Optimizer {
  opt_params : list nat;
  opt_state : gmap nat adam_state;
}.

Definition Adam (params : list nat) : optimizer := Optimizer params ∅.

(** [optimizer.zero_grad()]: the gradients of the optimizer's parameters
    are reset. *)
Definition zero_grad (opt : optimizer) : M unit :=
  for_each (opt_params opt) (λ a _,
    update a (λ p, Param (data p) (requires_grad p) None)) ().

(** [loss.backward()]: every parameter that requires a gradient receives
    (accumulates) its gradient; autograd refuses a loss none of whose
    inputs requires one. *)
Definition backward (crit : criterion) (m : MNISTNet) (ws : list tensor)
    (images : list image) (labels : list Z) : M unit :=
  any ← gets (λ s, existsb (trainable_in (heap s)) (parameters m));
  if any : bool then
    for_each (imap pair (parameters m)) (λ '(i, a) _,
      update a (λ p,
        if requires_grad p then
          let g := autograd crit ws images labels i in
          Param (data p) true (Some (match grad p with None => g | Some g0 => tadd g0 g end))
        else p)) ()
  else raise RuntimeError.

(** [optimizer.step()]: each of the optimizer's parameters that has a
    gradient is updated in place. *)
Definition step (opt : optimizer) : M optimizer :=
  for_each (opt_params opt) (λ a opt,
    p ← lookup_param a;
    match p with
    | Some (Param d rg (Some g)) =>
        let '(d', st) := adam_step (opt_state opt !! a) d g in
        update a (λ p, Param d' (requires_grad p) (grad p));;
        mret (Optimizer (opt_params opt) (<[a := st]> (opt_state opt)))
    | _ => mret opt
    end) opt.

(** ** Logging (lines 96-108) *)

(** [str.capitalize] on ASCII text. *)
Definition upper (c : ascii) : ascii :=
  let n := nat_of_ascii c in
  if ((97 <=? n) && (n <=? 122))%nat then ascii_of_nat (n - 32) else c.
Definition lower (c : ascii) : ascii :=
  let n := nat_of_ascii c in
  if ((65 <=? n) && (n <=? 90))%nat then ascii_of_nat (n + 32) else c.
Fixpoint lower_all (s : string) : string :=
  match s with
  | EmptyString => EmptyString
  | String c r => String (lower c) (lower_all r)
  end.
Definition capitalize (s : string) : string :=
  match s with
  | EmptyString => EmptyString
  | String c r => String (upper c) (lower_all r)
  end.

(** [f'logs/{experiment_type}_run_{run_number}.log'] *)
Definition log_file (experiment_type : string) (run_number : nat) : string :=
  "logs/" +:+ experiment_type +:+ "_run_" +:+ pretty run_number +:+ ".log".

(** [setup_logger]: the logger registered under the name [experiment_type]
    (created on first use) receives one more file handler; the logger is
    returned. Opening the handler creates the file. *)
Definition setup_logger (experiment_type : string) (run_number : nat) : M string :=
  let logger := experiment_type in
  let file_handler := log_file experiment_type run_number in
  emit (FileOpen file_handler);;
  modify (λ s, State (heap s) (rng s)
                 (<[logger := default [] (handlers s !! logger) ++ [file_handler]]> (handlers s))
                 (trace s));;
  mret logger.

(** [logger.info(message)]: every handler of the logger appends the
    message to its file (the time stamp of the line is left out). *)
Definition logger_info (logger : string) (message : string) : M unit :=
  hs ← gets (λ s, default [] (handlers s !! logger));
  for_each hs (λ h _, emit (FileWrite h message)) ().

(** ** Arithmetic of the metrics *)

(** [x / n] for a float (or int) [x] and an int [n]. *)
Definition py_div (x : Q) (n : nat) : M Q :=
  if (n =? 0)%nat then raise ZeroDivisionError
  else mret (x / inject_Z (Z.of_nat n))%Q.

Definition Qnat (n : nat) : Q := inject_Z (Z.of_nat n).

(** [(predicted == labels).sum().item()] *)
Definition count_eq (predicted labels : list Z) : nat :=
  length (filter (λ xy, bool_decide (xy.1 = xy.2)) (zip predicted labels)).

(** ** Training (lines 111-142) *)

Definition epoch_message (experiment_type : string) (epoch num_epochs : nat)
    (loss acc : Q) : string :=
  "[" +:+ experiment_type +:+ "] Epoch [" +:+ pretty (epoch + 1)%nat +:+ "/"
      +:+ pretty num_epochs +:+ "], Loss: " +:+ fmt_float 4 loss
      +:+ ", Accuracy: " +:+ fmt_float 2 acc +:+ "%".

(** Loop variables of the batch loop. *)
Record train_acc : Type := TrainAcc {
  ta_opt : optimizer;
  ta_epoch_loss : Q;
  ta_correct : nat;
  ta_total : nat;
}.

(** Lines 119-132: one iteration of the batch loop. *)
Definition train_batch (model : MNISTNet) (train_loader : DataLoader) (crit : criterion)
    (batch : list nat) (acc : train_acc) : M train_acc :=
  '(images, labels) ← lift (fetch (dl_dataset train_loader) batch);
  ws ← read_weights model;
  let outs := forward ws images in
  let loss := crit_eval crit outs labels in
  zero_grad (ta_opt acc);;
  backward crit model ws images labels;;
  opt' ← step (ta_opt acc);
  let predicted := argmax outs in
  mret (TrainAcc opt'
          (ta_epoch_loss acc + loss)%Q
          (ta_correct acc + count_eq predicted labels)%nat
          (ta_total acc + length labels)%nat).

(** Loop variables of the epoch loop. The optimizer object is mutated by
    [optimizer.step()]; no caller reads it after [train_model] returns, so
    it is threaded through the loops and dropped at the end. *)
Record epochs_acc : Type := EpochsAcc {
  ea_opt : optimizer;
  ea_losses : list Q;
  ea_accuracies : list Q;
}.

(** Lines 114-140: one iteration of the epoch loop. *)
Definition train_epoch (model : MNISTNet) (train_loader : DataLoader) (crit : criterion)
    (num_epochs : nat) (experiment_type : string) (logger : option string)
    (epoch : nat) (acc : epochs_acc) : M epochs_acc :=
  batches ← dl_iter train_loader;
  r ← for_each batches (train_batch model train_loader crit) (TrainAcc (ea_opt acc) 0 0 0);
  mean_loss ← py_div (ta_epoch_loss r) (dl_len train_loader);
  accuracy ← py_div (Qnat (100 * ta_correct r)) (ta_total r);
  let message := epoch_message experiment_type epoch num_epochs mean_loss accuracy in
  match logger with
  | Some lg => logger_info lg message
  | None => mret ()
  end;;
  print message;;
  mret (EpochsAcc (ta_opt r) (ea_losses acc ++ [mean_loss]) (ea_accuracies acc ++ [accuracy])).

Definition train_model (model : MNISTNet) (train_loader : DataLoader) (crit : criterion)
    (opt : optimizer) (num_epochs : nat) (experiment_type : string)
    (logger : option string) : M (list Q * list Q) :=
  r ← for_each (seq 0 num_epochs)
        (train_epoch model train_loader crit num_epochs experiment_type logger)
        (EpochsAcc opt [] []);
  mret (ea_losses r, ea_accuracies r).

(** ** Evaluation (lines 145-157) *)

Definition test_batch (model : MNISTNet) (test_loader : DataLoader)
    (batch : list nat) (acc : nat * nat) : M (nat * nat) :=
  let '(correct, total) := acc in
  '(images, labels) ← lift (fetch (dl_dataset test_loader) batch);
  ws ← read_weights model;
  let outs := forward ws images in
  let predicted := argmax outs in
  mret ((correct + count_eq predicted labels)%nat, (total + length labels)%nat).

Definition test_model (model : MNISTNet) (test_loader : DataLoader) : M Q :=
  batches ← dl_iter test_loader;
  '(correct, total) ← for_each batches (test_batch model test_loader) (0%nat, 0%nat);
  py_div (Qnat (100 * correct)) total.

(** ** The experiment driver (lines 160-226) *)

(** [for param in layer.parameters(): param.requires_grad = False] *)
Definition freeze (l : layer) : M unit :=
  for_each (layer_parameters l) (λ a _,
    update a (λ p, Param (data p) false (grad p))) ().

(** [[param for param in model.parameters() if param.requires_grad]] *)
Definition params_to_train (m : MNISTNet) : M (list nat) :=
  gets (λ s, filter (λ a, trainable_in (heap s) a = true) (parameters m)).

(** Lines 186-191: freeze the convolution stages and install a fresh
    output layer. *)
Definition freeze_and_replace (model : MNISTNet) : M MNISTNet :=
  freeze (conv1 model);;
  freeze (conv2 model);;
  f1 ← new_layer (Linear (64 * 7 * 7) 5);
  mret (Net (conv1 model) (conv2 model) f1).

(** Lines 194-198: the fine-tuning pass. *)
Definition fine_tune (model : MNISTNet) (small_train_loader : DataLoader)
    (crit : criterion) (num_epochs : nat) (logger : string) : M (list Q * list Q) :=
  ps ← params_to_train model;
  let opt := Adam ps in
  train_model model small_train_loader crit opt num_epochs "Transfer" (Some logger).

(** Local variables of [run_experiment] that live across the runs; [None]
    is an unbound name. *)
Record run_acc : Type := RunAcc {
  all_accuracies : list Q;
  all_losses : list (list Q);
  losses : option (list Q);
  accuracies : option (list Q);
}.

(** [name] where a value is needed: an unbound local raises. *)
Definition read_local {A} (name : string) (v : option A) : M A :=
  match v with
  | Some x => mret x
  | None => raise (UnboundLocalError name)
  end.

Definition run_message (run num_runs : nat) : string :=
  "Run " +:+ pretty (run + 1)%nat +:+ "/" +:+ pretty num_runs.
Definition test_message (model_type : string) (accuracy : Q) : string :=
  capitalize model_type +:+ " Test Accuracy: " +:+ fmt_float 2 accuracy +:+ "%".
Definition performance_png (model_type : string) (run : nat) : string :=
  "images/" +:+ model_type +:+ "_" +:+ pretty (run + 1)%nat +:+ "_performance.png".

(** Lines 170-198: the branch on [model_type]; it yields the model and the
    bindings of [losses] and [accuracies] after the branch. *)
Definition train_branch (model_type : string) (big_train_loader small_train_loader : DataLoader)
    (num_epochs run : nat) (logger : string) (model : MNISTNet) (acc : run_acc)
    : M (MNISTNet * option (list Q) * option (list Q)) :=
  if decide (model_type = "non_transfer") then
    let opt := Adam (parameters model) in
    let crit := cross_entropy in
    print ("Starting non-transfer training (run " +:+ pretty (run + 1)%nat +:+ ")...");;
    logger_info logger ("Starting non-transfer training (run " +:+ pretty (run + 1)%nat +:+ ")...");;
    '(l, a) ← train_model model small_train_loader crit opt num_epochs "Non-Transfer" (Some logger);
    mret (model, Some l, Some a)
  else if decide (model_type = "transfer") then
    let opt := Adam (parameters model) in
    let crit := cross_entropy in
    logger_info logger ("Starting transfer learning (run " +:+ pretty (run + 1)%nat +:+ ")...");;
    print ("Starting transfer learning (run " +:+ pretty (run + 1)%nat +:+ ")...");;
    train_model model big_train_loader crit opt num_epochs "Transfer" (Some logger);;
    model' ← freeze_and_replace model;
    '(l, a) ← fine_tune model' small_train_loader crit num_epochs logger;
    mret (model', Some l, Some a)
  else mret (model, losses acc, accuracies acc).

(** Lines 165-224: one iteration of the run loop. *)
Definition run_once (num_runs : nat) (model_type : string)
    (big_train_loader small_train_loader test_loader : DataLoader) (num_epochs : nat)
    (run : nat) (acc : run_acc) : M run_acc :=
  logger ← setup_logger model_type (run + 1);
  logger_info logger (run_message run num_runs);;
  print (run_message run num_runs);;
  model ← new_MNISTNet 5;
  '(model, losses, accuracies) ←
    train_branch model_type big_train_loader small_train_loader num_epochs run logger model acc;
  accuracy ← test_model model test_loader;
  print (test_message model_type accuracy);;
  logger_info logger (test_message model_type accuracy);;
  let all_accuracies := all_accuracies acc ++ [accuracy] in
  losses_v ← read_local "losses" losses;
  let all_losses := all_losses acc ++ [losses_v] in
  accuracies_v ← read_local "accuracies" accuracies;
  emit (SaveFig (performance_png model_type run)
          [Some <$> accuracies_v; Some <$> losses_v]);;
  mret (RunAcc all_accuracies all_losses (Some losses_v) (Some accuracies_v)).

Definition run_experiment (num_runs : nat) (model_type : string)
    (big_train_loader small_train_loader test_loader : DataLoader) (num_epochs : nat)
    : M (list Q * list (list Q)) :=
  r ← for_each (seq 0 num_runs)
        (run_once num_runs model_type big_train_loader small_train_loader test_loader num_epochs)
        (RunAcc [] [] None None);
  mret (all_accuracies r, all_losses r).

(** ** Saving and plotting the results (lines 241-266) *)

(** [np.mean(row)]: the mean of an empty row is NaN. *)
Definition row_mean (row : list Q) : option Q :=
  match row with
  | [] => None
  | _ => Some (foldr Qplus 0%Q row / Qnat (length row))%Q
  end.

(** A list of rows is a two-dimensional array when it is not empty and its
    rows have one length. *)
Definition rectangular (rows : list (list Q)) : bool :=
  match rows with
  | [] => false
  | r :: _ => forallb (λ r', (length r' =? length r)%nat) rows
  end.

(** [np.mean(losses, axis=1)] *)
Definition np_mean_axis1 (rows : list (list Q)) : M (list (option Q)) :=
  if rectangular rows then mret (row_mean <$> rows) else raise ValueError.

(** [np.save(path, rows)] for a list of rows: rows of different lengths
    do not form an array. *)
Definition np_save2 (path : string) (rows : list (list Q)) : M unit :=
  if rectangular rows || bool_decide (rows = []) then emit (NpSave path (Array2 rows))
  else raise ValueError.

Definition np_save1 (path : string) (xs : list Q) : M unit :=
  emit (NpSave path (Array1 xs)).

Definition final_png (title : string) : string :=
  "images/" +:+ title +:+ "_final_performance.png".

Definition plot_results (accs : list Q) (losses : list (list Q)) (title : string) : M unit :=
  means ← np_mean_axis1 losses;
  emit (SaveFig (final_png title) [Some <$> accs; means]).

(** ** Top level (lines 29-76 and 229-268) *)

Definition num_runs : nat := 10.
Definition num_epochs : nat := 10.

Definition main (full_train_dataset test_dataset_raw : list (image * Z)) : M unit :=
  big_train_loader ← new_DataLoader (big_train_dataset full_train_dataset) 128 true;
  small_train_loader ← new_DataLoader (small_train_dataset full_train_dataset) 2 true;
  test_loader ← new_DataLoader (test_dataset test_dataset_raw) 32 false;
  print "Running Non-Transfer Experiment...";;
  '(non_transfer_accuracies, non_transfer_losses) ←
    run_experiment num_runs "non_transfer" big_train_loader small_train_loader test_loader num_epochs;
  print "Running Transfer Experiment...";;
  '(transfer_accuracies, transfer_losses) ←
    run_experiment num_runs "transfer" big_train_loader small_train_loader test_loader num_epochs;
  np_save1 "logs/non_transfer_accuracies.npy" non_transfer_accuracies;;
  np_save2 "logs/non_transfer_losses.npy" non_transfer_losses;;
  np_save1 "logs/transfer_accuracies.npy" transfer_accuracies;;
  np_save2 "logs/transfer_losses.npy" transfer_losses;;
  plot_results non_transfer_accuracies non_transfer_losses "Non-Transfer Experiment";;
  plot_results transfer_accuracies transfer_losses "Transfer Experiment";;
  print "Experiments completed and results saved.".

End Model.

Arguments Done {image TL A} a s.
Arguments Throw {image TL A} e s.

(** * Vocabulary of the properties *)

Section Vocabulary.

Context {image : Type}.

(** The label of the item at a position of the base collection. *)
Definition label_at (ds : list (image * Z)) (p : nat) : option Z := snd <$> ds !! p.

(** The number of items carrying [label] among the first [p] items. *)
Definition occurrences_before (label : Z) (ds : list (image * Z)) (p : nat) : nat :=
  length (filter (λ it, it.2 = label) (take p ds)).

(** The number of items carrying [label] in the whole collection. *)
Definition occurrences (label : Z) (ds : list (image * Z)) : nat :=
  length (filter (λ it, it.2 = label) ds).

(** The selected positions whose item carries [label]. *)
Definition selected_with (label : Z) (ds : list (image * Z)) (sel : list nat) : list nat :=
  filter (λ p, label_at ds p = Some label) sel.

(** The fixed maps of the specification, as association lists. *)
Definition even_pairs : list (Z * Z) := [(0, 0); (2, 1); (4, 2); (6, 3); (8, 4)].
Definition odd_pairs : list (Z * Z) := [(1, 0); (3, 1); (5, 2); (7, 3); (9, 4)].
Definition class_indices : list Z := [0; 1; 2; 3; 4].

End Vocabulary.

Section Hoare.

Context {image : Type} `{TL : TensorLib image}.

(** The state a computation ends in, normally or not. *)
Definition final_state {A} (o : outcome A) : state :=
  match o with
  | Done _ s => s
  | Throw _ s => s
  end.

(** Weakest precondition of a computation of the monad: [Φ] is the
    postcondition of a normal return, [Ψ] that of a raised exception. *)
Definition wp {A} (m : M A) (s : state)
    (Φ : A → state → Prop) (Ψ : exn → state → Prop) : Prop :=
  match m s with
  | Done a s' => Φ a s'
  | Throw e s' => Ψ e s'
  end.

(** What the heap may look like after a computation that writes only to the
    parameters in [U]: no parameter changes its [requires_grad] flag, no
    object is created or lost, and the objects outside [U] are untouched. *)
Definition heap_touch (U : nat → Prop) (h0 h : gmap nat param) : Prop :=
  (∀ a, trainable_in h a = trainable_in h0 a) ∧
  (∀ a, is_Some (h !! a) ↔ is_Some (h0 !! a)) ∧
  (∀ a, ¬ U a → h !! a = h0 !! a).

(** The messages written to the file [path] by a sequence of events. *)
Definition file_lines (path : string) (tr : list event) : list string :=
  omap (λ ev, match ev with
              | FileWrite p msg => if decide (p = path) then Some msg else None
              | _ => None
              end) tr.

(** The files written by [plt.savefig] and [np.save], in order. *)
Definition saved_paths (tr : list event) : list string :=
  omap (λ ev, match ev with
              | SaveFig p _ => Some p
              | NpSave p _ => Some p
              | _ => None
              end) tr.


(** The events of [logger.info(message)] for a logger with handlers [hs]. *)
Definition info_events (hs : list string) (message : string) : list event :=
  (λ h, FileWrite h message) <$> hs.

(** The events of one epoch of [train_model]: the log line, then the
    console line. *)
Definition epoch_events (hs : list string) (experiment_type : string)
    (E e : nat) (loss acc : Q) : list event :=
  info_events hs (epoch_message experiment_type e E loss acc)
  ++ [Print (epoch_message experiment_type e E loss acc)].

(** The events of the epochs [0, 1, ...] with the given metrics. *)
Definition training_events (hs : list string) (experiment_type : string)
    (E : nat) (losses accs : list Q) : list event :=
  mjoin (imap (λ e la, epoch_events hs experiment_type E e la.1 la.2) (zip losses accs)).

(** The handlers a call [train_model(..., logger)] writes to. *)
Definition handlers_of (logger : option string) (s : state) : list string :=
  match logger with
  | Some lg => default [] (handlers s !! lg)
  | None => []
  end.

(** Every index of every batch of a pass over the loader can be fetched. *)
Definition loads (d : @dataset image) : Prop :=
  ∀ i, (i < ds_len d)%nat → ∃ it, getitem d i = Ok it.

(** The exceptions the tensor and data layers can raise. *)
Definition library_error (e : exn) : Prop :=
  match e with
  | UnboundLocalError _ => False
  | _ => True
  end.


End Hoare.

Section Effects.

Context {image : Type} `{TL : TensorLib image}.

(** A computation that changes nothing but parameter objects in [U]. *)
Definition only_heap (U : nat → Prop) (s0 s : state) : Prop :=
  rng s = rng s0 ∧ handlers s = handlers s0 ∧ trace s = trace s0 ∧
  heap_touch U (heap s0) (heap s).

(** The parameter objects one training step may write: those of the
    optimizer, and the parameters of the model that require a gradient. *)
Definition written_by (m : MNISTNet) (opt : optimizer) (h0 : gmap nat param) (a : nat) : Prop :=
  a ∈ opt_params opt ∨ (a ∈ parameters m ∧ trainable_in h0 a = true).

(** Some parameter of the model requires a gradient. *)
Definition has_trainable (m : MNISTNet) (h : gmap nat param) : Prop :=
  ∃ a, a ∈ parameters m ∧ trainable_in h a = true.

End Effects.

Section LoaderVocabulary.

Context {image : Type} `{TL : TensorLib image}.

(** The order in which one pass over the loader visits the dataset. *)
Definition visit_order (dl : @DataLoader image) (g : rng_state) : list nat :=
  if shuffle dl then (randperm (ds_len (dl_dataset dl)) g).1
  else seq 0 (ds_len (dl_dataset dl)).

(** The generator after one pass over the loader has been set up. *)
Definition rng_after (dl : @DataLoader image) (g : rng_state) : rng_state :=
  if shuffle dl then (randperm (ds_len (dl_dataset dl)) g).2 else g.

(** A loader the constructor accepts, over a dataset that is not empty and
    whose items can all be fetched. *)
Definition usable (dl : @DataLoader image) : Prop :=
  (0 < batch_size dl)%nat ∧ (0 < ds_len (dl_dataset dl))%nat ∧ loads (dl_dataset dl).

End LoaderVocabulary.

Section TrainingVocabulary.

Context {image : Type} `{TL : TensorLib image}.

(** A computation that only appends the events [T] to the trace. *)
Definition appends (T : list event) (s s' : state) : Prop :=
  heap s' = heap s ∧ rng s' = rng s ∧ handlers s' = handlers s ∧
  trace s' = trace s ++ T.

(** The number of batches one pass over the loader yields. *)
Definition n_batches (dl : @DataLoader image) : nat :=
  length (batch_sampler (batch_size dl) (seq 0 (ds_len (dl_dataset dl))) []).

(** [x] is the value [train_model] records as the loss of an epoch: the
    per-batch criterion values, added up from 0 in batch order, divided by
    [len(train_loader)]. *)
Definition is_epoch_loss (dl : @DataLoader image) (crit : criterion) (x : Q) : Prop :=
  ∃ batch_losses,
    length batch_losses = n_batches dl ∧
    Forall (λ b, ∃ o l, b = crit_eval crit o l) batch_losses ∧
    x = (fold_left Qplus batch_losses 0 / Qnat (dl_len dl))%Q.

(** [x] is an accuracy over the loader's dataset: [100 * correct / total]
    with [total] the number of items and [correct ≤ total]. *)
Definition is_accuracy (dl : @DataLoader image) (x : Q) : Prop :=
  ∃ correct,
    (correct ≤ ds_len (dl_dataset dl))%nat ∧
    x = (Qnat (100 * correct) / Qnat (ds_len (dl_dataset dl)))%Q.

(** Why a pass over a loader can fail: a division by an empty loader's
    length or item count, or an item that cannot be fetched. *)
Definition loader_failure (dl : @DataLoader image) (e : exn) : Prop :=
  (e = ZeroDivisionError ∧ (dl_len dl = 0%nat ∨ ds_len (dl_dataset dl) = 0%nat)) ∨
  (∃ i, (i < ds_len (dl_dataset dl))%nat ∧ getitem (dl_dataset dl) i = Raise e).

(** Why [train_model] can fail: as above, or autograd finds no parameter
    of the model that requires a gradient. *)
Definition train_failure (m : MNISTNet) (dl : @DataLoader image) (h0 : gmap nat param)
    (e : exn) : Prop :=
  loader_failure dl e ∨ (e = RuntimeError ∧ ¬ has_trainable m h0).

End TrainingVocabulary.

Section EvaluationVocabulary.

Context {image : Type} `{TL : TensorLib image}.

(** The counters of the evaluation loop as a function of the parameter
    values and of the batches. *)
Fixpoint eval_batches (d : @dataset image) (ws : list tensor) (batches : list (list nat))
    (correct total : nat) : result (nat * nat) :=
  match batches with
  | [] => Ok (correct, total)
  | batch :: rest =>
      rbind (fetch d batch) (λ '(images, labels),
        eval_batches d ws rest
          (correct + count_eq (argmax (forward ws images)) labels)%nat
          (total + length labels)%nat)
  end.

(** The state after one pass over the loader that changes no object. *)
Definition after_pass (dl : @DataLoader image) (s : state) : state :=
  State (heap s) (rng_after dl (rng s)) (handlers s) (trace s).

End EvaluationVocabulary.

(** * A small instance, to run the script on concrete inputs

    Images are numbers, tensors are integers, the network predicts
    [(image + sum of weights) mod 5], the criterion counts the wrong
    predictions of a batch, every gradient is 1 and the optimizer subtracts
    the gradient. [randperm] reverses the order. *)

Definition toy_lib : TensorLib nat := {|
  tensor := Z;
  outputs := list Z;
  rng_state := nat;
  adam_state := nat;
  criterion := unit;
  init_layer := λ sh g, (Z.of_nat g, 0, S g);
  randperm := λ n g, (reverse (seq 0 n), S g);
  randperm_perm := λ n g, reverse_Permutation (seq 0 n);
  forward := λ ws images, (λ img, (Z.of_nat img + foldr Z.add 0 ws) `mod` 5) <$> images;
  argmax := λ o, o;
  cross_entropy := ();
  crit_eval := λ _ o labels, Qnat (length (filter (λ xy, xy.1 ≠ xy.2) (zip o labels)));
  autograd := λ _ ws images labels i, 1;
  tadd := Z.add;
  adam_step := λ st d g, (d - g, S (default 0%nat st));
  fmt_float := λ digits x, pretty (Qnum x) +:+ "/" +:+ pretty (Zpos (Qden x));
|}.

(** The state of a fresh process. *)
Definition toy_state : @state nat toy_lib := @State nat toy_lib ∅ 0%nat ∅ [].

(** Thirty rounds of the ten digits: image [10 * r + d] shows digit [d]. *)
Definition toy_mnist : list (nat * Z) :=
  r ← seq 0 30; (λ d, ((10 * r + d)%nat, Z.of_nat d)) <$> seq 0 10.


(** Loaders over the first items of the odd digits. *)
Definition toy_small_loader : @DataLoader nat :=
  {| dl_dataset := small_train_dataset toy_mnist; batch_size := 2; shuffle := true |}.
Definition toy_test_loader : @DataLoader nat :=
  {| dl_dataset := RemapLabelsDataset (Subset (MNIST toy_mnist) [1; 3; 5; 7; 9; 11]%nat) odd_label_map;
     batch_size := 4; shuffle := false |}.

Section RunVocabulary.

Context {image : Type} `{TL : TensorLib image}.

Definition start_message_nt (run : nat) : string :=
  "Starting non-transfer training (run " +:+ pretty (run + 1)%nat +:+ ")...".
Definition start_message_tr (run : nat) : string :=
  "Starting transfer learning (run " +:+ pretty (run + 1)%nat +:+ ")...".

(** The events of the training branch of one run: [pre] are the metrics of
    the pretraining phase (transfer only), [fin] those of the training
    phase whose metrics the run keeps. *)
Definition branch_events (hs : list string) (model_type : string) (run E : nat)
    (pre fin : list Q * list Q) : list event :=
  if decide (model_type = "non_transfer") then
    [Print (start_message_nt run)] ++ info_events hs (start_message_nt run)
    ++ training_events hs "Non-Transfer" E fin.1 fin.2
  else if decide (model_type = "transfer") then
    info_events hs (start_message_tr run) ++ [Print (start_message_tr run)]
    ++ training_events hs "Transfer" E pre.1 pre.2
    ++ training_events hs "Transfer" E fin.1 fin.2
  else [].

(** The events of one complete run. *)
Definition run_events (hs : list string) (model_type : string) (run n E : nat)
    (pre fin : list Q * list Q) (accuracy : Q) : list event :=
  [FileOpen (log_file model_type (run + 1))]
  ++ info_events hs (run_message run n) ++ [Print (run_message run n)]
  ++ branch_events hs model_type run E pre fin
  ++ [Print (test_message model_type accuracy)]
  ++ info_events hs (test_message model_type accuracy)
  ++ [SaveFig (performance_png model_type run) [Some <$> fin.2; Some <$> fin.1]].

(** The messages logged by the epochs of one training phase. *)
Definition epoch_lines (experiment_type : string) (E : nat) (ls accs : list Q) : list string :=
  imap (λ e la, epoch_message experiment_type e E la.1 la.2) (zip ls accs).

(** The messages logged during one complete run. *)
Definition branch_lines (model_type : string) (run E : nat)
    (pre fin : list Q * list Q) : list string :=
  if decide (model_type = "non_transfer") then
    start_message_nt run :: epoch_lines "Non-Transfer" E fin.1 fin.2
  else if decide (model_type = "transfer") then
    start_message_tr run :: epoch_lines "Transfer" E pre.1 pre.2
    ++ epoch_lines "Transfer" E fin.1 fin.2
  else [].
Definition run_lines (model_type : string) (run n E : nat)
    (pre fin : list Q * list Q) (accuracy : Q) : list string :=
  run_message run n :: branch_lines model_type run E pre fin
  ++ [test_message model_type accuracy].

(** The two experiment variants. *)
Definition valid_model_type (model_type : string) : Prop :=
  model_type = "non_transfer" ∨ model_type = "transfer".

End RunVocabulary.

Section ExperimentVocabulary.

Context {image : Type} `{TL : TensorLib image}.

(** What one complete run produced: the metrics of the pretraining phase
    (empty unless the variant is transfer), the metrics of the phase the
    run keeps, and the test accuracy. *)
Record run_result : Type := RunResult {
  rr_pre : list Q * list Q;
  rr_fin : list Q * list Q;
  rr_accuracy : Q;
}.

(** The log files of the runs 1 .. k of an experiment type. *)
Definition log_files (experiment_type : string) (k : nat) : list string :=
  log_file experiment_type <$> seq 1 k.

(** The events of the complete runs [rs] of one experiment, the logger
    having the handlers [hs0] before the first run. *)
Definition experiment_events (hs0 : list string) (model_type : string) (n E : nat)
    (rs : list run_result) : list event :=
  mjoin (imap (λ r x, run_events (hs0 ++ log_files model_type (r + 1)) model_type r n E
                        (rr_pre x) (rr_fin x) (rr_accuracy x)) rs).

(** The messages logged during the complete runs [rs], run by run. *)
Definition experiment_lines (model_type : string) (n E : nat)
    (rs : list run_result) : list (list string) :=
  imap (λ r x, run_lines model_type r n E (rr_pre x) (rr_fin x) (rr_accuracy x)) rs.

(** The data flow of one transfer run: the model is pretrained on the
    abundant stream, frozen and given a new output layer, fine-tuned on the
    scarce stream, and evaluated. *)
Definition transfer_flow (big small test : @DataLoader image) (E : nat) (x : run_result) : Prop :=
  ∃ model s0 s_a m' s_b s_c,
    train_model model big cross_entropy (Adam (parameters model)) E
      "Transfer" (Some "transfer") s0 = Done (rr_pre x) s_a ∧
    freeze_and_replace model s_a = Done m' s_b ∧
    fine_tune m' small cross_entropy E "transfer" s_b = Done (rr_fin x) s_c ∧
    test_model m' test s_c = Done (rr_accuracy x) (after_pass test s_c).

(** A complete run of a valid variant: [E] values per metric, each loss a
    mean over the batches of the scarce stream, and an accuracy over the
    held-out stream. *)
Definition run_ok (small test : @DataLoader image) (E : nat) (x : run_result) : Prop :=
  length (rr_fin x).1 = E ∧ length (rr_fin x).2 = E ∧
  Forall (is_epoch_loss small cross_entropy) (rr_fin x).1 ∧
  Forall (is_accuracy small) (rr_fin x).2 ∧
  is_accuracy test (rr_accuracy x).

End ExperimentVocabulary.

Section MainVocabulary.

Context {image : Type} `{TL : TensorLib image}.

(** The loaders of lines 74-76. *)
Definition big_train_loader (full_train : list (image * Z)) : @DataLoader image :=
  {| dl_dataset := big_train_dataset full_train; batch_size := 128; shuffle := true |}.
Definition small_train_loader (full_train : list (image * Z)) : @DataLoader image :=
  {| dl_dataset := small_train_dataset full_train; batch_size := 2; shuffle := true |}.
Definition test_loader (test : list (image * Z)) : @DataLoader image :=
  {| dl_dataset := test_dataset test; batch_size := 32; shuffle := false |}.

(** The per-run performance images of an experiment of [n] runs. *)
Definition performance_pngs (model_type : string) (n : nat) : list string :=
  performance_png model_type <$> seq 0 n.

(** The recorded accuracies and losses of the runs [rs]. *)
Definition accuracies_of (rs : list run_result) : list Q := rr_accuracy <$> rs.
Definition losses_of (rs : list run_result) : list (list Q) := (λ x, (rr_fin x).1) <$> rs.

(** The events after the last run: the four arrays, the two summary
    images, the last console line. *)
Definition final_events (rs_nt rs_tr : list run_result) : list event :=
  [ NpSave "logs/non_transfer_accuracies.npy" (Array1 (accuracies_of rs_nt));
    NpSave "logs/non_transfer_losses.npy" (Array2 (losses_of rs_nt));
    NpSave "logs/transfer_accuracies.npy" (Array1 (accuracies_of rs_tr));
    NpSave "logs/transfer_losses.npy" (Array2 (losses_of rs_tr));
    SaveFig (final_png "Non-Transfer Experiment")
      [Some <$> accuracies_of rs_nt; row_mean <$> losses_of rs_nt];
    SaveFig (final_png "Transfer Experiment")
      [Some <$> accuracies_of rs_tr; row_mean <$> losses_of rs_tr];
    Print "Experiments completed and results saved." ].

(** The files written after the last run, in order. *)
Definition final_paths : list string :=
  [ "logs/non_transfer_accuracies.npy"; "logs/non_transfer_losses.npy";
    "logs/transfer_accuracies.npy"; "logs/transfer_losses.npy";
    final_png "Non-Transfer Experiment"; final_png "Transfer Experiment" ].

(** The events of a complete execution of the script. *)
Definition main_events (hs_nt hs_tr : list string) (rs_nt rs_tr : list run_result) : list event :=
  [Print "Running Non-Transfer Experiment..."]
  ++ experiment_events hs_nt "non_transfer" num_runs num_epochs rs_nt
  ++ [Print "Running Transfer Experiment..."]
  ++ experiment_events hs_tr "transfer" num_runs num_epochs rs_tr
  ++ final_events rs_nt rs_tr.

End MainVocabulary.

(** A fresh network in the fresh process, and the state it lives in. *)
Definition toy_net : MNISTNet :=
  match new_MNISTNet (TL := toy_lib) 5 toy_state with
  | Done m _ => m
  | Throw _ _ => Net (Layer 0 0) (Layer 0 0) (Layer 0 0)
  end.
Definition toy_net_state : @state nat toy_lib :=
  final_state (new_MNISTNet (TL := toy_lib) 5 toy_state).

Definition toy_big_loader : @DataLoader nat :=
  {| dl_dataset := big_train_dataset toy_mnist; batch_size := 128; shuffle := true |}.


(** * Shapes in [MNISTNet.forward] (lines 79-93)

    The forward pass as it acts on the shapes of its tensors: what every
    step requires of the shape of its input, and the shape of its result.
    [F.relu] and [F.log_softmax(x, dim=1)] keep the shape. *)

(** The shape [(N, C, H, W)] of a batch of feature maps. *)
Record shape4 : Type := Shape4 { sh_n : nat; sh_c : nat; sh_h : nat; sh_w : nat }.

(** [nn.Conv2d(in, out, kernel_size=k, padding=p)], stride 1: the input
    must have [in] channels and the padded input must hold the kernel. *)
Definition conv2d_shape (l : shape) (x : shape4) : result shape4 :=
  match l with
  | Conv2d cin cout k p =>
      if ((sh_c x =? cin) && (k <=? sh_h x + 2 * p) && (k <=? sh_w x + 2 * p))%nat
      then Ok (Shape4 (sh_n x) cout (sh_h x + 2 * p - k + 1) (sh_w x + 2 * p - k + 1))
      else Raise RuntimeError
  | Linear _ _ => Raise RuntimeError
  end.

(** [F.max_pool2d(x, k)]: stride [k], no padding, sizes rounded down; an
    input smaller than the window has no output. *)
Definition max_pool2d_shape (k : nat) (x : shape4) : result shape4 :=
  if ((k <=? sh_h x) && (k <=? sh_w x))%nat
  then Ok (Shape4 (sh_n x) (sh_c x) (sh_h x / k) (sh_w x / k))
  else Raise RuntimeError.

(** [x.view(-1, features)]: the number of rows is inferred from the number
    of elements, which must be a positive multiple of [features]. *)
Definition view_shape (features : nat) (x : shape4) : result (nat * nat) :=
  let numel := (sh_n x * sh_c x * sh_h x * sh_w x)%nat in
  if ((numel =? 0) || negb (numel mod features =? 0))%nat then Raise RuntimeError
  else Ok ((numel / features)%nat, features).

(** [nn.Linear(in, out)] on a matrix: the rows must have [in] entries. *)
Definition linear_shape (l : shape) (x : nat * nat) : result (nat * nat) :=
  match l with
  | Linear fin fout => if (x.2 =? fin)%nat then Ok (x.1, fout) else Raise RuntimeError
  | Conv2d _ _ _ _ => Raise RuntimeError
  end.

(** Lines 86-93, with the layers of lines 82-84. *)
Definition forward_shape (num_classes : nat) (x : shape4) : result (nat * nat) :=
  rbind (conv2d_shape (Conv2d 1 32 3 1) x) (λ x,
  rbind (max_pool2d_shape 2 x) (λ x,
  rbind (conv2d_shape (Conv2d 32 64 3 1) x) (λ x,
  rbind (max_pool2d_shape 2 x) (λ x,
  rbind (view_shape (64 * 7 * 7) x) (λ x,
  linear_shape (Linear (64 * 7 * 7) num_classes) x))))).

(** * Vocabulary of the further properties *)

Section DatasetVocabulary.

Context {image : Type}.

(** [it] is an item of the base collection [ds] with its label rewritten
    according to the pairs of a label map. *)
Definition remapped_item (ds : list (image * Z)) (pairs : list (Z * Z)) (it : image * Z) : Prop :=
  ∃ p l, ds !! p = Some (it.1, l) ∧ (l, it.2) ∈ pairs.

(** Some item of [ds] carries one of the labels [ls]. *)
Definition has_label (ls : list Z) (ds : list (image * Z)) : Prop :=
  ∃ p l, label_at ds p = Some l ∧ l ∈ ls.

End DatasetVocabulary.

Section OutputVocabulary.

Context {image : Type} `{TL : TensorLib image}.

(** The log files opened by [logging.FileHandler], in order. *)
Definition opened_paths (tr : list event) : list string :=
  omap (λ ev, match ev with FileOpen p => Some p | _ => None end) tr.

(** The events a computation started in [s] has added when it ends in [s']. *)
Definition new_events (s s' : state) : list event :=
  drop (length (trace s)) (trace s').

End OutputVocabulary.

(** * Properties *)

Section DataProperties.

Context {image : Type}.
Implicit Types (ds : list (image * Z)) (d : @dataset image).

(** ** Label remapping *)

Lemma getitem_remap d label_map idx img label :
  getitem d idx = Ok (img, label) →
  getitem (RemapLabelsDataset d label_map) idx =
    match label_map !! label with
    | Some new_label => Ok (img, new_label)
    | None => Raise (KeyError label)
    end.
Proof. intros H. simpl. rewrite H. reflexivity. Qed.

Lemma even_label_map_lookup L L' :
  (L, L') ∈ even_pairs → even_label_map !! L = Some L'.
Proof.
  unfold even_pairs. rewrite !elem_of_cons, elem_of_nil.
  intros [H|[H|[H|[H|[H|[]]]]]]; inversion H; subst; reflexivity.
Qed.

Lemma odd_label_map_lookup L L' :
  (L, L') ∈ odd_pairs → odd_label_map !! L = Some L'.
Proof.
  unfold odd_pairs. rewrite !elem_of_cons, elem_of_nil.
  intros [H|[H|[H|[H|[H|[]]]]]]; inversion H; subst; reflexivity.
Qed.

Lemma pairs_cover_labels :
  (∀ L, L ∈ even_labels → ∃ L', (L, L') ∈ even_pairs) ∧
  (∀ L, L ∈ odd_labels → ∃ L', (L, L') ∈ odd_pairs).
Proof.
  split; intros L; unfold even_labels, odd_labels, even_pairs, odd_pairs;
    rewrite !elem_of_cons, elem_of_nil;
    intros [->|[->|[->|[->|[->|[]]]]]]; eexists;
    repeat first [apply list_elem_of_here | apply list_elem_of_further].
Qed.

(** C2. An item whose original label [L] is one of 0,2,4,6,8 is returned by
    the remapper over the even map with the label the fixed map
    0→0, 2→1, 4→2, 6→3, 8→4 gives, a value among 0..4; likewise for the
    labels 1,3,5,7,9 and the odd map 1→0, 3→1, 5→2, 7→3, 9→4. Every label
    of the two sets is covered by its map. *)
Theorem remap_fixed_map d idx img L :
  getitem d idx = Ok (img, L) →
  (L ∈ even_labels →
     ∃ L', (L, L') ∈ even_pairs ∧ L' ∈ class_indices ∧
           getitem (RemapLabelsDataset d even_label_map) idx = Ok (img, L')) ∧
  (L ∈ odd_labels →
     ∃ L', (L, L') ∈ odd_pairs ∧ L' ∈ class_indices ∧
           getitem (RemapLabelsDataset d odd_label_map) idx = Ok (img, L')).
Proof.
  intros Hget. split; intros HL.
  - destruct (proj1 pairs_cover_labels L HL) as [L' HL'].
    exists L'. split; [done|]. split.
    + revert HL'. unfold even_pairs, class_indices.
      rewrite !elem_of_cons, elem_of_nil.
      intros [H|[H|[H|[H|[H|[]]]]]]; inversion H; subst; eauto 10.
    + rewrite (getitem_remap _ _ _ _ _ Hget), (even_label_map_lookup _ _ HL'). done.
  - destruct (proj2 pairs_cover_labels L HL) as [L' HL'].
    exists L'. split; [done|]. split.
    + revert HL'. unfold odd_pairs, class_indices.
      rewrite !elem_of_cons, elem_of_nil.
      intros [H|[H|[H|[H|[H|[]]]]]]; inversion H; subst; eauto 10.
    + rewrite (getitem_remap _ _ _ _ _ Hget), (odd_label_map_lookup _ _ HL'). done.
Qed.

(** ** Subset selection *)

Lemma label_is_true label lbl : label_is label lbl = true ↔ lbl = label.
Proof. unfold label_is. apply bool_decide_eq_true. Qed.

Lemma elem_of_positions_from label ds i K x :
  x ∈ take K (positions_from i (label_is label) ds) ↔
  ∃ j, x = (i + j)%nat ∧ label_at ds j = Some label ∧
       (occurrences_before label ds j < K)%nat.
Proof.
  unfold label_at, occurrences_before.
  revert i K. induction ds as [|[img lbl] ds IH]; intros i K; simpl.
  - rewrite take_nil, elem_of_nil. split; [done|]. intros (j & _ & H & _).
    by destruct j.
  - destruct (label_is label lbl) eqn:E.
    + apply label_is_true in E as ->. destruct K as [|K]; simpl.
      * rewrite elem_of_nil. split; [done|]. intros (j & _ & _ & H). lia.
      * rewrite elem_of_cons, IH. split.
        -- intros [->|(j & -> & Hl & Hc)].
           ++ exists 0%nat. simpl. split; [lia|]. split; [done|lia].
           ++ exists (S j). simpl. rewrite filter_cons_True by done. simpl.
              split; [lia|]. split; [done|lia].
        -- intros ([|j] & -> & Hl & Hc).
           ++ left. lia.
           ++ right. exists j. simpl in *. rewrite filter_cons_True in Hc by done.
              simpl in Hc. split; [lia|]. split; [done|lia].
    + assert (lbl ≠ label) as Hne.
      { intros ->. rewrite (proj2 (label_is_true label label)) in E; done. }
      rewrite IH. split.
      * intros (j & -> & Hl & Hc). exists (S j). simpl.
        rewrite filter_cons_False by done. split; [lia|]. done.
      * intros ([|j] & -> & Hl & Hc); simpl in *.
        -- by inversion Hl.
        -- rewrite filter_cons_False in Hc by done. exists j. split; [lia|]. done.
Qed.

Lemma elem_of_take_positions label ds K p :
  p ∈ take K (positions (label_is label) ds) ↔
  label_at ds p = Some label ∧ (occurrences_before label ds p < K)%nat.
Proof.
  unfold positions. rewrite elem_of_positions_from. split.
  - intros (j & -> & H). done.
  - intros H. exists p. done.
Qed.

Lemma length_positions_from label ds i :
  length (positions_from i (label_is label) ds) = occurrences label ds.
Proof.
  unfold occurrences. revert i. induction ds as [|[img lbl] ds IH]; intros i; simpl; [done|].
  destruct (label_is label lbl) eqn:E.
  - apply label_is_true in E as ->. rewrite filter_cons_True by done. simpl. by rewrite IH.
  - rewrite filter_cons_False; [apply IH|].
    simpl. intros ->. rewrite (proj2 (label_is_true label label)) in E; done.
Qed.

Lemma select_per_label_unfold K labels ds out :
  select_per_label K labels ds out =
  out ++ mjoin ((λ label, take K (positions (label_is label) ds)) <$> labels).
Proof.
  revert out. induction labels as [|l labels IH]; intros out; simpl.
  - by rewrite app_nil_r.
  - rewrite IH. by rewrite <- app_assoc.
Qed.

Lemma filter_all {A} (P : A → Prop) `{∀ x, Decision (P x)} (l : list A) :
  Forall P l → filter P l = l.
Proof.
  induction 1 as [|x l Hx Hl IH]; [done|].
  rewrite filter_cons_True by done. by rewrite IH.
Qed.

Lemma filter_none {A} (P : A → Prop) `{∀ x, Decision (P x)} (l : list A) :
  Forall (λ x, ¬ P x) l → filter P l = [].
Proof.
  induction 1 as [|x l Hx Hl IH]; [done|].
  rewrite filter_cons_False by done. done.
Qed.

Lemma selected_with_take label label' ds K :
  selected_with label ds (take K (positions (label_is label') ds)) =
  if decide (label = label') then take K (positions (label_is label') ds) else [].
Proof.
  unfold selected_with. destruct (decide (label = label')) as [->|Hne].
  - apply filter_all, Forall_forall. intros p Hp.
    apply elem_of_take_positions in Hp. tauto.
  - apply filter_none, Forall_forall. intros p Hp.
    apply elem_of_take_positions in Hp as [Hp _]. congruence.
Qed.

Lemma selected_with_concat label labels ds K :
  NoDup labels →
  selected_with label ds
    (mjoin ((λ l, take K (positions (label_is l) ds)) <$> labels)) =
  if decide (label ∈ labels) then take K (positions (label_is label) ds) else [].
Proof.
  induction 1 as [|l labels Hl Hnd IH].
  - by rewrite decide_False by apply not_elem_of_nil.
  - rewrite fmap_cons. change (mjoin (?x :: ?l)) with (x ++ mjoin l).
    unfold selected_with in *. rewrite filter_app.
    fold (selected_with label ds (take K (positions (label_is l) ds))).
    rewrite selected_with_take, IH.
    destruct (decide (label = l)) as [->|Hne].
    + rewrite (decide_False (P := l ∈ labels)) by done.
      rewrite decide_True by apply list_elem_of_here. by rewrite app_nil_r.
    + destruct (decide (label ∈ labels)).
      * rewrite decide_True by by apply list_elem_of_further. done.
      * rewrite decide_False; [done|]. rewrite elem_of_cons. tauto.
Qed.

(** C3. With a positive per-label cap [K], a requested label set (a
    duplicate-free list) and at least [K] examples of every requested
    label, the selector returns at most (indeed exactly) [K] positions per
    label, the labels found among the selected items are exactly the
    requested ones, and for each label the selected positions are the
    first [K] positions carrying it in iteration order: a position is
    selected exactly when its label is requested and fewer than [K]
    earlier items carry the same label. The caps of the script are 20
    and 200. *)
Theorem select_per_label_first_K (K : nat) (labels : list Z) ds :
  (0 < K)%nat →
  NoDup labels →
  (∀ l, l ∈ labels → (K ≤ occurrences l ds)%nat) →
  let sel := select_per_label K labels ds [] in
  (∀ l, (length (selected_with l ds sel) ≤ K)%nat) ∧
  (∀ l, l ∈ labels → length (selected_with l ds sel) = K) ∧
  (∀ l, (∃ p, p ∈ sel ∧ label_at ds p = Some l) ↔ l ∈ labels) ∧
  (∀ l, l ∈ labels →
        selected_with l ds sel = take K (positions (label_is l) ds)) ∧
  (∀ p, p ∈ sel ↔
        ∃ l, l ∈ labels ∧ label_at ds p = Some l ∧
             (occurrences_before l ds p < K)%nat).
Proof.
  intros HK Hnd Hocc sel. subst sel.
  rewrite select_per_label_unfold. simpl.
  assert (∀ p, p ∈ mjoin ((λ label, take K (positions (label_is label) ds)) <$> labels) ↔
               ∃ l, l ∈ labels ∧ label_at ds p = Some l ∧
                    (occurrences_before l ds p < K)%nat) as Hmem.
  { intros p. rewrite list_elem_of_join. split.
    - intros (xs & Hp & Hxs). apply list_elem_of_fmap in Hxs as (l & -> & Hl).
      apply elem_of_take_positions in Hp. eauto.
    - intros (l & Hl & Hp). exists (take K (positions (label_is l) ds)). split.
      + by apply elem_of_take_positions.
      + apply list_elem_of_fmap. eauto. }
  assert (∀ l, l ∈ labels →
               length (take K (positions (label_is l) ds)) = K) as Hlen.
  { intros l Hl. rewrite length_take. unfold positions.
    rewrite length_positions_from. specialize (Hocc l Hl). lia. }
  repeat split.
  - intros l. rewrite selected_with_concat by done. destruct (decide (l ∈ labels)).
    + rewrite length_take. lia.
    + simpl. lia.
  - intros l Hl. rewrite selected_with_concat by done. rewrite decide_True by done. auto.
  - intros (p & Hp & Hlab). apply Hmem in Hp as (l' & Hl' & Hlab' & _). congruence.
  - intros Hl. specialize (Hlen l Hl).
    destruct (take K (positions (label_is l) ds)) as [|p ps] eqn:E; simpl in Hlen; [lia|].
    assert (p ∈ take K (positions (label_is l) ds)) as Hp by (rewrite E; apply list_elem_of_here).
    apply elem_of_take_positions in Hp as [Hlab Hc].
    exists p. split; [|done]. apply Hmem. eauto.
  - intros l Hl. rewrite selected_with_concat by done. by rewrite decide_True.
  - apply Hmem.
  - apply Hmem.
Qed.

(** ** Lookup failures of the remapper *)

(** Item access through the remapper, by cases on the presence of the
    original label in the label map. *)
Lemma getitem_remap_iff d (label_map : gmap Z Z) idx img label :
  getitem d idx = Ok (img, label) →
  (label ∉ dom label_map →
     getitem (RemapLabelsDataset d label_map) idx = Raise (KeyError label)) ∧
  ((∃ it, getitem (RemapLabelsDataset d label_map) idx = Ok it) ↔ label ∈ dom label_map) ∧
  (∀ new_label, label_map !! label = Some new_label →
     getitem (RemapLabelsDataset d label_map) idx = Ok (img, new_label)).
Proof.
  intros H. rewrite (getitem_remap _ label_map _ _ _ H). rewrite elem_of_dom.
  destruct (label_map !! label) as [v|] eqn:E.
  - split; [intros []; eauto|]. split; [|by intros ? [= ->]].
    split; eauto.
  - split; [done|]. split; [|done]. split.
    + by intros [? ?].
    + by intros [? ?].
Qed.

End DataProperties.

(** ** Rules of the weakest precondition *)

Section Rules.

Context {image : Type} `{TL : TensorLib image}.

Lemma wp_ret {A} (a : A) s Φ Ψ : Φ a s → wp (mret a) s Φ Ψ.
Proof. done. Qed.

Lemma wp_raise {A} e s (Φ : A → state → Prop) Ψ : Ψ e s → wp (raise e) s Φ Ψ.
Proof. done. Qed.

Lemma wp_gets {A} (f : state → A) s Φ Ψ : Φ (f s) s → wp (gets f) s Φ Ψ.
Proof. done. Qed.

Lemma wp_modify f s Φ Ψ : Φ () (f s) → wp (modify f) s Φ Ψ.
Proof. done. Qed.

Lemma wp_lift {A} (r : result A) s Φ Ψ :
  match r with Ok a => Φ a s | Raise e => Ψ e s end → wp (lift r) s Φ Ψ.
Proof. unfold wp, lift. by destruct r. Qed.

Lemma wp_bind {A B} (m : M A) (k : A → M B) s Φ Ψ :
  wp m s (λ a s', wp (k a) s' Φ Ψ) Ψ ↔ wp (m ≫= k) s Φ Ψ.
Proof. unfold wp, mbind, M_bind. by destruct (m s). Qed.

Lemma wp_mono {A} (m : M A) s (Φ Φ' : A → state → Prop) (Ψ Ψ' : exn → state → Prop) :
  wp m s Φ Ψ → (∀ a s', Φ a s' → Φ' a s') → (∀ e s', Ψ e s' → Ψ' e s') →
  wp m s Φ' Ψ'.
Proof. unfold wp. destruct (m s); auto. Qed.

Lemma wp_and {A} (m : M A) s (Φ Φ' : A → state → Prop) (Ψ Ψ' : exn → state → Prop) :
  wp m s Φ Ψ → wp m s Φ' Ψ' →
  wp m s (λ a s', Φ a s' ∧ Φ' a s') (λ e s', Ψ e s' ∧ Ψ' e s').
Proof. unfold wp. destruct (m s); auto. Qed.

Lemma wp_seq {A B} (m : M A) (k : A → M B) s Φ' Ψ' Φ Ψ :
  wp m s Φ' Ψ' →
  (∀ a s', Φ' a s' → wp (k a) s' Φ Ψ) →
  (∀ e s', Ψ' e s' → Ψ e s') →
  wp (m ≫= k) s Φ Ψ.
Proof. intros H HΦ HΨ. apply wp_bind. eapply wp_mono; eauto. Qed.

Lemma wp_done {A} (m : M A) s Φ Ψ a s' : wp m s Φ Ψ → m s = Done a s' → Φ a s'.
Proof. unfold wp. intros H E. by rewrite E in H. Qed.


Lemma wp_outcome {A} (m : M A) s : wp m s (λ a s', m s = Done a s') (λ e s', m s = Throw e s').
Proof. unfold wp. by destruct (m s) eqn:E. Qed.

(** The loop rule: the invariant speaks of the part of the list already
    processed. *)
Lemma wp_for_each {A B} (xs : list A) (body : A → B → M B) (acc : B) s
    (I : list A → B → state → Prop) Ψ :
  I [] acc s →
  (∀ done x rest acc s, xs = done ++ x :: rest → I done acc s →
     wp (body x acc) s (I (done ++ [x])) Ψ) →
  wp (for_each xs body acc) s (I xs) Ψ.
Proof.
  intros H0 Hbody.
  assert (∀ rest done acc s, xs = done ++ rest → I done acc s →
            wp (for_each rest body acc) s (I xs) Ψ) as Hgen.
  { induction rest as [|x rest IH]; intros done acc' s' Hxs HI.
    - rewrite app_nil_r in Hxs. subst. by apply wp_ret.
    - simpl. eapply wp_seq; [by eapply Hbody| |done].
      intros acc'' s'' HI'. eapply IH; [|done].
      rewrite Hxs, <- app_assoc. done. }
  by eapply (Hgen xs []).
Qed.

(** A simpler loop rule, for an invariant that ignores the position. *)
Lemma wp_for_each_inv {A B} (xs : list A) (body : A → B → M B) (acc : B) s
    (I : B → state → Prop) Ψ :
  I acc s →
  (∀ x acc s, x ∈ xs → I acc s → wp (body x acc) s I Ψ) →
  wp (for_each xs body acc) s I Ψ.
Proof.
  intros H0 Hbody. apply (wp_for_each xs body acc s (λ _, I)); [done|].
  intros done x rest acc' s' -> HI. apply Hbody; [|done].
  apply elem_of_app. right. apply list_elem_of_here.
Qed.

End Rules.

(** ** Effects of the optimizer and of autograd on the heap *)

Section HeapEffects.

Context {image : Type} `{TL : TensorLib image}.
Implicit Types (h : gmap nat param) (U : nat → Prop) (s : state).

Lemma heap_touch_refl U h : heap_touch U h h.
Proof. by repeat split. Qed.

Lemma heap_touch_trans U h0 h1 h2 :
  heap_touch U h0 h1 → heap_touch U h1 h2 → heap_touch U h0 h2.
Proof.
  intros (T1 & D1 & F1) (T2 & D2 & F2). split; [|split].
  - intros a. by rewrite T2, T1.
  - intros a. by rewrite D2, D1.
  - intros a Ha. by rewrite F2, F1.
Qed.

Lemma heap_touch_mono U U' h0 h1 :
  (∀ a, U a → U' a) → heap_touch U h0 h1 → heap_touch U' h0 h1.
Proof. intros HU (T & D & F). split; [done|]. split; [done|]. intros a Ha. apply F. auto. Qed.

Lemma only_heap_refl U s : only_heap U s s.
Proof. repeat split; auto. Qed.

Lemma only_heap_trans U s0 s1 s2 :
  only_heap U s0 s1 → only_heap U s1 s2 → only_heap U s0 s2.
Proof.
  intros (R1 & H1 & T1 & X1) (R2 & H2 & T2 & X2).
  split; [congruence|]. split; [congruence|]. split; [congruence|].
  by eapply heap_touch_trans.
Qed.

Lemma only_heap_mono U U' s0 s1 :
  (∀ a, U a → U' a) → only_heap U s0 s1 → only_heap U' s0 s1.
Proof.
  intros HU (R1 & H1 & T1 & X1). split; [done|]. split; [done|]. split; [done|].
  by eapply heap_touch_mono.
Qed.

Lemma trainable_in_alter h a b (f : param → param) :
  (∀ p, requires_grad (f p) = requires_grad p) →
  trainable_in (alter f a h) b = trainable_in h b.
Proof.
  intros Hf. unfold trainable_in. destruct (decide (a = b)) as [->|Hne].
  - rewrite lookup_alter_eq. destruct (h !! b); simpl; auto.
  - by rewrite lookup_alter_ne.
Qed.

Lemma heap_touch_alter U h a (f : param → param) :
  (∀ p, requires_grad (f p) = requires_grad p) →
  (U a ∨ ∀ p, h !! a = Some p → f p = p) →
  heap_touch U h (alter f a h).
Proof.
  intros Hf Ha. split; [|split].
  - intros b. by apply trainable_in_alter.
  - intros b. destruct (decide (a = b)) as [->|Hne].
    + rewrite lookup_alter_eq. by rewrite fmap_is_Some.
    + by rewrite lookup_alter_ne.
  - intros b Hb. destruct (decide (a = b)) as [->|Hne].
    + destruct Ha as [Ha|Ha]; [done|]. rewrite lookup_alter_eq.
      destruct (h !! b) as [p|] eqn:E; simpl; [|done]. by rewrite Ha.
    + by rewrite lookup_alter_ne.
Qed.

Lemma wp_update U a (f : param → param) s :
  (∀ p, requires_grad (f p) = requires_grad p) →
  (U a ∨ ∀ p, heap s !! a = Some p → f p = p) →
  wp (update a f) s (λ _ s', only_heap U s s') (λ _ _, False).
Proof.
  intros Hf Ha. unfold update. apply wp_modify.
  split; [done|]. split; [done|]. split; [done|]. simpl. by apply heap_touch_alter.
Qed.

Lemma zero_grad_spec opt s :
  wp (zero_grad opt) s (λ _ s', only_heap (λ a, a ∈ opt_params opt) s s') (λ _ _, False).
Proof.
  unfold zero_grad.
  apply (wp_for_each_inv _ _ _ _ (λ _ s', only_heap (λ a, a ∈ opt_params opt) s s')).
  - apply only_heap_refl.
  - intros a [] s1 Ha H1. eapply wp_mono; [apply (wp_update (λ a, a ∈ opt_params opt))| |].
    + done.
    + by left.
    + intros [] s2 H2. by eapply only_heap_trans.
    + done.
Qed.

Lemma existsb_trainable m h :
  existsb (trainable_in h) (parameters m) = true ↔ has_trainable m h.
Proof.
  unfold has_trainable. rewrite existsb_exists. split.
  - intros (a & Ha & Ht). exists a. by rewrite list_elem_of_In.
  - intros (a & Ha & Ht). exists a. by rewrite <- list_elem_of_In.
Qed.

Lemma backward_spec crit m ws images labels s :
  wp (backward crit m ws images labels) s
     (λ _ s', has_trainable m (heap s) ∧
              only_heap (λ a, a ∈ parameters m ∧ trainable_in (heap s) a = true) s s')
     (λ e s', e = RuntimeError ∧ s' = s ∧ ¬ has_trainable m (heap s)).
Proof.
  unfold backward. apply wp_bind, wp_gets.
  destruct (existsb (trainable_in (heap s)) (parameters m)) eqn:E.
  - apply existsb_trainable in E.
    set (U := λ a, a ∈ parameters m ∧ trainable_in (heap s) a = true).
    eapply wp_mono;
      [apply (wp_for_each_inv _ _ _ _ (λ _ s', only_heap U s s'))| |].
    + apply only_heap_refl.
    + intros [i a] [] s1 Hia H1. apply list_elem_of_lookup in Hia as [j Hj].
      rewrite list_lookup_imap in Hj.
      destruct (parameters m !! j) as [a'|] eqn:Ea; simplify_eq/=.
      apply list_elem_of_lookup_2 in Ea.
      eapply wp_mono; [apply (wp_update U)| |].
      * intros p. by destruct (requires_grad p) eqn:Ep.
      * destruct (trainable_in (heap s) a) eqn:Et; [left; by split|].
        right. intros p Hp.
        destruct H1 as (_ & _ & _ & (Ht & _ & _)).
        specialize (Ht a). unfold trainable_in in Ht at 1. rewrite Hp in Ht.
        rewrite Ht, Et. done.
      * intros [] s2 H2. by eapply only_heap_trans.
      * done.
    + intros [] s' H'. done.
    + done.
  - apply wp_raise. split; [done|]. split; [done|].
    rewrite <- existsb_trainable. by rewrite E.
Qed.

Lemma step_spec opt s :
  wp (step opt) s
     (λ opt' s', opt_params opt' = opt_params opt ∧
                 only_heap (λ a, a ∈ opt_params opt) s s')
     (λ _ _, False).
Proof.
  unfold step.
  apply (wp_for_each_inv _ _ _ _
           (λ opt' s', opt_params opt' = opt_params opt ∧
                       only_heap (λ a, a ∈ opt_params opt) s s')).
  - split; [done|]. apply only_heap_refl.
  - intros a opt1 s1 Ha [Ho H1]. apply wp_bind, wp_gets.
    destruct (heap s1 !! a) as [[d rg [g|]]|]; try (by apply wp_ret).
    destruct (adam_step (opt_state opt1 !! a) d g) as [d' st].
    eapply wp_seq; [apply (wp_update (λ a, a ∈ opt_params opt))| |done].
    + done.
    + by left.
    + intros [] s2 H2. apply wp_ret. split; [done|]. by eapply only_heap_trans.
Qed.

End HeapEffects.

(** ** Data loaders *)

Section Loaders.

Context {image : Type} `{TL : TensorLib image}.
Implicit Types (d : @dataset image) (dl : @DataLoader image).

Lemma batch_sampler_join bs idxs batch :
  mjoin (batch_sampler bs idxs batch) = batch ++ idxs.
Proof.
  revert batch. induction idxs as [|i idxs IH]; intros batch; simpl.
  - destruct batch; simpl; by rewrite ?app_nil_r.
  - destruct (length (batch ++ [i]) =? bs)%nat; simpl; rewrite IH; simpl;
      by rewrite <- app_assoc.
Qed.


Lemma visit_order_perm dl g : visit_order dl g ≡ₚ seq 0 (ds_len (dl_dataset dl)).
Proof. unfold visit_order. destruct (shuffle dl); [apply randperm_perm|done]. Qed.

Lemma visit_order_length dl g : length (visit_order dl g) = ds_len (dl_dataset dl).
Proof. by rewrite (visit_order_perm dl g), length_seq. Qed.

Lemma dl_iter_eq dl s :
  dl_iter dl s =
  Done (batch_sampler (batch_size dl) (visit_order dl (rng s)) [])
       (State (heap s) (rng_after dl (rng s)) (handlers s) (trace s)).
Proof.
  unfold dl_iter, visit_order, rng_after. destruct (shuffle dl).
  - unfold mbind, M_bind, gets. simpl.
    destruct (randperm (ds_len (dl_dataset dl)) (rng s)) as [perm g']. done.
  - by destruct s.
Qed.

Lemma dl_len_pos dl :
  (0 < batch_size dl)%nat → (0 < ds_len (dl_dataset dl))%nat → (0 < dl_len dl)%nat.
Proof.
  intros Hbs Hn. unfold dl_len. apply Nat.div_str_pos. lia.
Qed.


Lemma fetch_length d batch imgs lbls :
  fetch d batch = Ok (imgs, lbls) → length imgs = length batch ∧ length lbls = length batch.
Proof.
  revert imgs lbls. induction batch as [|i batch IH]; intros imgs lbls; simpl.
  - by intros [= <- <-].
  - destruct (getitem d i) as [[img lbl]|]; simpl; [|done].
    destruct (fetch d batch) as [[imgs' lbls']|]; simpl; [|done].
    intros [= <- <-]. destruct (IH _ _ eq_refl). simpl. split; congruence.
Qed.

Lemma fetch_ok d batch :
  Forall (λ i, ∃ it, getitem d i = Ok it) batch → ∃ r, fetch d batch = Ok r.
Proof.
  induction 1 as [|i batch [[img lbl] Hi] _ [[imgs lbls] IH]]; simpl; [eauto|].
  rewrite Hi. simpl. rewrite IH. simpl. eauto.
Qed.

Lemma fetch_raise d batch e :
  fetch d batch = Raise e → ∃ i, i ∈ batch ∧ getitem d i = Raise e.
Proof.
  induction batch as [|i batch IH]; simpl; [done|].
  destruct (getitem d i) as [[img lbl]|e'] eqn:Ei; simpl.
  - destruct (fetch d batch) as [[imgs' lbls']|e'] eqn:Ef; simpl; [done|].
    intros [= ->]. destruct (IH eq_refl) as (j & Hj & Hg).
    exists j. split; [by apply list_elem_of_further|done].
  - intros [= ->]. exists i. split; [apply list_elem_of_here|done].
Qed.

Lemma fetch_ok_items d batch r i :
  fetch d batch = Ok r → i ∈ batch → ∃ it, getitem d i = Ok it.
Proof.
  revert r. induction batch as [|j batch IH]; intros r; simpl.
  - intros _ Hi. by apply elem_of_nil in Hi.
  - destruct (getitem d j) as [[img lbl]|] eqn:Ej; simpl; [|done].
    destruct (fetch d batch) as [[imgs' lbls']|] eqn:Ef; simpl; [|done].
    intros _ [->|Hi]%elem_of_cons; eauto.
Qed.

(** The batches of a pass contain valid positions only. *)
Lemma batches_in_range dl g batch i :
  batch ∈ batch_sampler (batch_size dl) (visit_order dl g) [] → i ∈ batch →
  (i < ds_len (dl_dataset dl))%nat.
Proof.
  intros Hb Hi.
  assert (i ∈ mjoin (batch_sampler (batch_size dl) (visit_order dl g) [])) as H
    by (apply list_elem_of_join; eauto).
  rewrite batch_sampler_join in H. simpl in H.
  rewrite (visit_order_perm dl g) in H. apply elem_of_seq in H. lia.
Qed.

(** Every position of the dataset is in some batch of a pass. *)
Lemma batches_cover dl g i :
  (i < ds_len (dl_dataset dl))%nat →
  ∃ batch, batch ∈ batch_sampler (batch_size dl) (visit_order dl g) [] ∧ i ∈ batch.
Proof.
  intros Hi.
  assert (i ∈ mjoin (batch_sampler (batch_size dl) (visit_order dl g) [])) as H.
  { rewrite batch_sampler_join. simpl. rewrite (visit_order_perm dl g).
    apply elem_of_seq. lia. }
  apply list_elem_of_join in H as (b & ? & ?). eauto.
Qed.

Lemma count_eq_le predicted labels : (count_eq predicted labels ≤ length labels)%nat.
Proof.
  unfold count_eq. etrans; [apply length_filter|].
  rewrite length_zip. lia.
Qed.

End Loaders.

(** ** Training *)

Section Training.

Context {image : Type} `{TL : TensorLib image}.
Implicit Types (d : @dataset image) (dl : @DataLoader image) (m : MNISTNet).

Lemma has_trainable_touch U m h0 h :
  heap_touch U h0 h → has_trainable m h ↔ has_trainable m h0.
Proof.
  intros (T & _). unfold has_trainable.
  split; intros (a & Ha & Ht); exists a; (split; [done|]).
  - by rewrite <- T.
  - by rewrite T.
Qed.

Lemma train_batch_spec m dl crit batch acc s :
  wp (train_batch m dl crit batch acc) s
    (λ acc' s',
       ∃ imgs lbls o,
         fetch (dl_dataset dl) batch = Ok (imgs, lbls) ∧
         has_trainable m (heap s) ∧
         only_heap (written_by m (ta_opt acc) (heap s)) s s' ∧
         opt_params (ta_opt acc') = opt_params (ta_opt acc) ∧
         ta_epoch_loss acc' = (ta_epoch_loss acc + crit_eval crit o lbls)%Q ∧
         ta_correct acc' = (ta_correct acc + count_eq (argmax o) lbls)%nat ∧
         ta_total acc' = (ta_total acc + length batch)%nat)
    (λ e s',
       only_heap (written_by m (ta_opt acc) (heap s)) s s' ∧
       (fetch (dl_dataset dl) batch = Raise e ∨
        (e = RuntimeError ∧ ¬ has_trainable m (heap s)))).
Proof.
  unfold train_batch. apply wp_bind, wp_lift.
  destruct (fetch (dl_dataset dl) batch) as [[imgs lbls]|e] eqn:Ef.
  2:{ split; [apply only_heap_refl|by left]. }
  apply wp_bind, wp_gets.
  eapply wp_seq; [apply zero_grad_spec| |done].
  intros [] s1 H1.
  assert (only_heap (written_by m (ta_opt acc) (heap s)) s s1) as H1'.
  { eapply only_heap_mono; [|exact H1]. intros a Ha. by left. }
  eapply wp_seq; [apply backward_spec| |].
  - intros [] s2 [Ht H2].
    assert (only_heap (written_by m (ta_opt acc) (heap s)) s s2) as H2'.
    { eapply only_heap_trans; [exact H1'|].
      eapply only_heap_mono; [|exact H2]. intros a [Ha Hta]. right. split; [done|].
      destruct H1 as (_ & _ & _ & (T & _)). by rewrite <- T. }
    eapply wp_seq; [apply step_spec| |done].
    intros opt' s3 [Ho H3]. apply wp_ret.
    exists imgs, lbls, (forward (weights_in (heap s) m) imgs).
    split; [done|]. split.
    { destruct H1 as (_ & _ & _ & HT). by apply (has_trainable_touch _ _ _ _ HT). }
    split.
    { eapply only_heap_trans; [exact H2'|].
      eapply only_heap_mono; [|exact H3]. intros a Ha. by left. }
    simpl. split; [done|]. split; [done|]. split; [done|].
    destruct (fetch_length _ _ _ _ Ef) as [_ ->]. done.
  - intros e s2 (-> & -> & Hn). split; [done|]. right. split; [done|].
    destruct H1 as (_ & _ & _ & HT). by rewrite <- (has_trainable_touch _ _ _ _ HT).
Qed.

Lemma written_by_stable m opt opt' h0 h U a :
  opt_params opt' = opt_params opt → heap_touch U h0 h →
  written_by m opt' h a ↔ written_by m opt h0 a.
Proof. intros Ho (T & _). unfold written_by. by rewrite Ho, T. Qed.

Lemma train_batches_spec m dl crit batches opt s :
  wp (for_each batches (train_batch m dl crit) (TrainAcc opt 0 0 0)) s
    (λ r s',
       only_heap (written_by m opt (heap s)) s s' ∧
       opt_params (ta_opt r) = opt_params opt ∧
       ta_total r = length (mjoin batches) ∧
       (ta_correct r ≤ ta_total r)%nat ∧
       (batches ≠ [] → has_trainable m (heap s)) ∧
       Forall (λ b, ∃ r, fetch (dl_dataset dl) b = Ok r) batches ∧
       ∃ bl, length bl = length batches ∧
             Forall (λ b, ∃ o l, b = crit_eval crit o l) bl ∧
             ta_epoch_loss r = fold_left Qplus bl 0%Q)
    (λ e s',
       only_heap (written_by m opt (heap s)) s s' ∧
       ((∃ batch, batch ∈ batches ∧ fetch (dl_dataset dl) batch = Raise e) ∨
        (e = RuntimeError ∧ ¬ has_trainable m (heap s)))).
Proof.
  apply (wp_for_each batches _ _ s
    (λ done r s',
       only_heap (written_by m opt (heap s)) s s' ∧
       opt_params (ta_opt r) = opt_params opt ∧
       ta_total r = length (mjoin done) ∧
       (ta_correct r ≤ ta_total r)%nat ∧
       (done ≠ [] → has_trainable m (heap s)) ∧
       Forall (λ b, ∃ r, fetch (dl_dataset dl) b = Ok r) done ∧
       ∃ bl, length bl = length done ∧
             Forall (λ b, ∃ o l, b = crit_eval crit o l) bl ∧
             ta_epoch_loss r = fold_left Qplus bl 0%Q)).
  - split; [apply only_heap_refl|]. simpl. split; [done|]. split; [done|].
    split; [done|]. split; [done|]. split; [done|]. exists []. done.
  - intros done batch rest r s1 Hb (H1 & Ho & Htot & Hc & Htr & Hfe & bl & Hlen & Hbl & Hloss).
    assert (∀ s2, only_heap (written_by m (ta_opt r) (heap s1)) s1 s2 →
                  only_heap (written_by m opt (heap s)) s s2) as Hstep.
    { intros s2 H2. eapply only_heap_trans; [exact H1|].
      eapply only_heap_mono; [|exact H2]. intros a Ha.
      destruct H1 as (_ & _ & _ & HT). by apply (written_by_stable _ _ _ _ _ _ a Ho HT). }
    eapply wp_mono; [apply train_batch_spec| |].
    + intros r' s2 (imgs & lbls & o & Hf & Ht & H2 & Ho' & Hl' & Hc' & Ht').
      split; [by apply Hstep|]. split; [congruence|].
      split. { rewrite Ht', Htot, join_app, length_app. simpl. by rewrite app_nil_r. }
      split. { rewrite Hc', Ht'. pose proof (count_eq_le (argmax o) lbls).
               destruct (fetch_length _ _ _ _ Hf) as [_ <-]. lia. }
      split. { intros _. destruct H1 as (_ & _ & _ & HT).
               by apply (has_trainable_touch _ _ _ _ HT). }
      split. { apply Forall_app. split; [done|]. constructor; [eauto|done]. }
      exists (bl ++ [crit_eval crit o lbls]). split; [rewrite !length_app; simpl; lia|].
      split. { apply Forall_app. split; [done|]. constructor; [eauto|done]. }
      rewrite fold_left_app. simpl. by rewrite Hl', Hloss.
    + intros e s2 (H2 & Hcause). split; [by apply Hstep|].
      destruct Hcause as [Hf|[-> Hn]].
      * left. exists batch. split; [|done]. rewrite Hb.
        apply elem_of_app. right. apply list_elem_of_here.
      * right. split; [done|]. destruct H1 as (_ & _ & _ & HT).
        by rewrite <- (has_trainable_touch _ _ _ _ HT).
Qed.

(** ** Logging and printing *)

Lemma appends_refl s : appends [] s s.
Proof. unfold appends. by rewrite app_nil_r. Qed.

Lemma appends_trans T1 T2 s0 s1 s2 :
  appends T1 s0 s1 → appends T2 s1 s2 → appends (T1 ++ T2) s0 s2.
Proof.
  intros (H1 & R1 & L1 & X1) (H2 & R2 & L2 & X2). unfold appends.
  rewrite H2, R2, L2, X2, X1, app_assoc. done.
Qed.

Lemma emit_spec ev s : wp (emit ev) s (λ _ s', appends [ev] s s') (λ _ _, False).
Proof. unfold emit. apply wp_modify. done. Qed.

Lemma print_spec line s : wp (print line) s (λ _ s', appends [Print line] s s') (λ _ _, False).
Proof. apply emit_spec. Qed.

Lemma logger_info_spec lg message s :
  wp (logger_info lg message) s
     (λ _ s', appends (info_events (default [] (handlers s !! lg)) message) s s')
     (λ _ _, False).
Proof.
  unfold logger_info. apply wp_bind, wp_gets.
  apply (wp_for_each _ _ _ s (λ done _ s', appends (info_events done message) s s')).
  - apply appends_refl.
  - intros done h rest [] s1 _ H1. eapply wp_mono; [apply emit_spec| |done].
    intros [] s2 H2. unfold info_events. rewrite fmap_app. by eapply appends_trans.
Qed.

Lemma py_div_spec x n s :
  wp (py_div x n) s
     (λ r s', s' = s ∧ n ≠ 0%nat ∧ r = (x / Qnat n)%Q)
     (λ e s', s' = s ∧ e = ZeroDivisionError ∧ n = 0%nat).
Proof.
  unfold py_div. destruct (Nat.eqb_spec n 0).
  - by apply wp_raise.
  - by apply wp_ret.
Qed.

(** ** One epoch and the whole of [train_model] *)

Lemma batch_sampler_length_indep bs idxs idxs' batch batch' :
  length idxs = length idxs' → length batch = length batch' →
  length (batch_sampler bs idxs batch) = length (batch_sampler bs idxs' batch').
Proof.
  revert idxs' batch batch'.
  induction idxs as [|i idxs IH]; intros [|i' idxs'] batch batch' Hi Hb; simplify_eq/=.
  - destruct batch, batch'; simplify_eq/=; done.
  - rewrite !length_app. simpl. rewrite <- Hb.
    destruct (length batch + 1 =? bs)%nat; simpl.
    + f_equal. by apply IH.
    + apply IH; [done|]. rewrite !length_app. simpl. lia.
Qed.

Lemma n_batches_visit dl g :
  length (batch_sampler (batch_size dl) (visit_order dl g) []) = n_batches dl.
Proof.
  apply batch_sampler_length_indep; [|done].
  by rewrite visit_order_length, length_seq.
Qed.


Lemma batches_total dl g :
  length (mjoin (batch_sampler (batch_size dl) (visit_order dl g) [])) = ds_len (dl_dataset dl).
Proof. rewrite batch_sampler_join. simpl. apply visit_order_length. Qed.

Lemma batch_failure dl g batch e :
  batch ∈ batch_sampler (batch_size dl) (visit_order dl g) [] →
  fetch (dl_dataset dl) batch = Raise e →
  loader_failure dl e.
Proof.
  intros Hb Hf. right. apply fetch_raise in Hf as (i & Hi & Hg).
  exists i. split; [|done]. by eapply batches_in_range.
Qed.

Lemma train_epoch_spec m dl crit E ty lg e acc s :
  wp (train_epoch m dl crit E ty lg e acc) s
    (λ acc' s', ∃ loss accu,
        ea_losses acc' = ea_losses acc ++ [loss] ∧
        ea_accuracies acc' = ea_accuracies acc ++ [accu] ∧
        opt_params (ea_opt acc') = opt_params (ea_opt acc) ∧
        is_epoch_loss dl crit loss ∧ is_accuracy dl accu ∧
        (0 < ds_len (dl_dataset dl))%nat ∧ dl_len dl ≠ 0%nat ∧
        has_trainable m (heap s) ∧ loads (dl_dataset dl) ∧
        handlers s' = handlers s ∧
        trace s' = trace s ++ epoch_events (handlers_of lg s) ty E e loss accu ∧
        heap_touch (written_by m (ea_opt acc) (heap s)) (heap s) (heap s'))
    (λ e' s',
        handlers s' = handlers s ∧ trace s' = trace s ∧
        heap_touch (written_by m (ea_opt acc) (heap s)) (heap s) (heap s') ∧
        train_failure m dl (heap s) e').
Proof.
  unfold train_epoch. apply wp_bind. unfold wp at 1. rewrite dl_iter_eq.
  set (batches := batch_sampler (batch_size dl) (visit_order dl (rng s)) []).
  set (s1 := State (heap s) (rng_after dl (rng s)) (handlers s) (trace s)).
  eapply wp_seq; [apply train_batches_spec| |].
  - intros r s2 ((R2 & L2 & T2 & HT2) & Ho & Htot & Hc & Htr & Hfe & bl & Hlen & Hbl & Hloss).
    simpl in R2, L2, T2, HT2, Htr. unfold batches in Htot. rewrite batches_total in Htot.
    eapply wp_seq; [apply py_div_spec| |].
    + intros loss s3 (-> & Hn & ->).
      eapply wp_seq; [apply py_div_spec| |].
      * intros accu s3 (-> & Hn' & ->).
        assert (is_epoch_loss dl crit (ta_epoch_loss r / Qnat (dl_len dl))) as Hel.
        { exists bl. split; [|split; [done|by rewrite Hloss]].
          rewrite Hlen. apply n_batches_visit. }
        assert (is_accuracy dl (Qnat (100 * ta_correct r) / Qnat (ta_total r))) as Hacc.
        { exists (ta_correct r). rewrite Htot in *. done. }
        assert (has_trainable m (heap s)) as Htr'.
        { apply Htr. intros Hnil.
          pose proof (batches_total dl (rng s)) as Hbt. fold batches in Hbt.
          rewrite Hnil in Hbt. simpl in Hbt. lia. }
        eapply (wp_seq _ _ _
                  (λ _ s', appends (info_events (handlers_of lg s)
                              (epoch_message ty e E (ta_epoch_loss r / Qnat (dl_len dl))
                                 (Qnat (100 * ta_correct r) / Qnat (ta_total r)))) s2 s')
                  (λ _ _, False)).
        -- destruct lg as [lg|]; simpl.
           ++ eapply wp_mono; [apply logger_info_spec| |done].
              intros [] s3. by rewrite L2.
           ++ apply wp_ret. apply appends_refl.
        -- intros [] s3 (H3 & R3 & L3 & T3).
           eapply wp_seq; [apply print_spec| |done].
           intros [] s4 (H4 & R4 & L4 & T4). apply wp_ret.
           eexists _, _. simpl. split; [done|]. split; [done|]. split; [done|].
           split; [done|]. split; [done|]. split; [lia|]. split; [done|].
           split; [done|].
           split. { intros i Hi. destruct (batches_cover dl (rng s) i Hi) as (b & Hb & Hib).
                    fold batches in Hb. rewrite Forall_forall in Hfe.
                    destruct (Hfe b Hb) as [rb Hrb]. by eapply fetch_ok_items. }
           split; [congruence|]. split.
           { rewrite T4, T3, T2. unfold epoch_events. by rewrite app_assoc. }
           rewrite H4, H3. done.
        -- done.
      * intros e' s3 (-> & -> & Hz). split; [done|]. split; [done|]. split; [done|].
        left. left. split; [done|]. right. lia.
    + intros e' s3 (-> & -> & Hz). split; [done|]. split; [done|]. split; [done|].
      left. left. split; [done|]. by left.
  - intros e' s2 ((R2 & L2 & T2 & HT2) & Hcause). simpl in *.
    split; [done|]. split; [done|]. split; [done|].
    destruct Hcause as [(batch & Hb & Hf)|[-> Hn]].
    + left. by eapply batch_failure.
    + by right.
Qed.

Lemma training_events_snoc hs ty E ls accs l a :
  length ls = length accs →
  training_events hs ty E (ls ++ [l]) (accs ++ [a]) =
  training_events hs ty E ls accs ++ epoch_events hs ty E (length ls) l a.
Proof.
  intros Hlen. unfold training_events.
  rewrite zip_with_app by done. rewrite imap_app, join_app. simpl.
  rewrite length_zip_with, <- Hlen, Nat.min_id, Nat.add_0_r, app_nil_r. done.
Qed.

Lemma train_model_spec m dl crit opt E ty lg s :
  wp (train_model m dl crit opt E ty lg) s
    (λ r s',
        length r.1 = E ∧ length r.2 = E ∧
        Forall (is_epoch_loss dl crit) r.1 ∧ Forall (is_accuracy dl) r.2 ∧
        ((0 < E)%nat → (0 < ds_len (dl_dataset dl))%nat ∧ dl_len dl ≠ 0%nat ∧
                       has_trainable m (heap s) ∧ loads (dl_dataset dl)) ∧
        handlers s' = handlers s ∧
        trace s' = trace s ++ training_events (handlers_of lg s) ty E r.1 r.2 ∧
        heap_touch (written_by m opt (heap s)) (heap s) (heap s'))
    (λ e s',
        handlers s' = handlers s ∧
        (∃ ls accs, length ls = length accs ∧ (length ls < E)%nat ∧
           trace s' = trace s ++ training_events (handlers_of lg s) ty E ls accs) ∧
        heap_touch (written_by m opt (heap s)) (heap s) (heap s') ∧
        train_failure m dl (heap s) e).
Proof.
  unfold train_model.
  set (I := λ (done : list nat) (r : epochs_acc) (s' : state),
        opt_params (ea_opt r) = opt_params opt ∧
        length (ea_losses r) = length done ∧ length (ea_accuracies r) = length done ∧
        Forall (is_epoch_loss dl crit) (ea_losses r) ∧
        Forall (is_accuracy dl) (ea_accuracies r) ∧
        (done ≠ [] → (0 < ds_len (dl_dataset dl))%nat ∧ dl_len dl ≠ 0%nat ∧
                     has_trainable m (heap s) ∧ loads (dl_dataset dl)) ∧
        handlers s' = handlers s ∧
        trace s' = trace s ++
                   training_events (handlers_of lg s) ty E (ea_losses r) (ea_accuracies r) ∧
        heap_touch (written_by m opt (heap s)) (heap s) (heap s')).
  set (Ψ := λ (e : exn) (s' : state),
        handlers s' = handlers s ∧
        (∃ ls accs, length ls = length accs ∧ (length ls < E)%nat ∧
           trace s' = trace s ++ training_events (handlers_of lg s) ty E ls accs) ∧
        heap_touch (written_by m opt (heap s)) (heap s) (heap s') ∧
        train_failure m dl (heap s) e).
  eapply wp_seq; [apply (wp_for_each (seq 0 E) _ _ s I Ψ)| |].
  - unfold I. simpl. rewrite app_nil_r. repeat (split; [done|]). apply heap_touch_refl.
  - intros done e rest r s1 Hseq (Ho & Hl & Ha & Hfl & Hfa & Hpos & L1 & T1 & HT1).
    assert (e = length done) as ->.
    { assert (seq 0 E !! length done = Some e) as Hlk
        by (rewrite Hseq; apply list_lookup_middle; done).
      apply lookup_seq in Hlk. lia. }
    eapply wp_mono; [apply train_epoch_spec| |].
    + intros r' s2 (loss & accu & Hls & Has & Ho' & Hel & Hac & Hn & Hd & Htr & Hlo & L2 & T2 & HT2).
      unfold I. split; [congruence|].
      split; [rewrite Hls, !length_app; simpl; lia|].
      split; [rewrite Has, !length_app; simpl; lia|].
      split; [rewrite Hls; apply Forall_app; split; [done|by constructor]|].
      split; [rewrite Has; apply Forall_app; split; [done|by constructor]|].
      split. { intros _. split; [done|]. split; [done|]. split; [|done].
               by apply (has_trainable_touch _ _ _ _ HT1). }
      split; [congruence|].
      split. { rewrite T2, T1, Hls, Has, training_events_snoc by congruence.
               unfold handlers_of. rewrite L1, Hl, app_assoc. done. }
      eapply heap_touch_trans; [exact HT1|].
      eapply heap_touch_mono; [|exact HT2]. intros a.
      by apply (written_by_stable _ _ _ _ _ _ a Ho HT1).
    + intros e' s2 (L2 & T2 & HT2 & Hcause). unfold Ψ.
      split; [congruence|]. split.
      { exists (ea_losses r), (ea_accuracies r). split; [congruence|]. split.
        - rewrite Hl. assert (length (seq 0 E) = E) as HE by apply length_seq.
          rewrite Hseq, length_app in HE. simpl in HE. lia.
        - by rewrite T2, T1. }
      split.
      { eapply heap_touch_trans; [exact HT1|].
        eapply heap_touch_mono; [|exact HT2]. intros a.
        by apply (written_by_stable _ _ _ _ _ _ a Ho HT1). }
      destruct Hcause as [Hc|[-> Hn]]; [by left|]. right. split; [done|].
      by rewrite <- (has_trainable_touch _ _ _ _ HT1).
  - intros r s1 (Ho & Hl & Ha & Hfl & Hfa & Hpos & L1 & T1 & HT1). apply wp_ret. simpl.
    rewrite length_seq in Hl, Ha. repeat (split; [done|]).
    split. { intros HE. apply Hpos. destruct E; [lia|]. done. }
    done.
  - done.
Qed.

End Training.

(** ** Evaluation *)

Section Evaluation.

Context {image : Type} `{TL : TensorLib image}.
Implicit Types (d : @dataset image) (dl : @DataLoader image) (m : MNISTNet).

Lemma test_loop_eq m dl batches c t s :
  for_each batches (test_batch m dl) (c, t) s =
  match eval_batches (dl_dataset dl) (weights_in (heap s) m) batches c t with
  | Ok r => Done r s
  | Raise e => Throw e s
  end.
Proof.
  revert c t. induction batches as [|batch batches IH]; intros c t; simpl; [done|].
  unfold mbind, M_bind, test_batch at 1, lift. simpl.
  destruct (fetch (dl_dataset dl) batch) as [[imgs lbls]|e]; simpl; [|done].
  apply IH.
Qed.

Lemma test_model_eq m dl s :
  test_model m dl s =
  match eval_batches (dl_dataset dl) (weights_in (heap s) m)
          (batch_sampler (batch_size dl) (visit_order dl (rng s)) []) 0 0 with
  | Ok (correct, total) =>
      if (total =? 0)%nat then Throw ZeroDivisionError (after_pass dl s)
      else Done (Qnat (100 * correct) / Qnat total)%Q (after_pass dl s)
  | Raise e => Throw e (after_pass dl s)
  end.
Proof.
  unfold test_model, mbind, M_bind. rewrite dl_iter_eq, test_loop_eq. simpl.
  fold (after_pass dl s).
  destruct (eval_batches _ _ _ _ _) as [[c t]|e]; [|done].
  unfold py_div. by destruct (t =? 0)%nat.
Qed.

Lemma eval_batches_ok d ws batches c t c' t' :
  eval_batches d ws batches c t = Ok (c', t') →
  t' = (t + length (mjoin batches))%nat ∧ (c ≤ c')%nat ∧ (c' - c ≤ t' - t)%nat.
Proof.
  revert c t. induction batches as [|batch batches IH]; intros c t; simpl.
  - intros [= <- <-]. lia.
  - destruct (fetch d batch) as [[imgs lbls]|e] eqn:Ef; simpl; [|done].
    intros H. apply IH in H as (-> & H1 & H2).
    destruct (fetch_length _ _ _ _ Ef) as [_ Hl].
    pose proof (count_eq_le (argmax (forward ws imgs)) lbls).
    rewrite length_app. lia.
Qed.

Lemma eval_batches_raise d ws batches c t e :
  eval_batches d ws batches c t = Raise e →
  ∃ batch, batch ∈ batches ∧ fetch d batch = Raise e.
Proof.
  revert c t. induction batches as [|batch batches IH]; intros c t; simpl; [done|].
  destruct (fetch d batch) as [[imgs lbls]|e'] eqn:Ef; simpl.
  - intros H. apply IH in H as (b & Hb & Hf). exists b. split; [by apply list_elem_of_further|done].
  - intros [= ->]. exists batch. split; [apply list_elem_of_here|done].
Qed.

Lemma eval_batches_fetched d ws batches c t r :
  eval_batches d ws batches c t = Ok r →
  Forall (λ b, ∃ r', fetch d b = Ok r') batches.
Proof.
  revert c t. induction batches as [|batch batches IH]; intros c t; simpl; [done|].
  destruct (fetch d batch) as [[imgs lbls]|e'] eqn:Ef; simpl; [|done].
  intros H. constructor; [eauto|]. by eapply IH.
Qed.

(** The evaluator changes no object, no handler and no event; it returns
    an accuracy over the loader's dataset or fails for a reason of the
    loader. *)
Lemma test_model_spec m dl s :
  wp (test_model m dl) s
     (λ acc s', s' = after_pass dl s ∧ is_accuracy dl acc ∧
                (0 < ds_len (dl_dataset dl))%nat ∧ loads (dl_dataset dl))
     (λ e s', s' = after_pass dl s ∧
              ((e = ZeroDivisionError ∧ ds_len (dl_dataset dl) = 0%nat) ∨
               (∃ i, (i < ds_len (dl_dataset dl))%nat ∧
                     getitem (dl_dataset dl) i = Raise e))).
Proof.
  unfold wp. rewrite test_model_eq.
  destruct (eval_batches _ _ _ _ _) as [[c t]|e] eqn:E.
  - pose proof (eval_batches_fetched _ _ _ _ _ _ E) as Hfe.
    apply eval_batches_ok in E as (-> & _ & Hc). rewrite batches_total in *. simpl in *.
    destruct (Nat.eqb_spec (ds_len (dl_dataset dl)) 0) as [Hz|Hz].
    + split; [done|]. left. by split.
    + split; [done|]. split; [exists c; split; [lia|done]|]. split; [lia|].
      intros i Hi. destruct (batches_cover dl (rng s) i Hi) as (b & Hb & Hib).
      rewrite Forall_forall in Hfe. destruct (Hfe b Hb) as [rb Hrb].
      by eapply fetch_ok_items.
  - split; [done|]. apply eval_batches_raise in E as (b & Hb & Hf).
    destruct (batch_failure _ _ _ _ Hb Hf) as [[-> _]|H]; [|by right].
    apply fetch_raise in Hf as (i & Hi & Hg). right. exists i. split; [|done].
    by eapply batches_in_range.
Qed.

Lemma loader_failure_usable dl e : usable dl → ¬ loader_failure dl e.
Proof.
  intros (Hbs & Hn & Hl) [[_ [Hz|Hz]]|(i & Hi & Hg)].
  - pose proof (dl_len_pos dl Hbs Hn). lia.
  - lia.
  - destruct (Hl i Hi) as [it Hit]. congruence.
Qed.

(** On a usable loader the evaluator returns. *)
Lemma test_model_total m dl s :
  usable dl →
  ∃ acc, test_model m dl s = Done acc (after_pass dl s) ∧ is_accuracy dl acc.
Proof.
  intros Hu. pose proof (test_model_spec m dl s) as H. unfold wp in H.
  destruct (test_model m dl s) as [acc s'|e s'].
  - destruct H as (-> & Ha & _). eauto.
  - destruct H as (_ & Hf). exfalso. apply (loader_failure_usable dl e Hu).
    destruct Hf as [[-> Hz]|Hf]; [left; split; [done|by right]|by right].
Qed.

(** ** Arithmetic of the metrics *)

Lemma Qnat_nonneg n : (0 <= Qnat n)%Q.
Proof. unfold Qnat, Qle. simpl. lia. Qed.

Lemma Qnat_pos n : (0 < n)%nat → (0 < Qnat n)%Q.
Proof. intros H. unfold Qnat, Qlt. simpl. lia. Qed.

Lemma is_accuracy_bounds dl x :
  (0 < ds_len (dl_dataset dl))%nat → is_accuracy dl x → (0 <= x)%Q ∧ (x <= 100)%Q.
Proof.
  intros Hn (c & Hc & ->). pose proof (Qnat_pos _ Hn) as Hp. split.
  - apply Qle_shift_div_l; [done|]. rewrite Qmult_0_l. apply Qnat_nonneg.
  - apply Qle_shift_div_r; [done|]. unfold Qnat, Qle. simpl. lia.
Qed.



End Evaluation.

(** ** The claims on the trainer and the evaluator *)

Section TrainerClaims.

Context {image : Type} `{TL : TensorLib image}.
Implicit Types (d : @dataset image) (dl : @DataLoader image) (m : MNISTNet).







End TrainerClaims.



(** ** Allocation of the network, freezing, logger set-up *)

Section Driver.

Context {image : Type} `{TL : TensorLib image}.
Implicit Types (d : @dataset image) (dl : @DataLoader image) (m : MNISTNet).

Lemma new_layer_spec sh s :
  wp (new_layer sh) s
     (λ l s', ∃ w b,
        (weight l ∉ dom (heap s)) ∧ (bias l ∉ dom (heap s)) ∧ weight l ≠ bias l ∧
        heap s' = <[bias l := Param b true None]> (<[weight l := Param w true None]> (heap s)) ∧
        handlers s' = handlers s ∧ trace s' = trace s)
     (λ _ _, False).
Proof.
  unfold wp, new_layer, mbind, M_bind, gets, modify, alloc. simpl.
  destruct (init_layer sh (rng s)) as [[w b] g'] eqn:Ei. simpl.
  set (wa := fresh (dom (heap s))).
  set (ba := fresh (dom (<[wa := Param w true None]> (heap s)))).
  assert (wa ∉ dom (heap s)) as Hw by apply is_fresh.
  assert (ba ∉ dom (<[wa := Param w true None]> (heap s))) as Hb by apply is_fresh.
  rewrite dom_insert in Hb. apply not_elem_of_union in Hb as [Hb1 Hb2].
  apply not_elem_of_singleton in Hb1.
  exists w, b. repeat split; auto.
Qed.

Lemma trainable_in_insert h a b (p : param) :
  trainable_in (<[a := p]> h) b = if decide (a = b) then requires_grad p else trainable_in h b.
Proof.
  unfold trainable_in. rewrite lookup_insert. by destruct (decide (a = b)).
Qed.

(** A fresh layer: its two parameters are new, distinct and trainable, and
    nothing else changes. *)
Lemma new_layer_fresh sh s :
  wp (new_layer sh) s
     (λ l s',
        NoDup (layer_parameters l) ∧
        (∀ a, a ∈ layer_parameters l →
              (a ∉ dom (heap s)) ∧ a ∈ dom (heap s') ∧ trainable_in (heap s') a = true) ∧
        (∀ a, a ∉ layer_parameters l → heap s' !! a = heap s !! a) ∧
        handlers s' = handlers s ∧ trace s' = trace s)
     (λ _ _, False).
Proof.
  eapply wp_mono; [apply new_layer_spec| |done].
  intros [wa ba] s' (w & b & Hw & Hb & Hne & Hh & HL & HT). simpl in *.
  unfold layer_parameters. simpl. split.
  { apply NoDup_cons. split; [by rewrite list_elem_of_singleton|]. apply NoDup_singleton. }
  split.
  { intros a [->|[->|[]%elem_of_nil]%elem_of_cons]%elem_of_cons; rewrite Hh;
      (split; [done|]); rewrite !dom_insert, !trainable_in_insert.
    - split; [set_solver|]. rewrite decide_False by done. by rewrite decide_True.
    - split; [set_solver|]. by rewrite decide_True. }
  split; [|done].
  intros a Ha. rewrite Hh.
  rewrite !lookup_insert_ne; [done| |]; intros ->; apply Ha; set_solver.
Qed.

Lemma new_MNISTNet_spec n s :
  wp (new_MNISTNet n) s
     (λ m s',
        NoDup (parameters m) ∧
        (∀ a, a ∈ parameters m →
              (a ∉ dom (heap s)) ∧ a ∈ dom (heap s') ∧ trainable_in (heap s') a = true) ∧
        (∀ a, a ∉ parameters m → heap s' !! a = heap s !! a) ∧
        handlers s' = handlers s ∧ trace s' = trace s)
     (λ _ _, False).
Proof.
  unfold new_MNISTNet.
  eapply wp_seq; [apply new_layer_fresh| |done].
  intros c1 s1 (N1 & F1 & O1 & L1 & T1).
  eapply wp_seq; [apply new_layer_fresh| |done].
  intros c2 s2 (N2 & F2 & O2 & L2 & T2).
  eapply wp_seq; [apply new_layer_fresh| |done].
  intros f1 s3 (N3 & F3 & O3 & L3 & T3). apply wp_ret.
  unfold parameters. cbn [conv1 conv2 fc1].
  assert (∀ a, a ∈ layer_parameters c1 → a ∉ layer_parameters c2) as D12.
  { intros a H1 H2. destruct (F1 a H1) as (_ & Hd & _). destruct (F2 a H2) as (Hn & _). done. }
  assert (∀ a, a ∈ layer_parameters c2 → a ∉ layer_parameters f1) as D23.
  { intros a H2 H3. destruct (F2 a H2) as (_ & Hd & _). destruct (F3 a H3) as (Hn & _). done. }
  assert (∀ a, a ∈ layer_parameters c1 → a ∉ layer_parameters f1) as D13.
  { intros a H1 H3. destruct (F1 a H1) as (_ & Hd & _). destruct (F3 a H3) as (Hn & _).
    apply Hn. apply elem_of_dom. rewrite O2 by by apply D12. by apply elem_of_dom. }
  split.
  { apply NoDup_app. split; [done|]. split.
    - intros a H1 [H2|H3]%elem_of_app; [by eapply D12|by eapply D13].
    - apply NoDup_app. split; [done|]. split; [|done]. intros a H2 H3. by eapply D23. }
  split.
  { intros a [H1|[H2|H3]%elem_of_app]%elem_of_app.
    - destruct (F1 a H1) as (Hn & Hd & Ht). split; [done|].
      assert (heap s3 !! a = heap s1 !! a) as E.
      { rewrite O3 by by apply D13. rewrite O2 by by apply D12. done. }
      split; [apply elem_of_dom; rewrite E; by apply elem_of_dom|].
      unfold trainable_in in *. by rewrite E.
    - destruct (F2 a H2) as (Hn & Hd & Ht).
      assert (a ∉ layer_parameters c1) as Hn1 by (intros H1; by eapply D12).
      split. { intros Hd0. apply Hn. apply elem_of_dom. rewrite O1 by done. by apply elem_of_dom. }
      assert (heap s3 !! a = heap s2 !! a) as E.
      { apply O3. by apply D23. }
      split; [apply elem_of_dom; rewrite E; by apply elem_of_dom|].
      unfold trainable_in in *. by rewrite E.
    - destruct (F3 a H3) as (Hn & Hd & Ht).
      assert (a ∉ layer_parameters c2) as Hn2 by (intros H2; by eapply D23).
      assert (a ∉ layer_parameters c1) as Hn1 by (intros H1; by eapply D13).
      split; [|done]. intros Hd0. apply Hn. apply elem_of_dom.
      rewrite O2, O1 by done. by apply elem_of_dom. }
  split; [|split; congruence].
  intros a Ha. rewrite !elem_of_app in Ha.
  rewrite O3, O2, O1 by tauto. done.
Qed.

Lemma setup_logger_spec ty n s :
  wp (setup_logger ty n) s
     (λ lg s',
        lg = ty ∧ heap s' = heap s ∧ rng s' = rng s ∧
        handlers s' = <[ty := default [] (handlers s !! ty) ++ [log_file ty n]]> (handlers s) ∧
        trace s' = trace s ++ [FileOpen (log_file ty n)])
     (λ _ _, False).
Proof. unfold wp, setup_logger, mbind, M_bind, emit, modify. simpl. done. Qed.

(** ** Freezing the convolution stages (lines 186-198) *)

Lemma freeze_eq l s :
  freeze l s =
  Done () (State (alter (λ p, Param (data p) false (grad p)) (bias l)
                    (alter (λ p, Param (data p) false (grad p)) (weight l) (heap s)))
                 (rng s) (handlers s) (trace s)).
Proof. reflexivity. Qed.

Lemma lookup_freeze (h : gmap nat param) w b a :
  alter (λ p, Param (data p) false (grad p)) b
    (alter (λ p, Param (data p) false (grad p)) w h) !! a =
  if decide (a ∈ [w; b]) then (λ p, Param (data p) false (grad p)) <$> h !! a else h !! a.
Proof.
  destruct (decide (b = a)) as [->|Hb], (decide (w = a)) as [->|Hw].
  - rewrite !lookup_alter_eq, decide_True by set_solver. by destruct (h !! a).
  - rewrite lookup_alter_eq, lookup_alter_ne, decide_True by set_solver. done.
  - rewrite lookup_alter_ne, lookup_alter_eq, decide_True by set_solver. done.
  - rewrite !lookup_alter_ne by done. rewrite decide_False; [done|].
    rewrite !elem_of_cons, elem_of_nil. intros [?|[?|[]]]; congruence.
Qed.

Lemma freeze_spec l s :
  wp (freeze l) s
     (λ _ s',
        rng s' = rng s ∧ handlers s' = handlers s ∧ trace s' = trace s ∧
        (∀ a, is_Some (heap s' !! a) ↔ is_Some (heap s !! a)) ∧
        (∀ a, data <$> heap s' !! a = data <$> heap s !! a) ∧
        (∀ a, a ∈ layer_parameters l → trainable_in (heap s') a = false) ∧
        (∀ a, a ∉ layer_parameters l → heap s' !! a = heap s !! a))
     (λ _ _, False).
Proof.
  unfold wp. rewrite freeze_eq. simpl. unfold layer_parameters.
  split; [done|]. split; [done|]. split; [done|]. split; [|split; [|split]].
  - intros a. rewrite lookup_freeze. destruct (decide _); [|done]. by rewrite fmap_is_Some.
  - intros a. rewrite lookup_freeze. destruct (decide _); [|done]. by destruct (heap s !! a).
  - intros a Ha. unfold trainable_in. rewrite lookup_freeze, decide_True by done.
    by destruct (heap s !! a).
  - intros a Ha. by rewrite lookup_freeze, decide_False.
Qed.

Lemma trainable_in_same h h' a : h' !! a = h !! a → trainable_in h' a = trainable_in h a.
Proof. unfold trainable_in. by intros ->. Qed.

Lemma freeze_and_replace_spec m s :
  (∀ a, a ∈ layer_parameters (conv1 m) ++ layer_parameters (conv2 m) → is_Some (heap s !! a)) →
  wp (freeze_and_replace m) s
     (λ m' s',
        conv1 m' = conv1 m ∧ conv2 m' = conv2 m ∧
        handlers s' = handlers s ∧ trace s' = trace s ∧
        NoDup (layer_parameters (fc1 m')) ∧
        (∀ a, a ∈ layer_parameters (fc1 m') →
              (a ∉ layer_parameters (conv1 m) ++ layer_parameters (conv2 m)) ∧
              (a ∉ dom (heap s)) ∧ trainable_in (heap s') a = true) ∧
        (∀ a, a ∈ layer_parameters (conv1 m) ++ layer_parameters (conv2 m) →
              trainable_in (heap s') a = false ∧
              data <$> heap s' !! a = data <$> heap s !! a))
     (λ _ _, False).
Proof.
  intros Halloc. unfold freeze_and_replace.
  eapply wp_seq; [apply freeze_spec| |done].
  intros [] s1 (_ & L1 & T1 & S1 & D1 & F1 & O1).
  eapply wp_seq; [apply freeze_spec| |done].
  intros [] s2 (_ & L2 & T2 & S2 & D2 & F2 & O2).
  eapply wp_seq; [apply new_layer_fresh| |done].
  intros f1 s3 (N3 & F3 & O3 & L3 & T3). apply wp_ret. cbn [conv1 conv2 fc1].
  split; [done|]. split; [done|]. split; [congruence|]. split; [congruence|].
  split; [done|].
  assert (∀ a, a ∈ layer_parameters f1 →
               a ∉ layer_parameters (conv1 m) ++ layer_parameters (conv2 m)) as Hdisj.
  { intros a Ha Hc. destruct (F3 a Ha) as (Hn & _). apply Hn.
    apply elem_of_dom, S2, S1, Halloc, Hc. }
  split.
  { intros a Ha. split; [by apply Hdisj|]. destruct (F3 a Ha) as (Hn & _ & Ht).
    split; [|done]. intros Hd. apply Hn. by apply elem_of_dom, S2, S1, elem_of_dom. }
  intros a Ha.
  assert (a ∉ layer_parameters f1) as Hnf by (intros Hf; by apply (Hdisj a Hf)).
  split.
  - rewrite (trainable_in_same _ _ _ (O3 a Hnf)).
    destruct (decide (a ∈ layer_parameters (conv2 m))) as [H2|H2]; [by apply F2|].
    rewrite (trainable_in_same _ _ _ (O2 a H2)). apply F1.
    apply elem_of_app in Ha as [?|?]; done.
  - by rewrite (O3 a Hnf), D2, D1.
Qed.




End Driver.


(** ** Projections of the traces *)

Section Traces.

Context {image : Type} `{TL : TensorLib image}.

Lemma omap_join_imap {A B C} (φ : B → option C) (f : nat → A → list B)
    (g : nat → A → list C) (zs : list A) :
  (∀ e z, omap φ (f e z) = g e z) →
  omap φ (mjoin (imap f zs)) = mjoin (imap g zs).
Proof.
  revert f g. induction zs as [|z zs IH]; intros f g Hfg; [done|].
  rewrite !imap_cons. change (mjoin (?x :: ?l)) with (x ++ mjoin l).
  rewrite omap_app, Hfg. f_equal. apply IH. intros. apply Hfg.
Qed.

Lemma join_imap_nil {A C} (zs : list A) : mjoin (imap (λ _ _, @nil C) zs) = [].
Proof. induction zs as [|z zs IH]; [done|]. rewrite imap_cons. simpl. apply IH. Qed.

Lemma join_imap_singleton {A C} (g : nat → A → C) (zs : list A) :
  mjoin (imap (λ e z, [g e z]) zs) = imap g zs.
Proof.
  revert g. induction zs as [|z zs IH]; intros g; [done|].
  rewrite !imap_cons. simpl. f_equal. apply IH.
Qed.

Lemma saved_paths_app T1 T2 : saved_paths (T1 ++ T2) = saved_paths T1 ++ saved_paths T2.
Proof. apply omap_app. Qed.

Lemma file_lines_app f T1 T2 : file_lines f (T1 ++ T2) = file_lines f T1 ++ file_lines f T2.
Proof. apply omap_app. Qed.

Lemma saved_paths_info hs msg : saved_paths (info_events hs msg) = [].
Proof. unfold info_events. induction hs; simpl; done. Qed.

Lemma file_lines_write f h msg T :
  file_lines f (FileWrite h msg :: T) =
  (if decide (h = f) then [msg] else []) ++ file_lines f T.
Proof. unfold file_lines. simpl. by destruct (decide (h = f)). Qed.

Lemma file_lines_info f hs msg :
  NoDup hs →
  file_lines f (info_events hs msg) = if decide (f ∈ hs) then [msg] else [].
Proof.
  unfold info_events. induction 1 as [|h hs Hh Hnd IH].
  - by rewrite decide_False by apply not_elem_of_nil.
  - rewrite fmap_cons, file_lines_write, IH. destruct (decide (h = f)) as [->|Hne].
    + rewrite (decide_True (P := f ∈ f :: hs)) by apply list_elem_of_here.
      by rewrite (decide_False (P := f ∈ hs)).
    + destruct (decide (f ∈ hs)).
      * rewrite decide_True; [done|]. by apply list_elem_of_further.
      * rewrite decide_False; [done|]. rewrite elem_of_cons. intros [?|?]; congruence.
Qed.

Lemma saved_paths_training hs ty E ls accs :
  saved_paths (training_events hs ty E ls accs) = [].
Proof.
  unfold training_events, saved_paths.
  erewrite (omap_join_imap _ _ (λ _ _, [])); [apply join_imap_nil|].
  intros e z. unfold epoch_events. rewrite omap_app.
  fold (saved_paths (info_events hs (epoch_message ty e E z.1 z.2))).
  by rewrite saved_paths_info.
Qed.

Lemma file_lines_training f hs ty E ls accs :
  NoDup hs →
  file_lines f (training_events hs ty E ls accs) =
  if decide (f ∈ hs) then epoch_lines ty E ls accs else [].
Proof.
  intros Hnd. unfold training_events, epoch_lines. destruct (decide (f ∈ hs)) as [Hf|Hf].
  - unfold file_lines.
    erewrite (omap_join_imap _ _ (λ e z, [epoch_message ty e E z.1 z.2]));
      [apply join_imap_singleton|].
    intros e z. unfold epoch_events. rewrite omap_app.
    fold (file_lines f (info_events hs (epoch_message ty e E z.1 z.2))).
    rewrite file_lines_info by done. by rewrite decide_True.
  - unfold file_lines.
    erewrite (omap_join_imap _ _ (λ _ _, [])); [apply join_imap_nil|].
    intros e z. unfold epoch_events. rewrite omap_app.
    fold (file_lines f (info_events hs (epoch_message ty e E z.1 z.2))).
    rewrite file_lines_info by done. by rewrite decide_False.
Qed.

Lemma saved_paths_branch hs mt run E pre fin :
  saved_paths (branch_events hs mt run E pre fin) = [].
Proof.
  unfold branch_events. repeat case_decide;
    rewrite ?saved_paths_app, ?saved_paths_info, ?saved_paths_training; done.
Qed.

Lemma file_lines_branch f hs mt run E pre fin :
  NoDup hs →
  file_lines f (branch_events hs mt run E pre fin) =
  if decide (f ∈ hs) then branch_lines mt run E pre fin else [].
Proof.
  intros Hnd. unfold branch_events, branch_lines.
  destruct (decide (mt = "non_transfer")); [|destruct (decide (mt = "transfer"))];
    rewrite ?file_lines_app, ?file_lines_info, ?file_lines_training by done;
    destruct (decide (f ∈ hs)); done.
Qed.

Lemma saved_paths_run hs mt run n E pre fin accv :
  saved_paths (run_events hs mt run n E pre fin accv) = [performance_png mt run].
Proof.
  unfold run_events.
  rewrite !saved_paths_app, !saved_paths_info, saved_paths_branch. done.
Qed.

Lemma file_lines_run f hs mt run n E pre fin accv :
  NoDup hs →
  file_lines f (run_events hs mt run n E pre fin accv) =
  if decide (f ∈ hs) then run_lines mt run n E pre fin accv else [].
Proof.
  intros Hnd. unfold run_events, run_lines.
  rewrite !file_lines_app, !file_lines_info, file_lines_branch by done.
  destruct (decide (f ∈ hs)); done.
Qed.

End Traces.

(** ** One run of the experiment *)

Section Runs.

Context {image : Type} `{TL : TensorLib image}.
Implicit Types (d : @dataset image) (dl : @DataLoader image) (m : MNISTNet).

Lemma getitem_raise_kind d i e :
  getitem d i = Raise e → e = IndexError ∨ ∃ k, e = KeyError k.
Proof.
  revert i. induction d as [items|d IH indices|d IH label_map]; intros i; simpl.
  - destruct (items !! i); [done|]. intros [= <-]. by left.
  - destruct (indices !! i) as [j|]; [apply IH|]. intros [= <-]. by left.
  - destruct (getitem d i) as [[img lbl]|e'] eqn:Eg; simpl.
    + destruct (label_map !! lbl); [done|]. intros [= <-]. right. eauto.
    + intros [= <-]. by eapply IH.
Qed.

Lemma loader_failure_library dl e : loader_failure dl e → library_error e.
Proof.
  intros [[-> _]|(i & _ & Hg)]; [done|].
  apply getitem_raise_kind in Hg as [->|[k ->]]; done.
Qed.

Lemma train_failure_library m dl h e : train_failure m dl h e → library_error e.
Proof. intros [H|[-> _]]; [by eapply loader_failure_library|done]. Qed.

Lemma freeze_and_replace_quiet m s :
  wp (freeze_and_replace m) s
     (λ _ s', handlers s' = handlers s ∧ trace s' = trace s)
     (λ _ _, False).
Proof.
  unfold freeze_and_replace.
  eapply wp_seq; [apply freeze_spec| |done].
  intros [] s1 (_ & L1 & T1 & _).
  eapply wp_seq; [apply freeze_spec| |done].
  intros [] s2 (_ & L2 & T2 & _).
  eapply wp_seq; [apply new_layer_fresh| |done].
  intros f1 s3 (_ & _ & _ & L3 & T3). apply wp_ret. split; congruence.
Qed.

(** What the driver needs to know of a training phase. *)
Lemma train_model_phase m dl crit opt E ty lg s :
  wp (train_model m dl crit opt E ty (Some lg)) s
     (λ r s',
        train_model m dl crit opt E ty (Some lg) s = Done r s' ∧
        length r.1 = E ∧ length r.2 = E ∧
        Forall (is_epoch_loss dl crit) r.1 ∧ Forall (is_accuracy dl) r.2 ∧
        handlers s' = handlers s ∧
        trace s' = trace s ++ training_events (default [] (handlers s !! lg)) ty E r.1 r.2)
     (λ e s',
        handlers s' = handlers s ∧ library_error e ∧
        ∃ T, trace s' = trace s ++ T ∧ saved_paths T = []).
Proof.
  eapply wp_mono; [apply wp_and; [apply wp_outcome|apply train_model_spec]| |].
  - intros r s' (Heq & Hl & Ha & Hfl & Hfa & _ & HL & HT & _). done.
  - intros e s' (_ & HL & (ls & accs & _ & _ & HT) & _ & Hf).
    split; [done|]. split; [by eapply train_failure_library|].
    eexists. split; [exact HT|]. apply saved_paths_training.
Qed.

Lemma fine_tune_phase m dl crit E lg s :
  wp (fine_tune m dl crit E lg) s
     (λ r s',
        fine_tune m dl crit E lg s = Done r s' ∧
        length r.1 = E ∧ length r.2 = E ∧
        Forall (is_epoch_loss dl crit) r.1 ∧ Forall (is_accuracy dl) r.2 ∧
        handlers s' = handlers s ∧
        trace s' = trace s ++ training_events (default [] (handlers s !! lg)) "Transfer" E r.1 r.2)
     (λ e s',
        handlers s' = handlers s ∧ library_error e ∧
        ∃ T, trace s' = trace s ++ T ∧ saved_paths T = []).
Proof.
  assert (fine_tune m dl crit E lg s =
          train_model m dl crit
            (Adam (filter (λ a, trainable_in (heap s) a = true) (parameters m)))
            E "Transfer" (Some lg) s) as Heq by reflexivity.
  unfold wp. rewrite Heq. apply train_model_phase.
Qed.

Lemma train_branch_spec mt big small E run lg model acc s :
  wp (train_branch mt big small E run lg model acc) s
    (λ r s', ∃ pre fin,
        handlers s' = handlers s ∧
        trace s' = trace s ++
                   branch_events (default [] (handlers s !! lg)) mt run E pre fin ∧
        (valid_model_type mt →
           r.1.2 = Some fin.1 ∧ r.2 = Some fin.2 ∧ length fin.1 = E ∧ length fin.2 = E ∧
           Forall (is_epoch_loss small cross_entropy) fin.1 ∧
           Forall (is_accuracy small) fin.2) ∧
        (¬ valid_model_type mt → r = (model, losses acc, accuracies acc)) ∧
        (mt = "transfer" → ∃ s0 s_a s_b,
            appends (info_events (default [] (handlers s !! lg)) (start_message_tr run)
                     ++ [Print (start_message_tr run)]) s s0 ∧
            train_model model big cross_entropy (Adam (parameters model)) E
              "Transfer" (Some lg) s0 = Done pre s_a ∧
            freeze_and_replace model s_a = Done r.1.1 s_b ∧
            fine_tune r.1.1 small cross_entropy E lg s_b = Done fin s'))
    (λ e s',
        handlers s' = handlers s ∧ library_error e ∧
        ∃ T, trace s' = trace s ++ T ∧ saved_paths T = []).
Proof.
  set (hs := default [] (handlers s !! lg)).
  unfold train_branch, branch_events.
  destruct (decide (mt = "non_transfer")) as [Hnt|Hnt].
  { eapply wp_seq; [apply print_spec| |done].
    intros [] s1 (H1 & R1 & L1 & T1).
    eapply wp_seq; [apply logger_info_spec| |done].
    intros [] s2 (H2 & R2 & L2 & T2).
    eapply wp_seq; [apply train_model_phase| |].
    - intros [l a] s3 (_ & Hl & Ha & Hfl & Hfa & L3 & T3). apply wp_ret. simpl in *.
      exists ([], []), (l, a). simpl. split; [congruence|]. split.
      { rewrite T3, T2, T1, L2, L1. fold (start_message_nt run). fold hs.
        by rewrite <- !app_assoc. }
      split; [done|]. split; [intros []; by left|]. intros ->. done.
    - intros e s3 (L3 & He & T & HT & Hs). split; [congruence|]. split; [done|].
      eexists. split.
      { rewrite HT, T2, T1, <- !app_assoc. done. }
      rewrite !saved_paths_app, saved_paths_info, Hs. done. }
  destruct (decide (mt = "transfer")) as [Htr|Htr].
  { eapply wp_seq; [apply wp_and; [apply wp_outcome|apply logger_info_spec]| |by intros ? ? [_ []]].
    intros [] s1 (E1 & (H1 & R1 & L1 & T1)).
    eapply wp_seq; [apply wp_and; [apply wp_outcome|apply print_spec]| |by intros ? ? [_ []]].
    intros [] s2 (E2 & (H2 & R2 & L2 & T2)).
    eapply wp_seq; [apply train_model_phase| |].
    - intros [l1 a1] s3 (E3 & _ & _ & _ & _ & L3 & T3).
      eapply wp_seq; [apply wp_and; [apply wp_outcome|apply freeze_and_replace_quiet]|
                      |by intros ? ? [_ []]].
      intros m' s4 (E4 & L4 & T4).
      eapply wp_seq; [apply fine_tune_phase| |].
      + intros [l a] s5 (E5 & Hl & Ha & Hfl & Hfa & L5 & T5). apply wp_ret. simpl in *.
        exists (l1, a1), (l, a). simpl. split; [congruence|]. split.
        { rewrite T5, T4, T3, T2, T1, L4, L3, L2, L1.
          fold (start_message_tr run). fold hs. by rewrite <- !app_assoc. }
        split; [done|]. split; [intros []; by right|]. intros _.
        exists s2, s3, s4. split; [|done].
        fold (start_message_tr run) in T1, T2. fold hs in T1.
        unfold appends. rewrite H2, H1, R2, R1, L2, L1, T2, T1, <- app_assoc. done.
      + intros e s5 (L5 & He & T & HT & Hs). split; [congruence|]. split; [done|].
        eexists. split.
        { rewrite HT, T4, T3, T2, T1, <- !app_assoc. done. }
        rewrite !saved_paths_app, saved_paths_info, saved_paths_training, Hs. done.
    - intros e s3 (L3 & He & T & HT & Hs). split; [congruence|]. split; [done|].
      eexists. split.
      { rewrite HT, T2, T1, <- !app_assoc. done. }
      rewrite !saved_paths_app, saved_paths_info, Hs. done. }
  apply wp_ret. exists ([], []), ([], []). rewrite app_nil_r.
  split; [done|]. split; [done|]. split; [intros [?|?]; done|]. split; [done|]. done.
Qed.

Lemma read_local_spec {A} name (v : option A) s :
  wp (read_local name v) s
     (λ x s', s' = s ∧ v = Some x)
     (λ e s', s' = s ∧ e = UnboundLocalError name ∧ v = None).
Proof. destruct v; simpl; [by apply wp_ret|by apply wp_raise]. Qed.

Lemma run_once_spec n mt big small test E run acc s :
  wp (run_once n mt big small test E run acc) s
    (λ acc' s', ∃ pre fin accv,
        handlers s' =
          <[mt := default [] (handlers s !! mt) ++ [log_file mt (run + 1)]]> (handlers s) ∧
        trace s' = trace s ++
          run_events (default [] (handlers s !! mt) ++ [log_file mt (run + 1)])
            mt run n E pre fin accv ∧
        acc' = RunAcc (all_accuracies acc ++ [accv]) (all_losses acc ++ [fin.1])
                 (Some fin.1) (Some fin.2) ∧
        is_accuracy test accv ∧ (0 < ds_len (dl_dataset test))%nat ∧
        (valid_model_type mt →
           length fin.1 = E ∧ length fin.2 = E ∧
           Forall (is_epoch_loss small cross_entropy) fin.1 ∧
           Forall (is_accuracy small) fin.2) ∧
        (¬ valid_model_type mt → losses acc = Some fin.1 ∧ accuracies acc = Some fin.2) ∧
        (mt = "transfer" → ∃ model s0 s_a m' s_b s_c,
            train_model model big cross_entropy (Adam (parameters model)) E
              "Transfer" (Some mt) s0 = Done pre s_a ∧
            freeze_and_replace model s_a = Done m' s_b ∧
            fine_tune m' small cross_entropy E mt s_b = Done fin s_c ∧
            test_model m' test s_c = Done accv (after_pass test s_c)))
    (λ e s',
        handlers s' =
          <[mt := default [] (handlers s !! mt) ++ [log_file mt (run + 1)]]> (handlers s) ∧
        (∃ T, trace s' = trace s ++ T ∧ saved_paths T = []) ∧
        (library_error e ∨
         (¬ valid_model_type mt ∧
          ((e = UnboundLocalError "losses" ∧ losses acc = None) ∨
           (e = UnboundLocalError "accuracies" ∧ accuracies acc = None ∧
            is_Some (losses acc)))))).
Proof.
  set (hs := default [] (handlers s !! mt) ++ [log_file mt (run + 1)]).
  unfold run_once.
  eapply wp_seq; [apply setup_logger_spec| |done].
  intros lg s1 (-> & H1 & R1 & L1 & T1). fold hs in L1.
  assert (∀ s', handlers s' = handlers s1 → default [] (handlers s' !! mt) = hs) as Hhs.
  { intros s' ->. rewrite L1, lookup_insert_eq. done. }
  eapply wp_seq; [apply logger_info_spec| |done].
  intros [] s2 (H2 & R2 & L2 & T2). rewrite (Hhs s1 eq_refl) in T2.
  eapply wp_seq; [apply print_spec| |done].
  intros [] s3 (H3 & R3 & L3 & T3).
  eapply wp_seq; [apply new_MNISTNet_spec| |done].
  intros model s4 (_ & _ & _ & L4 & T4).
  assert (handlers s4 = handlers s1) as L41 by congruence.
  assert (trace s4 = trace s ++ [FileOpen (log_file mt (run + 1))]
                     ++ info_events hs (run_message run n) ++ [Print (run_message run n)]) as T41.
  { rewrite T4, T3, T2, T1, <- !app_assoc. done. }
  eapply wp_seq; [apply train_branch_spec| |].
  2:{ intros e s5 (L5 & He & T & HT & Hs). split; [congruence|]. split; [|by left].
      eexists. split; [rewrite HT, T41, <- !app_assoc; done|].
      rewrite !saved_paths_app, saved_paths_info, Hs. done. }
  intros [[m' l] a] s5 (pre & fin & L5 & T5 & Hv & Hnv & Htr). simpl in Hv, Hnv, Htr.
  rewrite (Hhs s4 L41) in T5.
  assert (handlers s5 = handlers s1) as L51 by congruence.
  eapply wp_seq; [apply wp_and; [apply wp_outcome|apply test_model_spec]| |].
  2:{ intros e s6 (_ & -> & Hf). simpl. split; [congruence|]. split.
      - eexists. split; [rewrite T5, T41, <- !app_assoc; done|].
        rewrite !saved_paths_app, saved_paths_info, saved_paths_branch. done.
      - left. destruct Hf as [[-> _]|(i & _ & Hg)]; [done|].
        apply getitem_raise_kind in Hg as [->|[k ->]]; done. }
  intros accv s6 (Etest & -> & Hacc & Hn & _).
  eapply wp_seq; [apply print_spec| |done].
  intros [] s7 (H7 & R7 & L7 & T7). simpl in L7, T7.
  eapply wp_seq; [apply logger_info_spec| |done].
  intros [] s8 (H8 & R8 & L8 & T8).
  rewrite (Hhs s7 ltac:(congruence)) in T8.
  assert (trace s8 = trace s ++ [FileOpen (log_file mt (run + 1))]
                     ++ info_events hs (run_message run n) ++ [Print (run_message run n)]
                     ++ branch_events hs mt run E pre fin
                     ++ [Print (test_message mt accv)]
                     ++ info_events hs (test_message mt accv)) as T81.
  { rewrite T8, T7, T5, T41, <- !app_assoc. done. }
  assert (saved_paths ([FileOpen (log_file mt (run + 1))]
                     ++ info_events hs (run_message run n) ++ [Print (run_message run n)]
                     ++ branch_events hs mt run E pre fin
                     ++ [Print (test_message mt accv)]
                     ++ info_events hs (test_message mt accv)) = []) as Hsv.
  { rewrite !saved_paths_app, !saved_paths_info, saved_paths_branch. done. }
  assert (valid_model_type mt ∨ ¬ valid_model_type mt) as [Hval|Hval].
  { unfold valid_model_type.
    destruct (decide (mt = "non_transfer")), (decide (mt = "transfer")); tauto. }
  - destruct (Hv Hval) as (-> & -> & Hl & Ha & Hfl & Hfa).
    eapply wp_seq; [apply read_local_spec| |by intros ? ? (_ & _ & ?)].
    intros ls s9 (-> & [= <-]).
    eapply wp_seq; [apply read_local_spec| |by intros ? ? (_ & _ & ?)].
    intros accs s9 (-> & [= <-]).
    eapply wp_seq; [apply emit_spec| |done].
    intros [] s9 (H9 & R9 & L9 & T9). apply wp_ret.
    exists pre, fin, accv. split; [congruence|]. split.
    { rewrite T9, T81. unfold run_events. rewrite <- !app_assoc. done. }
    split; [done|]. split; [done|]. split; [done|]. split; [done|].
    split; [by intros ?|]. intros Htt. destruct (Htr Htt) as (s0 & s_a & s_b & _ & E1 & E2 & E3).
    exists model, s0, s_a, m', s_b, s5. done.
  - specialize (Hnv Hval). injection Hnv as -> -> ->.
    eapply wp_seq; [apply read_local_spec| |].
    2:{ intros e s9 (-> & -> & Hnone). split; [congruence|]. split; [eauto|].
        right. split; [done|]. by left. }
    intros ls s9 (-> & Hls).
    eapply wp_seq; [apply read_local_spec| |].
    2:{ intros e s9 (-> & -> & Hnone). split; [congruence|]. split; [eauto|].
        right. split; [done|]. right. eauto. }
    intros accs s9 (-> & Haccs).
    eapply wp_seq; [apply emit_spec| |done].
    intros [] s9 (H9 & R9 & L9 & T9). apply wp_ret.
    exists pre, (ls, accs), accv. cbn [fst snd]. split; [congruence|]. split.
    { rewrite T9, T81. unfold run_events, branch_events.
      destruct (decide (mt = "non_transfer")) as [e|_]; [destruct Hval; by left|].
      destruct (decide (mt = "transfer")) as [e|_]; [destruct Hval; by right|].
      rewrite <- !app_assoc. done. }
    split; [done|]. split; [done|]. split; [done|]. split; [by intros ?|].
    split; [done|]. intros ->. destruct Hval. by right.
Qed.

(** ** The run loop *)

Lemma string_length_app (s1 s2 : string) :
  String.length (s1 +:+ s2) = (String.length s1 + String.length s2)%nat.
Proof. induction s1 as [|c s1 IH]; simpl; [done|]. by rewrite IH. Qed.

Lemma string_app_inj_r (a b x : string) : a +:+ x = b +:+ x → a = b.
Proof.
  revert b. induction a as [|c a IH]; intros [|c' b] H; simpl in *.
  - done.
  - apply (f_equal String.length) in H. rewrite !string_length_app in H. simpl in H. lia.
  - apply (f_equal String.length) in H. rewrite !string_length_app in H. simpl in H. lia.
  - injection H as -> H. f_equal. by apply IH.
Qed.

Lemma log_file_inj ty : Inj (=) (=) (log_file ty).
Proof.
  intros j k H. unfold log_file in H.
  do 3 apply (inj (String.append _)) in H.
  apply string_app_inj_r in H. by apply (inj pretty) in H.
Qed.

Lemma log_files_S ty k : log_files ty (S k) = log_files ty k ++ [log_file ty (k + 1)].
Proof.
  unfold log_files. rewrite seq_S, fmap_app. simpl. by rewrite Nat.add_comm.
Qed.

Lemma elem_of_log_files ty k j :
  log_file ty j ∈ log_files ty k ↔ (1 ≤ j ≤ k)%nat.
Proof.
  unfold log_files. rewrite list_elem_of_fmap. split.
  - intros (i & Hi%log_file_inj & Hin). subst. apply elem_of_seq in Hin. lia.
  - intros H. exists j. split; [done|]. apply elem_of_seq. lia.
Qed.

Lemma NoDup_log_files ty k : NoDup (log_files ty k).
Proof. unfold log_files. apply NoDup_fmap_2; [apply log_file_inj|apply NoDup_seq]. Qed.

Lemma experiment_events_snoc hs0 mt n E rs x :
  experiment_events hs0 mt n E (rs ++ [x]) =
  experiment_events hs0 mt n E rs ++
  run_events (hs0 ++ log_files mt (length rs + 1)) mt (length rs) n E
    (rr_pre x) (rr_fin x) (rr_accuracy x).
Proof.
  unfold experiment_events. rewrite imap_app, join_app. simpl.
  by rewrite Nat.add_0_r, app_nil_r.
Qed.

Lemma saved_paths_experiment hs0 mt n E rs :
  saved_paths (experiment_events hs0 mt n E rs) = performance_png mt <$> seq 0 (length rs).
Proof.
  unfold experiment_events, saved_paths.
  erewrite (omap_join_imap _ _ (λ r _, [performance_png mt r])).
  - rewrite join_imap_singleton. apply imap_seq_0.
  - intros r x. apply saved_paths_run.
Qed.

Lemma run_experiment_spec n mt big small test E s :
  wp (run_experiment n mt big small test E) s
    (λ r s', ∃ rs,
        length rs = n ∧
        r = (rr_accuracy <$> rs, (λ x, (rr_fin x).1) <$> rs) ∧
        trace s' = trace s ++ experiment_events (default [] (handlers s !! mt)) mt n E rs ∧
        default [] (handlers s' !! mt) = default [] (handlers s !! mt) ++ log_files mt n ∧
        (∀ k, k ≠ mt → handlers s' !! k = handlers s !! k) ∧
        ((0 < n)%nat → valid_model_type mt ∧ (0 < ds_len (dl_dataset test))%nat) ∧
        Forall (run_ok small test E) rs ∧
        (mt = "transfer" → Forall (transfer_flow big small test E) rs))
    (λ e s',
        (∃ T k, (k < n)%nat ∧ trace s' = trace s ++ T ∧
                saved_paths T = performance_png mt <$> seq 0 k) ∧
        (∀ k, k ≠ mt → handlers s' !! k = handlers s !! k) ∧
        (library_error e ∨ (¬ valid_model_type mt ∧ e = UnboundLocalError "losses"))).
Proof.
  set (hs0 := default [] (handlers s !! mt)).
  unfold run_experiment.
  set (I := λ (done : list nat) (acc : run_acc) (s' : state), ∃ rs,
        length rs = length done ∧
        all_accuracies acc = rr_accuracy <$> rs ∧
        all_losses acc = (λ x, (rr_fin x).1) <$> rs ∧
        trace s' = trace s ++ experiment_events hs0 mt n E rs ∧
        default [] (handlers s' !! mt) = hs0 ++ log_files mt (length done) ∧
        (∀ k, k ≠ mt → handlers s' !! k = handlers s !! k) ∧
        (done ≠ [] → valid_model_type mt ∧ (0 < ds_len (dl_dataset test))%nat) ∧
        (done = [] → losses acc = None ∧ accuracies acc = None) ∧
        Forall (run_ok small test E) rs ∧
        (mt = "transfer" → Forall (transfer_flow big small test E) rs)).
  set (Ψ := λ (e : exn) (s' : state),
        (∃ T k, (k < n)%nat ∧ trace s' = trace s ++ T ∧
                saved_paths T = performance_png mt <$> seq 0 k) ∧
        (∀ k, k ≠ mt → handlers s' !! k = handlers s !! k) ∧
        (library_error e ∨ (¬ valid_model_type mt ∧ e = UnboundLocalError "losses"))).
  eapply wp_seq; [apply (wp_for_each (seq 0 n) _ _ s I Ψ)| |done].
  - exists []. unfold I, log_files. simpl. rewrite !app_nil_r. done.
  - intros done run rest acc s1 Hseq
      (rs & Hlen & Haccs & Hlss & T1 & L1 & O1 & Hval & Hnone & Hok & Hflow).
    assert (run = length done) as ->.
    { assert (seq 0 n !! length done = Some run) as Hlk
        by (rewrite Hseq; apply list_lookup_middle; done).
      apply lookup_seq in Hlk. lia. }
    assert (length done < n)%nat as Hlt.
    { assert (length (seq 0 n) = n) as HE by apply length_seq.
      rewrite Hseq, length_app in HE. simpl in HE. lia. }
    eapply wp_mono; [apply run_once_spec| |].
    + intros acc' s2 (pre & fin & accv & L2 & T2 & -> & Hacc & Hn & Hv & Hnv & Htr).
      assert (valid_model_type mt) as Hvalid.
      { destruct (decide (mt = "non_transfer")) as [|H1]; [by left|].
        destruct (decide (mt = "transfer")) as [|H2]; [by right|].
        assert (¬ valid_model_type mt) as Hinv by (intros [?|?]; done).
        destruct (Hnv Hinv) as [Hls _].
        destruct done as [|d done']; [|by apply Hval].
        destruct (Hnone eq_refl) as [Hl _]. congruence. }
      destruct (Hv Hvalid) as (Hl1 & Hl2 & Hfl & Hfa).
      exists (rs ++ [RunResult pre fin accv]). simpl.
      split; [rewrite !length_app; simpl; lia|].
      split; [by rewrite fmap_app, Haccs|]. split; [by rewrite fmap_app, Hlss|].
      split.
      { rewrite T2, T1, experiment_events_snoc, L1, Hlen, <- app_assoc.
        simpl. rewrite <- app_assoc, <- log_files_S.
        replace (length done + 1)%nat with (S (length done)) by lia. done. }
      split.
      { rewrite L2, lookup_insert_eq, L1, length_app. simpl.
        replace (length done + 1)%nat with (S (length done)) by lia.
        rewrite log_files_S, <- app_assoc.
        replace (length done + 1)%nat with (S (length done)) by lia. done. }
      split. { intros k Hk. rewrite L2, lookup_insert_ne by done. by apply O1. }
      split; [done|]. split. { intros Hd. by apply app_nil in Hd as [_ Hd]. }
      split. { apply Forall_app. split; [done|]. constructor; [|done]. by split. }
      intros ->. apply Forall_app. split; [by apply Hflow|]. constructor; [|done].
      destruct (Htr eq_refl) as (model & s0 & s_a & m' & s_b & s_c & E1 & E2 & E3 & E4).
      exists model, s0, s_a, m', s_b, s_c. done.
    + intros e s2 (L2 & (T & HT & Hs) & He). split; [|split].
      * exists (experiment_events hs0 mt n E rs ++ T), (length done).
        split; [done|]. split; [by rewrite HT, T1, app_assoc|].
        rewrite saved_paths_app, saved_paths_experiment, Hs, app_nil_r, Hlen. done.
      * intros k Hk. rewrite L2, lookup_insert_ne by done. by apply O1.
      * destruct He as [He|(Hinv & [[-> Hl]|(-> & Ha & Hsome)])]; [by left| |].
        -- right. done.
        -- exfalso. destruct done as [|d done'].
           ++ destruct (Hnone eq_refl) as [Hl _]. rewrite Hl in Hsome. by destruct Hsome.
           ++ apply Hinv, Hval. done.
  - intros acc s1 (rs & Hlen & Haccs & Hlss & T1 & L1 & O1 & Hval & Hnone & Hok & Hflow).
    apply wp_ret. rewrite length_seq in *. exists rs.
    split; [done|]. split; [by rewrite Haccs, Hlss|]. split; [done|]. split; [done|].
    split; [done|]. split; [|done]. intros Hn. apply Hval. destruct n; [lia|]. done.
Qed.

End Runs.

(** ** The claims on the experiment driver *)

Section DriverClaims.

Context {image : Type} `{TL : TensorLib image}.
Implicit Types (d : @dataset image) (dl big small test : @DataLoader image) (m : MNISTNet).

Lemma join_imap_guard {A B} (g : nat → A → list B) (zs : list A) (k i0 : nat) :
  mjoin (imap (λ r x, if decide (k ≤ i0 + r)%nat then g (i0 + r)%nat x else []) zs) =
  mjoin (drop (k - i0) (imap (λ r, g (i0 + r)%nat) zs)).
Proof.
  revert i0. induction zs as [|z zs IH]; intros i0.
  - by destruct (k - i0)%nat.
  - rewrite !imap_cons. change (mjoin (?x :: ?l)) with (x ++ mjoin l).
    rewrite (imap_ext _ (λ r x, if decide (k ≤ S i0 + r)%nat then g (S i0 + r)%nat x else []));
      [|intros i x _; simpl; by replace (i0 + S i)%nat with (S (i0 + i)) by lia].
    rewrite IH.
    rewrite (imap_ext ((λ r, g (i0 + r)%nat) ∘ S) (λ r, g (S i0 + r)%nat));
      [|intros i x _; simpl; by replace (i0 + S i)%nat with (S (i0 + i)) by lia].
    destruct (decide (k ≤ i0 + 0)%nat) as [Hk|Hk].
    + replace (k - i0)%nat with 0%nat by lia. replace (k - S i0)%nat with 0%nat by lia. done.
    + replace (k - i0)%nat with (S (k - S i0)) by lia. done.
Qed.

Lemma file_lines_experiment mt n E rs j :
  (1 ≤ j)%nat →
  file_lines (log_file mt j) (experiment_events [] mt n E rs) =
  mjoin (drop (j - 1) (experiment_lines mt n E rs)).
Proof.
  intros Hj. unfold experiment_events, experiment_lines, file_lines.
  erewrite (omap_join_imap _ _
    (λ r x, if decide (j - 1 ≤ 0 + r)%nat
            then run_lines mt (0 + r) n E (rr_pre x) (rr_fin x) (rr_accuracy x) else [])).
  - rewrite (join_imap_guard
      (λ r x, run_lines mt r n E (rr_pre x) (rr_fin x) (rr_accuracy x)) rs (j - 1) 0).
    by rewrite Nat.sub_0_r.
  - intros r x. change (omap _ ?l) with (file_lines (log_file mt j) l).
    rewrite app_nil_l, file_lines_run by apply NoDup_log_files. cbn [Nat.add].
    destruct (decide (log_file mt j ∈ log_files mt (r + 1))) as [Hin|Hin];
      rewrite elem_of_log_files in Hin.
    + by rewrite decide_True by lia.
    + by rewrite decide_False by lia.
Qed.

(** C8. [setup_logger] adds a handler to the logger of the experiment type
    at every run and removes none. Hence, for a logger that is new when
    the experiment starts, the log file of run [j] receives the messages
    of the runs [j], [j+1], ..., up to the last one: every message logged
    during a run [r > 1] also lands in the files of the runs [1 .. r-1],
    and the file of run 1 holds the messages of every run. ([lines] are
    the messages logged during each run; the first message of run [k+1] is
    its "Run k+1/n" line.) *)
Theorem log_handlers_accumulate n mt big small test E s res s' :
  handlers s !! mt = None →
  run_experiment n mt big small test E s = Done res s' →
  ∃ lines : list (list string),
    length lines = n ∧
    (∀ k, (k < n)%nat → ∃ rest, lines !! k = Some (run_message k n :: rest)) ∧
    default [] (handlers s' !! mt) = log_files mt n ∧
    (∀ j, (1 ≤ j ≤ n)%nat →
       file_lines (log_file mt j) (drop (length (trace s)) (trace s')) =
       mjoin (drop (j - 1) lines)) ∧
    (∀ j r L, (1 ≤ j ≤ r)%nat → lines !! (r - 1)%nat = Some L →
       ∃ before after,
         file_lines (log_file mt j) (drop (length (trace s)) (trace s')) =
         before ++ L ++ after).
Proof.
  intros Hnew Hrun.
  pose proof (wp_done _ _ _ _ _ _ (run_experiment_spec n mt big small test E s) Hrun)
    as (rs & Hlen & _ & HT & HL & _).
  rewrite Hnew in HT, HL. simpl in HT, HL.
  assert (drop (length (trace s)) (trace s') = experiment_events [] mt n E rs) as Hnewtr.
  { rewrite HT. by rewrite drop_app_length. }
  exists (experiment_lines mt n E rs).
  assert (length (experiment_lines mt n E rs) = n) as Hll
    by (unfold experiment_lines; by rewrite length_imap).
  assert (∀ j, (1 ≤ j)%nat →
            file_lines (log_file mt j) (drop (length (trace s)) (trace s')) =
            mjoin (drop (j - 1) (experiment_lines mt n E rs))) as Hfile.
  { intros j Hj. rewrite Hnewtr. by apply file_lines_experiment. }
  split; [done|]. split.
  { intros k Hk. unfold experiment_lines. rewrite list_lookup_imap.
    destruct (rs !! k) as [x|] eqn:Ex.
    - simpl. unfold run_lines. eauto.
    - apply lookup_ge_None in Ex. lia. }
  split; [done|]. split; [intros j [Hj _]; by apply Hfile|].
  intros j r L Hjr HL'. rewrite Hfile by lia.
  assert (experiment_lines mt n E rs =
          take (r - 1) (experiment_lines mt n E rs) ++ L ::
          drop (S (r - 1)) (experiment_lines mt n E rs)) as Hsplit
    by (symmetry; by apply take_drop_middle).
  assert (drop (j - 1) (experiment_lines mt n E rs) =
          drop (j - 1) (take (r - 1) (experiment_lines mt n E rs)) ++ L ::
          drop (S (r - 1)) (experiment_lines mt n E rs)) as Hd.
  { rewrite Hsplit at 1. rewrite drop_app_le; [done|].
    rewrite length_take. apply lookup_lt_Some in HL'. lia. }
  rewrite Hd, join_app. simpl. eauto.
Qed.



(** ** The top level *)

Lemma new_DataLoader_spec d bs shuf s :
  wp (new_DataLoader d bs shuf) s
     (λ dl s', s' = s ∧ dl = {| dl_dataset := d; batch_size := bs; shuffle := shuf |})
     (λ e s', s' = s ∧ e = ValueError).
Proof.
  unfold new_DataLoader. destruct (bs =? 0)%nat; [by apply wp_raise|].
  destruct (shuf && (ds_len d =? 0)%nat); [by apply wp_raise|by apply wp_ret].
Qed.

Lemma rectangular_rows (rows : list (list Q)) E :
  rows ≠ [] → Forall (λ r, length r = E) rows → rectangular rows = true.
Proof.
  intros Hne Hall. destruct rows as [|r rows]; [done|]. unfold rectangular.
  apply forallb_forall. intros r' Hr'. apply list_elem_of_In in Hr'.
  rewrite Forall_forall in Hall. rewrite (Hall r' Hr').
  rewrite (Hall r) by apply list_elem_of_here. apply Nat.eqb_refl.
Qed.

Lemma losses_of_rectangular small test E rs :
  rs ≠ [] → Forall (run_ok small test E) rs → rectangular (losses_of rs) = true.
Proof.
  intros Hne Hok. apply (rectangular_rows _ E).
  - unfold losses_of. by destruct rs.
  - unfold losses_of. apply Forall_fmap. eapply Forall_impl; [exact Hok|].
    intros x (Hl & _). done.
Qed.

Lemma np_save2_spec path rows s :
  rectangular rows = true →
  wp (np_save2 path rows) s (λ _ s', appends [NpSave path (Array2 rows)] s s') (λ _ _, False).
Proof. intros Hr. unfold np_save2. rewrite Hr. apply emit_spec. Qed.

Lemma plot_results_spec accs rows title s :
  rectangular rows = true →
  wp (plot_results accs rows title) s
     (λ _ s', appends [SaveFig (final_png title) [Some <$> accs; row_mean <$> rows]] s s')
     (λ _ _, False).
Proof.
  intros Hr. unfold plot_results, np_mean_axis1. rewrite Hr.
  apply wp_bind, wp_ret. apply emit_spec.
Qed.

Lemma length_performance_pngs mt n : length (performance_pngs mt n) = n.
Proof. unfold performance_pngs. by rewrite length_fmap, length_seq. Qed.

Lemma take_performance_pngs mt n k :
  (k ≤ n)%nat → take k (performance_pngs mt n) = performance_pngs mt k.
Proof.
  intros Hk. unfold performance_pngs. rewrite <- fmap_take, take_seq.
  by rewrite Nat.min_l.
Qed.

Lemma main_spec (full raw : list (image * Z)) s :
  wp (main full raw) s
    (λ _ s', ∃ rs_nt rs_tr,
        length rs_nt = num_runs ∧ length rs_tr = num_runs ∧
        Forall (run_ok (small_train_loader full) (test_loader raw) num_epochs) rs_nt ∧
        Forall (run_ok (small_train_loader full) (test_loader raw) num_epochs) rs_tr ∧
        Forall (transfer_flow (big_train_loader full) (small_train_loader full)
                  (test_loader raw) num_epochs) rs_tr ∧
        trace s' = trace s ++
          main_events (default [] (handlers s !! "non_transfer"))
                      (default [] (handlers s !! "transfer")) rs_nt rs_tr)
    (λ e s', ∃ T k,
        (k < num_runs + num_runs)%nat ∧ trace s' = trace s ++ T ∧
        saved_paths T =
          take k (performance_pngs "non_transfer" num_runs
                  ++ performance_pngs "transfer" num_runs)).
Proof.
  unfold main.
  assert (∀ s' : state, s' = s → ∃ T k,
            (k < num_runs + num_runs)%nat ∧ trace s' = trace s ++ T ∧
            saved_paths T =
              take k (performance_pngs "non_transfer" num_runs
                      ++ performance_pngs "transfer" num_runs)) as Hinit.
  { intros s' ->. exists [], 0%nat. rewrite app_nil_r. unfold num_runs. split; [lia|]. done. }
  eapply wp_seq; [apply new_DataLoader_spec| |by intros e s' [? _]; apply Hinit].
  intros big s1 (-> & ->).
  eapply wp_seq; [apply new_DataLoader_spec| |by intros e s' [? _]; apply Hinit].
  intros small s1 (-> & ->).
  eapply wp_seq; [apply new_DataLoader_spec| |by intros e s' [? _]; apply Hinit].
  intros testl s1 (-> & ->).
  fold (big_train_loader full) (small_train_loader full) (test_loader raw).
  eapply wp_seq; [apply print_spec| |done].
  intros [] s1 (H1 & R1 & L1 & T1).
  eapply wp_seq; [apply run_experiment_spec| |].
  2:{ intros e s2 ((T & k & Hk & HT & Hs) & _).
      exists ([Print "Running Non-Transfer Experiment..."] ++ T), k.
      split; [lia|]. split; [by rewrite HT, T1, app_assoc|].
      rewrite saved_paths_app, Hs. change (saved_paths [Print _]) with (@nil string).
      rewrite app_nil_l. rewrite take_app_le by (rewrite length_performance_pngs; lia).
      symmetry. apply take_performance_pngs. lia. }
  intros [nta ntl] s2 (rs_nt & Hlen1 & [= -> ->] & T2 & L2 & O2 & _ & Hok1 & _).
  eapply wp_seq; [apply print_spec| |done].
  intros [] s3 (H3 & R3 & L3 & T3).
  assert (default [] (handlers s3 !! "transfer") = default [] (handlers s !! "transfer")) as Hhs.
  { rewrite L3, O2 by done. by rewrite L1. }
  assert (trace s3 = trace s ++ [Print "Running Non-Transfer Experiment..."]
            ++ experiment_events (default [] (handlers s !! "non_transfer")) "non_transfer"
                 num_runs num_epochs rs_nt
            ++ [Print "Running Transfer Experiment..."]) as T31.
  { rewrite T3, T2, T1, L1, <- !app_assoc. done. }
  eapply wp_seq; [apply run_experiment_spec| |].
  2:{ intros e s4 ((T & k & Hk & HT & Hs) & _).
      exists ([Print "Running Non-Transfer Experiment..."]
              ++ experiment_events (default [] (handlers s !! "non_transfer")) "non_transfer"
                   num_runs num_epochs rs_nt
              ++ [Print "Running Transfer Experiment..."] ++ T), (num_runs + k)%nat.
      split; [lia|]. split.
      { rewrite HT, T31, <- !app_assoc. reflexivity. }
      rewrite !saved_paths_app, saved_paths_experiment, Hs, Hlen1.
      change (saved_paths [Print _]) with (@nil string). rewrite !app_nil_l.
      fold (performance_pngs "non_transfer" num_runs) (performance_pngs "transfer" k).
      rewrite take_app_add' by (by rewrite length_performance_pngs).
      rewrite take_performance_pngs by lia. reflexivity. }
  intros [ta tl] s4 (rs_tr & Hlen2 & [= -> ->] & T4 & L4 & O4 & _ & Hok2 & Hflow).
  fold (accuracies_of rs_nt) (losses_of rs_nt) (accuracies_of rs_tr) (losses_of rs_tr).
  assert (rs_nt ≠ []) as Hne1 by (intros ->; by unfold num_runs in Hlen1).
  assert (rs_tr ≠ []) as Hne2 by (intros ->; by unfold num_runs in Hlen2).
  pose proof (losses_of_rectangular _ _ _ _ Hne1 Hok1) as Hr1.
  pose proof (losses_of_rectangular _ _ _ _ Hne2 Hok2) as Hr2.
  unfold np_save1.
  eapply wp_seq; [apply emit_spec| |done]. intros [] s5 (_ & _ & _ & T5).
  eapply wp_seq; [by apply np_save2_spec| |done]. intros [] s6 (_ & _ & _ & T6).
  eapply wp_seq; [apply emit_spec| |done]. intros [] s7 (_ & _ & _ & T7).
  eapply wp_seq; [by apply np_save2_spec| |done]. intros [] s8 (_ & _ & _ & T8).
  eapply wp_seq; [by apply plot_results_spec| |done]. intros [] s9 (_ & _ & _ & T9).
  eapply wp_seq; [by apply plot_results_spec| |done]. intros [] s10 (_ & _ & _ & T10).
  eapply wp_mono; [apply print_spec| |done]. intros [] s11 (_ & _ & _ & T11).
  exists rs_nt, rs_tr. split; [done|]. split; [done|]. split; [done|]. split; [done|].
  split; [by apply Hflow|].
  rewrite T11, T10, T9, T8, T7, T6, T5, T4, T31, Hhs. unfold main_events, final_events.
  rewrite <- !app_assoc. reflexivity.
Qed.

Lemma saved_paths_main hs_nt hs_tr rs_nt rs_tr :
  saved_paths (main_events hs_nt hs_tr rs_nt rs_tr) =
  performance_pngs "non_transfer" (length rs_nt)
  ++ performance_pngs "transfer" (length rs_tr) ++ final_paths.
Proof.
  unfold main_events. rewrite !saved_paths_app, !saved_paths_experiment.
  change (saved_paths [Print _]) with (@nil string).
  change (saved_paths (final_events rs_nt rs_tr)) with final_paths.
  rewrite !app_nil_l. reflexivity.
Qed.



(** ** Propagation of a missing label *)

Lemma getitem_ok_lt d i it : getitem d i = Ok it → (i < ds_len d)%nat.
Proof.
  revert i it. induction d as [items|d IH indices|d IH label_map]; intros i it; simpl.
  - destruct (items !! i) eqn:E; [|done]. intros _. by eapply lookup_lt_Some.
  - destruct (indices !! i) eqn:E; [|done]. intros _. by eapply lookup_lt_Some.
  - destruct (getitem d i) as [[img lbl]|] eqn:E; simpl; [|done]. intros _. by eapply IH.
Qed.

Lemma remap_raise_kind d (label_map : gmap Z Z) i e :
  loads d → (i < ds_len d)%nat →
  getitem (RemapLabelsDataset d label_map) i = Raise e →
  ∃ k, e = KeyError k ∧ k ∉ dom label_map.
Proof.
  intros Hl Hi. destruct (Hl i Hi) as [[img lbl] Hit].
  rewrite (getitem_remap _ label_map _ _ _ Hit).
  destruct (label_map !! lbl) eqn:E; [done|]. intros [= <-].
  exists lbl. split; [done|]. by apply not_elem_of_dom.
Qed.

Lemma remap_not_loads d (label_map : gmap Z Z) idx img label :
  getitem d idx = Ok (img, label) → label ∉ dom label_map →
  ¬ loads (RemapLabelsDataset d label_map).
Proof.
  intros Hg Hn Hl. destruct (Hl idx) as [it Hit].
  - simpl. by eapply getitem_ok_lt.
  - rewrite (getitem_remap _ label_map _ _ _ Hg) in Hit.
    apply not_elem_of_dom in Hn. by rewrite Hn in Hit.
Qed.

Lemma test_model_missing_label d (label_map : gmap Z Z) idx img label bs shuf m s :
  getitem d idx = Ok (img, label) → label ∉ dom label_map → loads d →
  wp (test_model m {| dl_dataset := RemapLabelsDataset d label_map;
                      batch_size := bs; shuffle := shuf |}) s
     (λ _ _, False)
     (λ e _, ∃ k, e = KeyError k ∧ k ∉ dom label_map).
Proof.
  intros Hg Hn Hl. eapply wp_mono; [apply test_model_spec| |].
  - intros acc s' (_ & _ & _ & Hloads). simpl in Hloads.
    by eapply remap_not_loads.
  - intros e s' (_ & [[_ Hz]|(i & Hi & Hr)]); simpl in *.
    + apply getitem_ok_lt in Hg. lia.
    + by eapply remap_raise_kind.
Qed.

Lemma train_model_missing_label d (label_map : gmap Z Z) idx img label bs shuf
    m crit opt E ty lg s :
  getitem d idx = Ok (img, label) → label ∉ dom label_map → loads d →
  (0 < bs)%nat → (0 < E)%nat → has_trainable m (heap s) →
  wp (train_model m {| dl_dataset := RemapLabelsDataset d label_map;
                       batch_size := bs; shuffle := shuf |} crit opt E ty lg) s
     (λ _ _, False)
     (λ e _, ∃ k, e = KeyError k ∧ k ∉ dom label_map).
Proof.
  intros Hg Hn Hl Hbs HE Htr. eapply wp_mono; [apply train_model_spec| |].
  - intros r s' (_ & _ & _ & _ & Hpos & _). destruct (Hpos HE) as (_ & _ & _ & Hloads).
    simpl in Hloads. by eapply remap_not_loads.
  - intros e s' (_ & _ & _ & [[[_ Hz]|(i & Hi & Hr)]|[_ Hnt]]); simpl in *.
    + apply getitem_ok_lt in Hg.
      pose proof (dl_len_pos {| dl_dataset := RemapLabelsDataset d label_map;
                                batch_size := bs; shuffle := shuf |}) as Hp.
      simpl in Hp. specialize (Hp Hbs). lia.
    + by eapply remap_raise_kind.
    + done.
Qed.

Lemma run_once_missing_label d (label_map : gmap Z Z) idx img label bs shuf
    n big test E run acc s :
  getitem d idx = Ok (img, label) → label ∉ dom label_map → loads d →
  (0 < bs)%nat → (0 < E)%nat →
  wp (run_once n "non_transfer" big
        {| dl_dataset := RemapLabelsDataset d label_map; batch_size := bs; shuffle := shuf |}
        test E run acc) s
     (λ _ _, False)
     (λ e _, ∃ k, e = KeyError k ∧ k ∉ dom label_map).
Proof.
  intros Hg Hn Hl Hbs HE. unfold run_once.
  eapply wp_seq; [apply setup_logger_spec| |done].
  intros lg s1 (-> & H1 & _).
  eapply wp_seq; [apply logger_info_spec| |done].
  intros [] s2 (H2 & _).
  eapply wp_seq; [apply print_spec| |done].
  intros [] s3 (H3 & _).
  eapply wp_seq; [apply new_MNISTNet_spec| |done].
  intros model s4 (_ & Hfresh & _).
  assert (has_trainable model (heap s4)) as Htr.
  { exists (weight (conv1 model)).
    assert (weight (conv1 model) ∈ parameters model) as Hin.
    { unfold parameters, layer_parameters. apply elem_of_app. left. apply list_elem_of_here. }
    split; [done|]. by apply Hfresh. }
  unfold train_branch. rewrite decide_True by done.
  apply wp_bind.
  eapply wp_seq; [apply print_spec| |done].
  intros [] s5 (H5 & _).
  eapply wp_seq; [apply logger_info_spec| |done].
  intros [] s6 (H6 & _).
  eapply wp_seq; [eapply train_model_missing_label; try eassumption| |done].
  - by rewrite H6, H5.
  - by intros ? ? [].
Qed.

(** C6. Through the remapper an item whose original label is not a key of
    the label map raises [KeyError] on that label, and the access succeeds
    (with the mapped label) exactly when the label is a key. The error is
    not caught anywhere: over a subset whose other items can be read, the
    evaluator, the trainer (one epoch or more) and with it a whole
    experiment end in a [KeyError] on a label that the map lacks. *)
Theorem missing_label_raises_key_error d (label_map : gmap Z Z) idx img label :
  getitem d idx = Ok (img, label) →
  (label ∉ dom label_map →
     getitem (RemapLabelsDataset d label_map) idx = Raise (KeyError label)) ∧
  ((∃ it, getitem (RemapLabelsDataset d label_map) idx = Ok it) ↔ label ∈ dom label_map) ∧
  (∀ new_label, label_map !! label = Some new_label →
     getitem (RemapLabelsDataset d label_map) idx = Ok (img, new_label)) ∧
  (label ∉ dom label_map → loads d →
     ∀ bs shuf, (0 < bs)%nat →
       (∀ m s, ∃ k s',
          test_model m {| dl_dataset := RemapLabelsDataset d label_map;
                          batch_size := bs; shuffle := shuf |} s = Throw (KeyError k) s' ∧
          k ∉ dom label_map) ∧
       (∀ m crit opt E ty lg s, (0 < E)%nat → has_trainable m (heap s) →
          ∃ k s',
            train_model m {| dl_dataset := RemapLabelsDataset d label_map;
                             batch_size := bs; shuffle := shuf |} crit opt E ty lg s =
              Throw (KeyError k) s' ∧
            k ∉ dom label_map) ∧
       (∀ n big test E s, (0 < E)%nat →
          ∃ k s',
            run_experiment (S n) "non_transfer" big
              {| dl_dataset := RemapLabelsDataset d label_map;
                 batch_size := bs; shuffle := shuf |} test E s = Throw (KeyError k) s' ∧
            k ∉ dom label_map)).
Proof.
  intros Hg. destruct (getitem_remap_iff d label_map idx img label Hg) as (H1 & H2 & H3).
  split; [done|]. split; [done|]. split; [done|].
  intros Hn Hl bs shuf Hbs. split; [|split].
  - intros m s.
    pose proof (test_model_missing_label d label_map idx img label bs shuf m s Hg Hn Hl) as H.
    unfold wp in H. destruct (test_model _ _ s) as [acc s'|e s']; [done|].
    destruct H as (k & -> & Hk). eauto.
  - intros m crit opt E ty lg s HE Htr.
    pose proof (train_model_missing_label d label_map idx img label bs shuf
                  m crit opt E ty lg s Hg Hn Hl Hbs HE Htr) as H.
    unfold wp in H. destruct (train_model _ _ _ _ _ _ _ s) as [r s'|e s']; [done|].
    destruct H as (k & -> & Hk). eauto.
  - intros n big test E s HE.
    pose proof (run_once_missing_label d label_map idx img label bs shuf (S n) big test E 0
                  (RunAcc [] [] None None) s Hg Hn Hl Hbs HE) as H.
    unfold wp in H. unfold run_experiment. cbn [seq for_each]. unfold mbind, M_bind.
    destruct (run_once _ _ _ _ _ _ _ _ s) as [r s'|e s']; [done|].
    destruct H as (k & -> & Hk). eauto.
Qed.

End DriverClaims.

(** * The claims on concrete inputs *)





Lemma remap_fixed_map_witness :
  getitem (MNIST toy_mnist) 2 = Ok (2%nat, 2) ∧
  ∃ L', (2, L') ∈ even_pairs ∧
        getitem (RemapLabelsDataset (MNIST toy_mnist) even_label_map) 2 = Ok (2%nat, L').
Proof.
  split; [reflexivity|].
  destruct (remap_fixed_map (MNIST toy_mnist) 2 2%nat 2 eq_refl) as [H _].
  destruct H as (L' & H1 & _ & H2).
  - apply list_elem_of_further, list_elem_of_here.
  - exists L'. split; assumption.
Defined.

Lemma select_per_label_first_K_witness :
  (0 < 20)%nat ∧ NoDup odd_labels ∧
  (∀ l, l ∈ odd_labels → (20 ≤ occurrences l toy_mnist)%nat) ∧
  ∀ l, (length (selected_with l toy_mnist (small_train_indices toy_mnist)) ≤ 20)%nat.
Proof.
  assert (NoDup odd_labels) as Hnd by (apply (bool_decide_unpack _); vm_compute; exact I).
  assert (∀ l, l ∈ odd_labels → (20 ≤ occurrences l toy_mnist)%nat) as Hocc.
  { intros l Hl. unfold odd_labels in Hl. rewrite !elem_of_cons, elem_of_nil in Hl.
    destruct Hl as [->|[->|[->|[->|[->|[]]]]]]; vm_compute; lia. }
  split; [lia|]. split; [exact Hnd|]. split; [exact Hocc|].
  apply (select_per_label_first_K 20 odd_labels toy_mnist); [lia|exact Hnd|exact Hocc].
Defined.




Lemma missing_label_raises_key_error_witness :
  getitem (MNIST toy_mnist) 2 = Ok (2%nat, 2) ∧
  getitem (RemapLabelsDataset (MNIST toy_mnist) odd_label_map) 2 = Raise (KeyError 2).
Proof.
  split; [reflexivity|].
  destruct (@missing_label_raises_key_error nat toy_lib (MNIST toy_mnist) odd_label_map
              2 2%nat 2 eq_refl) as (H & _).
  apply H. apply not_elem_of_dom. reflexivity.
Defined.


Lemma log_handlers_accumulate_witness :
  handlers toy_state !! "non_transfer" = None ∧
  ∃ res s',
    @run_experiment nat toy_lib 2 "non_transfer" toy_big_loader toy_small_loader
      toy_test_loader 1 toy_state = Done res s' ∧
    ∃ lines : list (list string),
      length lines = 2%nat ∧
      file_lines (log_file "non_transfer" 1) (drop (length (trace toy_state)) (trace s')) =
        mjoin (drop (1 - 1) lines).
Proof.
  split; [reflexivity|].
  destruct (@run_experiment nat toy_lib 2 "non_transfer" toy_big_loader toy_small_loader
              toy_test_loader 1 toy_state) as [res s'|e s'] eqn:E.
  - exists res, s'. split; [reflexivity|].
    destruct (@log_handlers_accumulate nat toy_lib 2 "non_transfer" toy_big_loader
                toy_small_loader toy_test_loader 1 toy_state res s' eq_refl E)
      as (lines & H1 & _ & _ & H2 & _).
    exists lines. split; [exact H1|]. apply H2. lia.
  - vm_compute in E. discriminate E.
Defined.



(** * Further properties of the data pipeline (lines 37-76) *)

Section Selection.

Context {image : Type}.
Implicit Types (ds : list (image * Z)) (d : @dataset image).

Lemma elem_of_positions_from_pred (p : Z → bool) ds i x :
  x ∈ positions_from i p ds ↔
  ∃ j lbl, x = (i + j)%nat ∧ label_at ds j = Some lbl ∧ p lbl = true.
Proof.
  unfold label_at. revert i. induction ds as [|[img lbl] ds IH]; intros i; simpl.
  - rewrite elem_of_nil. split; [done|]. intros (j & l & _ & H & _). by destruct j.
  - destruct (p lbl) eqn:E.
    + rewrite elem_of_cons, IH. split.
      * intros [->|(j & l & -> & Hl & Hp)].
        -- exists 0%nat, lbl. split; [lia|]. done.
        -- exists (S j), l. split; [lia|]. done.
      * intros ([|j] & l & -> & Hl & Hp).
        -- left. lia.
        -- right. exists j, l. split; [lia|]. done.
    + rewrite IH. split.
      * intros (j & l & -> & Hl & Hp). exists (S j), l. split; [lia|]. done.
      * intros ([|j] & l & -> & Hl & Hp); simpl in *.
        -- congruence.
        -- exists j, l. split; [lia|]. done.
Qed.

Lemma positions_from_increasing (p : Z → bool) ds i a b x y :
  (a < b)%nat →
  positions_from i p ds !! a = Some x → positions_from i p ds !! b = Some y →
  (x < y)%nat.
Proof.
  revert i a b. induction ds as [|[img lbl] ds IH]; intros i a b Hab; simpl; [done|].
  destruct (p lbl); [|eauto].
  destruct b as [|b]; [lia|]. destruct a as [|a]; simpl.
  - intros [= <-] Hy. apply list_elem_of_lookup_2 in Hy.
    apply elem_of_positions_from_pred in Hy as (j & l & -> & _). lia.
  - apply IH. lia.
Qed.

Lemma positions_from_NoDup (p : Z → bool) ds i : NoDup (positions_from i p ds).
Proof.
  apply NoDup_alt. intros a b x Ha Hb.
  destruct (Nat.lt_trichotomy a b) as [H|[H|H]]; [|done|].
  - pose proof (positions_from_increasing p ds i a b x x H Ha Hb). lia.
  - pose proof (positions_from_increasing p ds i b a x x H Hb Ha). lia.
Qed.

Lemma length_positions_from_pred (p : Z → bool) ds i :
  length (positions_from i p ds) = length (filter (λ it, p it.2 = true) ds).
Proof.
  revert i. induction ds as [|[img lbl] ds IH]; intros i; simpl; [done|].
  destruct (p lbl) eqn:E.
  - rewrite filter_cons_True by done. simpl. by rewrite IH.
  - rewrite filter_cons_False; [apply IH|]. simpl. by rewrite E.
Qed.

Lemma label_at_lt ds p l : label_at ds p = Some l → (p < length ds)%nat.
Proof.
  unfold label_at. destruct (ds !! p) eqn:E; [|done]. intros _. by eapply lookup_lt_Some.
Qed.

(** X1. Line 37: the positions kept for the abundant training set are
    exactly the positions of the items with an even label, each once, in
    the order of the collection. *)
Theorem train_indices_even_positions ds :
  (∀ p, p ∈ train_indices ds ↔ ∃ l, label_at ds p = Some l ∧ l ∈ even_labels) ∧
  (∀ a b x y, (a < b)%nat →
     train_indices ds !! a = Some x → train_indices ds !! b = Some y → (x < y)%nat) ∧
  NoDup (train_indices ds) ∧
  length (train_indices ds) = length (filter (λ it, it.2 ∈ even_labels) ds).
Proof.
  unfold train_indices, positions. split; [|split; [|split]].
  - intros p. rewrite elem_of_positions_from_pred. unfold label_in. split.
    + intros (j & l & -> & Hl & Hp). exists l. split; [done|].
      by apply bool_decide_eq_true in Hp.
    + intros (l & Hl & Hin). exists p, l. split; [done|]. split; [done|].
      by apply bool_decide_eq_true.
  - apply positions_from_increasing.
  - apply positions_from_NoDup.
  - rewrite length_positions_from_pred. f_equal.
    apply list_filter_iff. intros [img l]. unfold label_in. simpl.
    apply bool_decide_eq_true.
Qed.


Lemma take_positions_NoDup label ds K : NoDup (take K (positions (label_is label) ds)).
Proof.
  pose proof (positions_from_NoDup (label_is label) ds 0) as H.
  fold (positions (label_is label) ds) in H.
  rewrite <- (take_drop K (positions (label_is label) ds)) in H.
  by apply NoDup_app in H as [H _].
Qed.

Lemma elem_of_select_per_label K labels ds p :
  p ∈ select_per_label K labels ds [] ↔
  ∃ l, l ∈ labels ∧ label_at ds p = Some l ∧ (occurrences_before l ds p < K)%nat.
Proof.
  rewrite select_per_label_unfold. simpl. rewrite list_elem_of_join. split.
  - intros (xs & Hp & Hxs). apply list_elem_of_fmap in Hxs as (l & -> & Hl).
    apply elem_of_take_positions in Hp. eauto.
  - intros (l & Hl & Hp). exists (take K (positions (label_is l) ds)). split.
    + by apply elem_of_take_positions.
    + apply list_elem_of_fmap. eauto.
Qed.

Lemma length_take_positions label ds K :
  length (take K (positions (label_is label) ds)) = (K `min` occurrences label ds)%nat.
Proof. rewrite length_take. unfold positions. by rewrite length_positions_from. Qed.

Lemma length_select_per_label K labels ds :
  length (select_per_label K labels ds []) =
  sum_list ((λ l, K `min` occurrences l ds)%nat <$> labels).
Proof.
  rewrite select_per_label_unfold. simpl.
  induction labels as [|l labels IH]; [done|].
  rewrite !fmap_cons. change (mjoin (?x :: ?l)) with (x ++ mjoin l).
  rewrite length_app, IH, length_take_positions. done.
Qed.

Lemma sum_list_min_le K (f : Z → nat) (labels : list Z) :
  (sum_list ((λ l, K `min` f l)%nat <$> labels) ≤ K * length labels)%nat.
Proof.
  induction labels as [|l labels IH]; [simpl; lia|].
  rewrite fmap_cons. cbn [sum_list_with length].
  change (id ?x) with x. pose proof (Nat.le_min_l K (f l)). rewrite Nat.mul_succ_r. lia.
Qed.

Lemma select_per_label_NoDup K labels ds :
  NoDup labels → NoDup (select_per_label K labels ds []).
Proof.
  rewrite select_per_label_unfold. simpl.
  induction 1 as [|l labels Hl Hnd IH]; [constructor|].
  rewrite fmap_cons. change (mjoin (?x :: ?l)) with (x ++ mjoin l).
  apply NoDup_app. split; [apply take_positions_NoDup|]. split; [|done].
  intros p Hp Hp'. apply elem_of_take_positions in Hp as [Hlab _].
  apply list_elem_of_join in Hp' as (xs & Hp' & Hxs).
  apply list_elem_of_fmap in Hxs as (l' & -> & Hl').
  apply elem_of_take_positions in Hp' as [Hlab' _]. congruence.
Qed.

(** X2. Lines 41-44 and 48-51 without any assumption on the data: the
    selection is the concatenation, label by label in the order of the
    requested labels, of the first [K] positions of each label. A label
    with fewer than [K] examples contributes all of them and a label with
    none contributes nothing (no error is raised): the count per requested
    label is [min K (number of examples)]. No position is selected twice
    and every selected position is a valid position of the collection. *)
Theorem select_per_label_takes_what_exists (K : nat) (labels : list Z) ds :
  NoDup labels →
  let sel := select_per_label K labels ds [] in
  sel = mjoin ((λ l, take K (positions (label_is l) ds)) <$> labels) ∧
  NoDup sel ∧
  (∀ p, p ∈ sel → (p < length ds)%nat) ∧
  (∀ l, length (selected_with l ds sel) =
        if decide (l ∈ labels) then (K `min` occurrences l ds)%nat else 0%nat) ∧
  length sel = sum_list ((λ l, K `min` occurrences l ds)%nat <$> labels) ∧
  (length sel ≤ K * length labels)%nat.
Proof.
  intros Hnd sel. subst sel. split; [by rewrite select_per_label_unfold|].
  split; [by apply select_per_label_NoDup|]. split; [|split; [|split]].
  - intros p Hp. apply elem_of_select_per_label in Hp as (l & _ & Hl & _).
    by eapply label_at_lt.
  - intros l. rewrite select_per_label_unfold. simpl.
    rewrite selected_with_concat by done.
    destruct (decide (l ∈ labels)); [apply length_take_positions|done].
  - apply length_select_per_label.
  - rewrite length_select_per_label. apply sum_list_min_le.
Qed.

(** ** Bounds of item access (lines 55-66 and the [Subset] wrapper) *)

Lemma getitem_out_of_range d i : (ds_len d ≤ i)%nat → getitem d i = Raise IndexError.
Proof.
  revert i. induction d as [items|d IH indices|d IH label_map]; intros i Hi; simpl in *.
  - by rewrite lookup_ge_None_2.
  - by rewrite lookup_ge_None_2.
  - by rewrite IH.
Qed.

(** X3. For every dataset built from the collection, [Subset] and the
    remapper: [len] is the exact bound of item access. A position at or
    beyond [len(dataset)] raises [IndexError], a successful access is at a
    position below it, and an access can fail in two ways only, with
    [IndexError] or with the [KeyError] of the remapper. *)
Theorem getitem_bounds d i :
  ((ds_len d ≤ i)%nat → getitem d i = Raise IndexError) ∧
  (∀ it, getitem d i = Ok it → (i < ds_len d)%nat) ∧
  (∀ e, getitem d i = Raise e → e = IndexError ∨ ∃ k, e = KeyError k).
Proof.
  split; [apply getitem_out_of_range|]. split.
  - intros it Hit. destruct (Nat.lt_ge_cases i (ds_len d)) as [|Hge]; [done|].
    rewrite (getitem_out_of_range d i Hge) in Hit. done.
  - intros e. apply getitem_raise_kind.
Qed.

(** ** The three datasets of the script (lines 38-71) *)

Lemma remap_subset_loads ds (idxs : list nat) (lm : gmap Z Z)
    (pairs : list (Z * Z)) (labels : list Z) :
  (∀ p, p ∈ idxs → ∃ l, label_at ds p = Some l ∧ l ∈ labels) →
  (∀ l, l ∈ labels → ∃ l', (l, l') ∈ pairs) →
  (∀ l l', (l, l') ∈ pairs → lm !! l = Some l' ∧ l' ∈ class_indices) →
  ∀ i, (i < length idxs)%nat →
    ∃ it, getitem (RemapLabelsDataset (Subset (MNIST ds) idxs) lm) i = Ok it ∧
          remapped_item ds pairs it ∧ it.2 ∈ class_indices.
Proof.
  intros Hidx Hcov Hmap i Hi.
  destruct (lookup_lt_is_Some_2 idxs i Hi) as [p Hp].
  destruct (Hidx p (list_elem_of_lookup_2 _ _ _ Hp)) as (l & Hl & Hin).
  unfold label_at in Hl. destruct (ds !! p) as [[img l0]|] eqn:Ep; simplify_eq/=.
  destruct (Hcov l Hin) as [l' Hl']. destruct (Hmap l l' Hl') as [Hlk Hci].
  exists (img, l'). simpl. rewrite Hp, Ep. simpl. rewrite Hlk.
  split; [done|]. split; [|done]. exists p, l. done.
Qed.

Lemma even_pairs_map l l' :
  (l, l') ∈ even_pairs → even_label_map !! l = Some l' ∧ l' ∈ class_indices.
Proof.
  intros H. split; [by apply even_label_map_lookup|].
  revert H. unfold even_pairs, class_indices. rewrite !elem_of_cons, elem_of_nil.
  intros [H|[H|[H|[H|[H|[]]]]]]; inversion H; subst; eauto 10.
Qed.

Lemma odd_pairs_map l l' :
  (l, l') ∈ odd_pairs → odd_label_map !! l = Some l' ∧ l' ∈ class_indices.
Proof.
  intros H. split; [by apply odd_label_map_lookup|].
  revert H. unfold odd_pairs, class_indices. rewrite !elem_of_cons, elem_of_nil.
  intros [H|[H|[H|[H|[H|[]]]]]]; inversion H; subst; eauto 10.
Qed.

Lemma select_per_label_labels K labels ds p :
  p ∈ select_per_label K labels ds [] → ∃ l, label_at ds p = Some l ∧ l ∈ labels.
Proof. intros Hp. apply elem_of_select_per_label in Hp as (l & ? & ? & _). eauto. Qed.

Lemma train_indices_labels ds p :
  p ∈ train_indices ds → ∃ l, label_at ds p = Some l ∧ l ∈ even_labels.
Proof.
  unfold train_indices, positions. rewrite elem_of_positions_from_pred.
  intros (j & l & -> & Hl & Hp). exists l. split; [done|].
  by apply bool_decide_eq_true in Hp.
Qed.

(** X4. The selection and the remapping fit together: whatever the base
    collections hold, every position below the length of each of the
    three datasets can be read, and the item read is the image of an item
    of the base collection whose label (even for the abundant set, odd for
    the scarce and the held-out set) is rewritten by the fixed map to a
    class index among 0..4. The lookup failure of the remapper cannot
    occur on the datasets the script builds. *)
Theorem built_datasets_always_load (full raw : list (image * Z)) :
  (∀ i, (i < ds_len (big_train_dataset full))%nat →
     ∃ it, getitem (big_train_dataset full) i = Ok it ∧
           remapped_item full even_pairs it ∧ it.2 ∈ class_indices) ∧
  (∀ i, (i < ds_len (small_train_dataset full))%nat →
     ∃ it, getitem (small_train_dataset full) i = Ok it ∧
           remapped_item full odd_pairs it ∧ it.2 ∈ class_indices) ∧
  (∀ i, (i < ds_len (test_dataset raw))%nat →
     ∃ it, getitem (test_dataset raw) i = Ok it ∧
           remapped_item raw odd_pairs it ∧ it.2 ∈ class_indices).
Proof.
  split; [|split].
  - apply (remap_subset_loads full _ _ even_pairs even_labels).
    + apply train_indices_labels.
    + apply (proj1 pairs_cover_labels).
    + apply even_pairs_map.
  - apply (remap_subset_loads full _ _ odd_pairs odd_labels).
    + apply select_per_label_labels.
    + apply (proj2 pairs_cover_labels).
    + apply odd_pairs_map.
  - apply (remap_subset_loads raw _ _ odd_pairs odd_labels).
    + apply select_per_label_labels.
    + apply (proj2 pairs_cover_labels).
    + apply odd_pairs_map.
Qed.

Lemma datasets_load (full raw : list (image * Z)) :
  loads (big_train_dataset full) ∧ loads (small_train_dataset full) ∧
  loads (test_dataset raw).
Proof.
  split; [|split]; intros i Hi.
  - destruct (remap_subset_loads full _ _ even_pairs even_labels
                (train_indices_labels full) (proj1 pairs_cover_labels) even_pairs_map i Hi)
      as (it & ? & _). eauto.
  - destruct (remap_subset_loads full _ _ odd_pairs odd_labels
                (select_per_label_labels _ _ full) (proj2 pairs_cover_labels) odd_pairs_map i Hi)
      as (it & ? & _). eauto.
  - destruct (remap_subset_loads raw _ _ odd_pairs odd_labels
                (select_per_label_labels _ _ raw) (proj2 pairs_cover_labels) odd_pairs_map i Hi)
      as (it & ? & _). eauto.
Qed.

(** ** Lengths of the three datasets (lines 60-61) *)

Lemma length_pos_elem {A} (l : list A) : (0 < length l)%nat ↔ ∃ x, x ∈ l.
Proof.
  destruct l as [|x l]; simpl.
  - split; [lia|]. intros [x Hx]. by apply elem_of_nil in Hx.
  - split; [|lia]. intros _. exists x. apply list_elem_of_here.
Qed.

Lemma occurrences_pos label ds p :
  label_at ds p = Some label → (0 < occurrences label ds)%nat.
Proof.
  unfold label_at, occurrences. destruct (ds !! p) as [it|] eqn:E; [|done].
  intros [= Hl]. apply length_pos_elem. exists it.
  apply list_elem_of_filter. split; [done|]. by eapply list_elem_of_lookup_2.
Qed.

Lemma train_indices_nonempty ds :
  (0 < length (train_indices ds))%nat ↔ has_label even_labels ds.
Proof.
  rewrite length_pos_elem. unfold has_label. split.
  - intros [p Hp]. apply train_indices_labels in Hp. eauto.
  - intros (p & l & Hl & Hin). exists p.
    unfold train_indices, positions. apply elem_of_positions_from_pred.
    exists p, l. split; [done|]. split; [done|]. by apply bool_decide_eq_true.
Qed.

Lemma select_per_label_nonempty K labels ds :
  (0 < K)%nat →
  (0 < length (select_per_label K labels ds []))%nat ↔ has_label labels ds.
Proof.
  intros HK. unfold has_label. split.
  - rewrite length_pos_elem. intros [p Hp]. apply select_per_label_labels in Hp. eauto.
  - intros (p & l & Hl & Hin). rewrite length_select_per_label.
    pose proof (occurrences_pos l ds p Hl) as Hocc.
    assert ((K `min` occurrences l ds)%nat ∈ (λ l, K `min` occurrences l ds)%nat <$> labels)
      as Hmem by (apply list_elem_of_fmap; eauto).
    pose proof (sum_list_with_in _ id _ Hmem) as Hle. unfold id in Hle at 1. lia.
Qed.

(** X5. [len] of the three datasets is the length of the selection
    underneath (the remapper adds and drops nothing): the abundant set has
    one item per even-labelled example; the scarce set has
    [min 20 (examples of the label)] items for each of the five odd
    labels, at most 100 in all; the held-out set likewise with 200, at
    most 1000. Each of them is empty exactly when the base collection has
    no item of the required parity. *)
Theorem dataset_lengths (full raw : list (image * Z)) :
  ds_len (big_train_dataset full) = length (filter (λ it, it.2 ∈ even_labels) full) ∧
  ds_len (small_train_dataset full) =
    sum_list ((λ l, 20 `min` occurrences l full)%nat <$> odd_labels) ∧
  ds_len (test_dataset raw) =
    sum_list ((λ l, 200 `min` occurrences l raw)%nat <$> odd_labels) ∧
  (ds_len (small_train_dataset full) ≤ 100)%nat ∧
  (ds_len (test_dataset raw) ≤ 1000)%nat ∧
  ((0 < ds_len (big_train_dataset full))%nat ↔ has_label even_labels full) ∧
  ((0 < ds_len (small_train_dataset full))%nat ↔ has_label odd_labels full) ∧
  ((0 < ds_len (test_dataset raw))%nat ↔ has_label odd_labels raw).
Proof.
  cbn [ds_len big_train_dataset small_train_dataset test_dataset].
  unfold small_train_indices, test_indices.
  split. { unfold train_indices, positions. rewrite length_positions_from_pred. f_equal.
           apply list_filter_iff. intros [img l]. unfold label_in. simpl.
           apply bool_decide_eq_true. }
  split; [apply length_select_per_label|]. split; [apply length_select_per_label|].
  split. { rewrite length_select_per_label.
           etrans; [apply sum_list_min_le|]. unfold odd_labels. simpl. lia. }
  split. { rewrite length_select_per_label.
           etrans; [apply sum_list_min_le|]. unfold odd_labels. simpl. lia. }
  split; [apply train_indices_nonempty|].
  split; apply select_per_label_nonempty; lia.
Qed.

End Selection.

(** * Further properties of the loaders, the trainer and the evaluator *)

Section MoreLoaders.

Context {image : Type} `{TL : TensorLib image}.
Implicit Types (d : @dataset image) (dl : @DataLoader image) (m : MNISTNet).



End MoreLoaders.

Section MoreTraining.

Context {image : Type} `{TL : TensorLib image}.
Implicit Types (d : @dataset image) (dl : @DataLoader image) (m : MNISTNet).

(** X7. [MNISTNet(num_classes)] (lines 79-84) always returns; its six
    parameters (weight and bias of [conv1], [conv2], [fc1]) are six
    distinct objects, none of which existed before, all of them trainable.
    Every object that existed before is left as it was, and nothing is
    logged or printed: a new model shares no parameter with the model of an
    earlier run. *)
Theorem new_MNISTNet_allocates_fresh n s :
  ∃ m s',
    new_MNISTNet n s = Done m s' ∧
    length (parameters m) = 6%nat ∧ NoDup (parameters m) ∧
    (∀ a, a ∈ parameters m →
          (a ∉ dom (heap s)) ∧ a ∈ dom (heap s') ∧ trainable_in (heap s') a = true) ∧
    (∀ a, a ∈ dom (heap s) → (a ∉ parameters m) ∧ heap s' !! a = heap s !! a) ∧
    handlers s' = handlers s ∧ trace s' = trace s.
Proof.
  pose proof (new_MNISTNet_spec n s) as H. unfold wp in H.
  destruct (new_MNISTNet n s) as [m s'|e s']; [|done].
  destruct H as (Hnd & Hfresh & Hold & HL & HT).
  exists m, s'. split; [done|]. split; [done|]. split; [done|]. split; [done|].
  split; [|done]. intros a Ha.
  assert (a ∉ parameters m) as Hn.
  { intros Hin. by destruct (Hfresh a Hin) as (Hnot & _). }
  split; [done|]. by apply Hold.
Qed.

(** X8. What [train_model] (lines 111-142) may write, whether it returns
    or raises: only parameter objects that belong to the optimizer or are
    trainable parameters of the model. Every other parameter object is
    bit-identical afterwards; no parameter changes its [requires_grad]
    flag; no parameter object is created or lost; the handlers of the
    loggers are the same; and no image or array file is written. *)
Theorem train_model_writes_only_its_parameters m dl crit opt E ty lg s :
  let s' := final_state (train_model m dl crit opt E ty lg s) in
  (∀ a, a ∉ opt_params opt → ¬ (a ∈ parameters m ∧ trainable_in (heap s) a = true) →
        heap s' !! a = heap s !! a) ∧
  (∀ a, trainable_in (heap s') a = trainable_in (heap s) a) ∧
  dom (heap s') = dom (heap s) ∧
  handlers s' = handlers s ∧
  ∃ T, trace s' = trace s ++ T ∧ saved_paths T = [].
Proof.
  intros s'. subst s'.
  pose proof (train_model_spec m dl crit opt E ty lg s) as H. unfold wp in H.
  assert (∀ h', heap_touch (written_by m opt (heap s)) (heap s) h' →
            (∀ a, a ∉ opt_params opt →
                  ¬ (a ∈ parameters m ∧ trainable_in (heap s) a = true) →
                  h' !! a = heap s !! a) ∧
            (∀ a, trainable_in h' a = trainable_in (heap s) a) ∧
            dom h' = dom (heap s)) as Hframe.
  { intros h' (HT & HD & HF). split; [|split; [done|]].
    - intros a Ha Hb. apply HF. intros [?|?]; done.
    - apply set_eq. intros a. rewrite !elem_of_dom. apply HD. }
  destruct (train_model m dl crit opt E ty lg s) as [r s'|e s']; simpl.
  - destruct H as (_ & _ & _ & _ & _ & HL & HT & HH).
    destruct (Hframe _ HH) as (F1 & F2 & F3).
    split; [done|]. split; [done|]. split; [done|]. split; [done|].
    eexists. split; [exact HT|]. apply saved_paths_training.
  - destruct H as (HL & (ls & accs & _ & _ & HT) & HH & _).
    destruct (Hframe _ HH) as (F1 & F2 & F3).
    split; [done|]. split; [done|]. split; [done|]. split; [done|].
    eexists. split; [exact HT|]. apply saved_paths_training.
Qed.


(** X10. Every accuracy [train_model] returns is [100 * correct / N] with
    [N] the number of items of the dataset and [correct ≤ N]: whatever the
    batch size and the order, every item is counted exactly once per
    epoch, and the value is a percentage between 0 and 100. *)
Theorem train_model_accuracies_are_percentages m dl crit opt E ty lg s ls accs s' :
  train_model m dl crit opt E ty lg s = Done (ls, accs) s' →
  Forall (λ x, ∃ correct, (correct ≤ ds_len (dl_dataset dl))%nat ∧
                 x = (Qnat (100 * correct) / Qnat (ds_len (dl_dataset dl)))%Q) accs ∧
  Forall (λ x, (0 <= x)%Q ∧ (x <= 100)%Q) accs.
Proof.
  intros Hrun.
  pose proof (wp_done _ _ _ _ _ _ (train_model_spec m dl crit opt E ty lg s) Hrun)
    as (_ & Hlen & _ & Hacc & Hpos & _). simpl in *.
  split; [exact Hacc|].
  destruct E as [|E]; [by destruct accs|].
  destruct (Hpos ltac:(lia)) as (Hn & _).
  eapply Forall_impl; [exact Hacc|]. intros x Hx. by apply (is_accuracy_bounds dl).
Qed.


End MoreTraining.

(** * Further properties of the experiment driver *)

Section MoreDriver.

Context {image : Type} `{TL : TensorLib image}.
Implicit Types (d : @dataset image) (dl big small test : @DataLoader image) (m : MNISTNet).


(** X12. What [run_experiment] (lines 160-226) returns when it returns:
    one test accuracy per run, each a percentage between 0 and 100, and
    one list of losses per run, each of [num_epochs] values, so that the
    losses of at least one run form a matrix of [num_runs] rows and
    [num_epochs] columns; and with at least one run the model type was one
    of the two the function knows. *)
Theorem run_experiment_results_shape n mt big small test E s accs lss s' :
  run_experiment n mt big small test E s = Done (accs, lss) s' →
  length accs = n ∧ length lss = n ∧
  Forall (λ row, length row = E) lss ∧
  Forall (λ a, (0 <= a)%Q ∧ (a <= 100)%Q) accs ∧
  ((0 < n)%nat → valid_model_type mt ∧ rectangular lss = true).
Proof.
  intros Hrun.
  pose proof (wp_done _ _ _ _ _ _ (run_experiment_spec n mt big small test E s) Hrun)
    as (rs & Hlen & [= -> ->] & _ & _ & _ & Hpos & Hok & _).
  rewrite !length_fmap.
  assert (Forall (λ row : list Q, length row = E) ((λ x, (rr_fin x).1) <$> rs)) as Hrows.
  { apply Forall_fmap. eapply Forall_impl; [exact Hok|]. by intros x (Hl & _). }
  split; [done|]. split; [done|]. split; [done|]. split.
  - destruct n as [|n]; [by destruct rs|].
    destruct (Hpos ltac:(lia)) as [_ Hn].
    apply Forall_fmap. eapply Forall_impl; [exact Hok|].
    intros x (_ & _ & _ & _ & Hacc). by apply (is_accuracy_bounds test).
  - intros Hn. destruct (Hpos Hn) as [Hv _]. split; [done|].
    apply (rectangular_rows _ E); [|done]. destruct rs; simpl in *; [lia|done].
Qed.



(** ** Completion of a run, of an experiment and of the script *)

Lemma wp_pure {A} (mm : M A) s (P : Prop) :
  P → wp mm s (λ _ _, P) (λ _ _, True).
Proof. intros HP. unfold wp. by destruct (mm s). Qed.

Lemma train_model_returns m dl crit opt E ty lg s :
  usable dl → has_trainable m (heap s) →
  wp (train_model m dl crit opt E ty lg) s
     (λ _ s', heap_touch (written_by m opt (heap s)) (heap s) (heap s'))
     (λ _ _, False).
Proof.
  intros Hu Htr. eapply wp_mono; [apply train_model_spec| |].
  - intros r s' (_ & _ & _ & _ & _ & _ & _ & HH). done.
  - intros e s' (_ & _ & _ & [Hf|[_ Hn]]); [|done].
    by apply (loader_failure_usable dl e).
Qed.

Lemma test_model_returns m dl s :
  usable dl → wp (test_model m dl) s (λ _ _, True) (λ _ _, False).
Proof.
  intros Hu. unfold wp. by destruct (test_model_total m dl s Hu) as (acc & -> & _).
Qed.

Lemma has_trainable_weight m (h : gmap nat param) (l : layer) :
  weight l ∈ parameters m → trainable_in h (weight l) = true → has_trainable m h.
Proof. intros Hin Ht. by exists (weight l). Qed.

Lemma conv_in_parameters m a :
  a ∈ layer_parameters (conv1 m) ++ layer_parameters (conv2 m) → a ∈ parameters m.
Proof. intros Ha. unfold parameters. rewrite app_assoc. apply elem_of_app. by left. Qed.

Lemma fc1_weight_in_parameters m : weight (fc1 m) ∈ parameters m.
Proof.
  unfold parameters, layer_parameters. rewrite !elem_of_app. right. right.
  apply list_elem_of_here.
Qed.

Lemma train_branch_returns mt big small E run lg model acc s :
  valid_model_type mt → (mt = "transfer" → usable big) → usable small →
  (∀ a, a ∈ parameters model → is_Some (heap s !! a) ∧ trainable_in (heap s) a = true) →
  wp (train_branch mt big small E run lg model acc) s
     (λ r _, is_Some r.1.2 ∧ is_Some r.2) (λ _ _, False).
Proof.
  intros Hv Hbig Hsmall Hparams.
  assert (has_trainable model (heap s)) as Htr.
  { apply (has_trainable_weight _ _ (fc1 model)); [apply fc1_weight_in_parameters|].
    apply Hparams, fc1_weight_in_parameters. }
  unfold train_branch. destruct (decide (mt = "non_transfer")) as [Hnt|Hnt].
  { eapply wp_seq; [apply print_spec| |done].
    intros [] s1 (H1 & _).
    eapply wp_seq; [apply logger_info_spec| |done].
    intros [] s2 (H2 & _).
    eapply wp_seq; [apply train_model_returns; [done|by rewrite H2, H1]| |done].
    intros [l a] s3 _. apply wp_ret. simpl. eauto. }
  destruct (decide (mt = "transfer")) as [Htt|Htt]; [|destruct Hv; done].
  eapply wp_seq; [apply logger_info_spec| |done].
  intros [] s1 (H1 & _).
  eapply wp_seq; [apply print_spec| |done].
  intros [] s2 (H2 & _).
  assert (heap s2 = heap s) as H20 by congruence.
  eapply wp_seq; [apply train_model_returns; [by apply Hbig|by rewrite H20]| |done].
  intros r1 s3 (_ & HD & _).
  eapply wp_seq; [apply freeze_and_replace_spec| |done].
  { intros a Ha. apply HD. rewrite H20. by apply Hparams, conv_in_parameters. }
  intros m' s4 (_ & _ & _ & _ & _ & Hfc & _).
  assert (fine_tune m' small cross_entropy E lg s4 =
          train_model m' small cross_entropy
            (Adam (filter (λ a, trainable_in (heap s4) a = true) (parameters m')))
            E "Transfer" (Some lg) s4) as Heq by reflexivity.
  apply wp_bind. unfold wp at 1. rewrite Heq.
  eapply wp_mono; [apply train_model_returns; [done|]| |done].
  - apply (has_trainable_weight _ _ (fc1 m')); [apply fc1_weight_in_parameters|].
    apply Hfc. unfold layer_parameters. apply list_elem_of_here.
  - intros [l a] s5 _. apply wp_ret. simpl. eauto.
Qed.

Lemma run_once_returns n mt big small test E run acc s :
  valid_model_type mt → (mt = "transfer" → usable big) → usable small → usable test →
  wp (run_once n mt big small test E run acc) s (λ _ _, True) (λ _ _, False).
Proof.
  intros Hv Hbig Hsmall Htest. unfold run_once.
  eapply wp_seq; [apply setup_logger_spec| |done].
  intros lg s1 (-> & H1 & _).
  eapply wp_seq; [apply logger_info_spec| |done].
  intros [] s2 (H2 & _).
  eapply wp_seq; [apply print_spec| |done].
  intros [] s3 (H3 & _).
  eapply wp_seq; [apply new_MNISTNet_spec| |done].
  intros model s4 (_ & Hfresh & _).
  eapply wp_seq; [apply train_branch_returns; try done| |done].
  { intros a Ha. destruct (Hfresh a Ha) as (_ & Hd & Ht). split; [|done].
    by apply elem_of_dom. }
  intros [[m' l] a] s5 [Hl Ha]. simpl in Hl, Ha.
  destruct Hl as [ls ->], Ha as [accs ->].
  eapply wp_seq; [by apply test_model_returns| |done].
  intros accuracy s6 _.
  eapply wp_seq; [apply print_spec| |done].
  intros [] s7 _.
  eapply wp_seq; [apply logger_info_spec| |done].
  intros [] s8 _.
  apply wp_bind, wp_ret. apply wp_bind, wp_ret.
  eapply wp_seq; [apply emit_spec| |done].
  intros [] s9 _. by apply wp_ret.
Qed.

Lemma run_experiment_returns n mt big small test E s :
  valid_model_type mt → (mt = "transfer" → usable big) → usable small → usable test →
  wp (run_experiment n mt big small test E) s (λ _ _, True) (λ _ _, False).
Proof.
  intros Hv Hbig Hsmall Htest. unfold run_experiment.
  eapply wp_seq; [apply (wp_for_each_inv _ _ _ _ (λ _ _, True) (λ _ _, False))| |done].
  - done.
  - intros run acc s1 _ _. by apply run_once_returns.
  - intros r s1 _. by apply wp_ret.
Qed.

Lemma new_DataLoader_accepts d bs shuf s :
  wp (new_DataLoader d bs shuf) s
     (λ dl s', s' = s ∧ dl = {| dl_dataset := d; batch_size := bs; shuffle := shuf |} ∧
               (shuf = true → (0 < ds_len d)%nat))
     (λ _ _, True).
Proof.
  unfold new_DataLoader. destruct (bs =? 0)%nat; [by apply wp_raise|].
  destruct shuf; simpl.
  - destruct (Nat.eqb_spec (ds_len d) 0); [by apply wp_raise|].
    apply wp_ret. split; [done|]. split; [done|]. lia.
  - apply wp_ret. done.
Qed.

Lemma new_DataLoader_returns d bs shuf s :
  (0 < bs)%nat → (0 < ds_len d)%nat →
  new_DataLoader d bs shuf s = Done {| dl_dataset := d; batch_size := bs; shuffle := shuf |} s.
Proof.
  intros Hbs Hn. unfold new_DataLoader.
  destruct (Nat.eqb_spec bs 0); [lia|]. destruct (Nat.eqb_spec (ds_len d) 0); [lia|].
  by rewrite andb_false_r.
Qed.


Lemma new_DataLoader_ok d bs shuf s :
  (0 < bs)%nat → (0 < ds_len d)%nat →
  wp (new_DataLoader d bs shuf) s
     (λ dl s', s' = s ∧ dl = {| dl_dataset := d; batch_size := bs; shuffle := shuf |})
     (λ _ _, False).
Proof. intros Hbs Hn. unfold wp. by rewrite new_DataLoader_returns. Qed.

Lemma script_loaders_usable (full raw : list (image * Z)) :
  has_label even_labels full → has_label odd_labels full → has_label odd_labels raw →
  usable (big_train_loader full) ∧ usable (small_train_loader full) ∧
  usable (test_loader raw).
Proof.
  intros Hb Hs Ht. destruct (datasets_load full raw) as (L1 & L2 & L3).
  apply train_indices_nonempty in Hb.
  apply (select_per_label_nonempty 20) in Hs; [|lia].
  apply (select_per_label_nonempty 200) in Ht; [|lia].
  unfold usable. cbn [big_train_loader small_train_loader test_loader
                      dl_dataset batch_size].
  split; [|split]; (split; [lia|]); (split; [|done]); done.
Qed.


(** X15. The script as a whole (lines 29-76 and 229-268) runs to its last
    line exactly when the training collection holds at least one item with
    an even label and one with an odd label and the test collection holds
    at least one item with an odd label. Nothing else in the data can make
    it fail. *)
Theorem main_completes_iff (full raw : list (image * Z)) s :
  (∃ s', main full raw s = Done () s') ↔
  (has_label even_labels full ∧ has_label odd_labels full ∧ has_label odd_labels raw).
Proof.
  split.
  - intros [s' Hrun].
    assert (wp (main full raw) s
              (λ _ _, has_label even_labels full ∧ has_label odd_labels full ∧
                      has_label odd_labels raw) (λ _ _, True)) as H.
    { unfold main.
      eapply wp_seq; [apply new_DataLoader_accepts| |done].
      intros big s1 (-> & -> & Hb). specialize (Hb eq_refl).
      eapply wp_seq; [apply new_DataLoader_accepts| |done].
      intros small s1 (-> & -> & Hs). specialize (Hs eq_refl).
      eapply wp_seq; [apply new_DataLoader_accepts| |done].
      intros testl s1 (-> & -> & _).
      eapply wp_seq; [apply print_spec| |done].
      intros [] s1 _.
      eapply wp_seq; [apply run_experiment_spec| |done].
      intros [nta ntl] s2 (rs & _ & _ & _ & _ & _ & Hpos & _).
      destruct (Hpos ltac:(unfold num_runs; lia)) as [_ Ht].
      apply wp_pure. split; [by apply train_indices_nonempty|].
      split; [by apply (select_per_label_nonempty 20); [lia|]|].
      by apply (select_per_label_nonempty 200); [lia|]. }
    by apply (wp_done _ _ _ _ _ _ H Hrun).
  - intros (Hb & Hs & Ht).
    destruct (script_loaders_usable full raw Hb Hs Ht) as (Ub & Us & Ut).
    assert (wp (main full raw) s (λ _ _, True) (λ _ _, False)) as H.
    { unfold main.
      eapply wp_seq; [apply new_DataLoader_ok; [lia|apply Ub]| |done].
      intros big s1 (-> & ->).
      eapply wp_seq; [apply new_DataLoader_ok; [lia|apply Us]| |done].
      intros small s1 (-> & ->).
      eapply wp_seq; [apply new_DataLoader_ok; [lia|apply Ut]| |done].
      intros testl s1 (-> & ->).
      fold (big_train_loader full) (small_train_loader full) (test_loader raw).
      eapply wp_seq; [apply print_spec| |done].
      intros [] s1 _.
      eapply wp_seq;
        [apply wp_and; [apply run_experiment_returns; [by left|done..]
                       |apply run_experiment_spec]| |by intros ? ? [[] _]].
      intros [nta ntl] s2 (_ & rs_nt & Hlen1 & [= -> ->] & _ & _ & _ & _ & Hok1 & _).
      eapply wp_seq; [apply print_spec| |done].
      intros [] s3 _.
      eapply wp_seq;
        [apply wp_and; [apply run_experiment_returns; [by right|done..]
                       |apply run_experiment_spec]| |by intros ? ? [[] _]].
      intros [ta tl] s4 (_ & rs_tr & Hlen2 & [= -> ->] & _ & _ & _ & _ & Hok2 & _).
      fold (losses_of rs_nt) (losses_of rs_tr).
      assert (rs_nt ≠ []) as Hne1 by (intros ->; by unfold num_runs in Hlen1).
      assert (rs_tr ≠ []) as Hne2 by (intros ->; by unfold num_runs in Hlen2).
      pose proof (losses_of_rectangular _ _ _ _ Hne1 Hok1) as Hr1.
      pose proof (losses_of_rectangular _ _ _ _ Hne2 Hok2) as Hr2.
      unfold np_save1.
      eapply wp_seq; [apply emit_spec| |done]. intros [] s5 _.
      eapply wp_seq; [by apply np_save2_spec| |done]. intros [] s6 _.
      eapply wp_seq; [apply emit_spec| |done]. intros [] s7 _.
      eapply wp_seq; [by apply np_save2_spec| |done]. intros [] s8 _.
      eapply wp_seq; [by apply plot_results_spec| |done]. intros [] s9 _.
      eapply wp_seq; [by apply plot_results_spec| |done]. intros [] s10 _.
      eapply wp_mono; [apply print_spec| |done]. done. }
    unfold wp in H. destruct (main full raw s) as [[] s'|e s']; [eauto|done].
Qed.


(** ** The files the script writes *)

Lemma opened_paths_app T1 T2 : opened_paths (T1 ++ T2) = opened_paths T1 ++ opened_paths T2.
Proof. apply omap_app. Qed.

Lemma opened_paths_info hs msg : opened_paths (info_events hs msg) = [].
Proof. unfold info_events. induction hs; simpl; done. Qed.

Lemma opened_paths_training hs ty E ls accs :
  opened_paths (training_events hs ty E ls accs) = [].
Proof.
  unfold training_events, opened_paths.
  erewrite (omap_join_imap _ _ (λ _ _, [])); [apply join_imap_nil|].
  intros e z. unfold epoch_events. rewrite omap_app.
  fold (opened_paths (info_events hs (epoch_message ty e E z.1 z.2))).
  by rewrite opened_paths_info.
Qed.

Lemma opened_paths_branch hs mt run E pre fin :
  opened_paths (branch_events hs mt run E pre fin) = [].
Proof.
  unfold branch_events. repeat case_decide;
    rewrite ?opened_paths_app, ?opened_paths_info, ?opened_paths_training; done.
Qed.

Lemma opened_paths_run hs mt run n E pre fin accv :
  opened_paths (run_events hs mt run n E pre fin accv) = [log_file mt (run + 1)].
Proof.
  unfold run_events.
  rewrite !opened_paths_app, !opened_paths_info, opened_paths_branch. done.
Qed.

Lemma opened_paths_experiment hs0 mt n E rs :
  opened_paths (experiment_events hs0 mt n E rs) = log_files mt (length rs).
Proof.
  unfold experiment_events, opened_paths.
  erewrite (omap_join_imap _ _ (λ r _, [log_file mt (r + 1)])).
  - rewrite join_imap_singleton. unfold log_files.
    rewrite (imap_seq_0 rs (λ r, log_file mt (r + 1))), <- fmap_S_seq, <- list_fmap_compose.
    apply list_fmap_ext. intros i r _. simpl. f_equal. lia.
  - intros r x. apply opened_paths_run.
Qed.

Lemma opened_paths_main hs_nt hs_tr rs_nt rs_tr :
  opened_paths (main_events hs_nt hs_tr rs_nt rs_tr) =
  log_files "non_transfer" (length rs_nt) ++ log_files "transfer" (length rs_tr).
Proof.
  unfold main_events. rewrite !opened_paths_app, !opened_paths_experiment.
  change (opened_paths [Print _]) with (@nil string).
  change (opened_paths (final_events rs_nt rs_tr)) with (@nil string).
  rewrite !app_nil_l, app_nil_r. reflexivity.
Qed.

Lemma script_paths_NoDup :
  NoDup (performance_pngs "non_transfer" 10 ++ performance_pngs "transfer" 10 ++ final_paths) ∧
  NoDup (log_files "non_transfer" 10 ++ log_files "transfer" 10).
Proof. split; apply (bool_decide_unpack _); vm_compute; exact I. Qed.

Lemma NoDup_take {A} (l : list A) k : NoDup l → NoDup (take k l).
Proof. intros H. rewrite <- (take_drop k l) in H. by apply NoDup_app in H as [H _]. Qed.

(** X16. No output file is written twice in one execution of the script:
    the per-run images, the four arrays and the two summary images it
    saves have pairwise distinct paths, whether the execution completes or
    fails on the way; and in a complete execution the twenty runs open
    twenty distinct log files, ten per variant. *)
Theorem main_writes_each_file_once (full raw : list (image * Z)) s :
  NoDup (saved_paths (new_events s (final_state (main full raw s)))) ∧
  (∀ s', main full raw s = Done () s' →
     opened_paths (new_events s s') =
       log_files "non_transfer" 10 ++ log_files "transfer" 10 ∧
     NoDup (opened_paths (new_events s s'))).
Proof.
  pose proof (main_spec full raw s) as H. unfold wp in H.
  destruct script_paths_NoDup as [Hsaved Hlogs].
  unfold new_events. destruct (main full raw s) as [[] s1|e s1]; simpl.
  - destruct H as (rs_nt & rs_tr & Hl1 & Hl2 & _ & _ & _ & HT). split.
    + rewrite HT, drop_app_length, saved_paths_main, Hl1, Hl2. exact Hsaved.
    + intros s' [= <-].
      rewrite HT, drop_app_length, opened_paths_main, Hl1, Hl2. split; [reflexivity|exact Hlogs].
  - destruct H as (T & k & Hk & HT & Hs). split; [|done].
    rewrite HT, drop_app_length, Hs. apply NoDup_take.
    rewrite app_assoc in Hsaved. by apply NoDup_app in Hsaved as [Hsaved _].
Qed.


End MoreDriver.

(** ** The two loggers *)

Section Loggers.

Context {image : Type} `{TL : TensorLib image}.

Lemma log_file_variants_differ j k : log_file "non_transfer" j ≠ log_file "transfer" k.
Proof. unfold log_file. simpl. discriminate. Qed.

Lemma file_lines_experiment_other f mt n E rs :
  (∀ k, f ≠ log_file mt k) →
  file_lines f (experiment_events [] mt n E rs) = [].
Proof.
  intros Hf. unfold experiment_events, file_lines.
  erewrite (omap_join_imap _ _ (λ _ _, [])); [apply join_imap_nil|].
  intros r x. change (omap _ ?l) with (file_lines f l).
  rewrite app_nil_l, file_lines_run by apply NoDup_log_files.
  rewrite decide_False; [done|]. unfold log_files. rewrite list_elem_of_fmap.
  intros (k & Hk & _). by apply (Hf k).
Qed.

(** X18. The two experiment variants log through two loggers that do not
    meet. In a complete execution of the script from a process in which
    neither logger has a handler yet, the log file of run [j] of a variant
    holds the lines logged during the runs [j .. 10] of that variant, and
    nothing else: no line of the transfer experiment lands in a file of
    the non-transfer experiment, nor the other way round. *)
Theorem main_logs_are_separate (full raw : list (image * Z)) s :
  handlers s !! "non_transfer" = None → handlers s !! "transfer" = None →
  match main full raw s with
  | Done _ s' =>
      ∃ rs_nt rs_tr,
        length rs_nt = 10%nat ∧ length rs_tr = 10%nat ∧
        new_events s s' = main_events [] [] rs_nt rs_tr ∧
        ∀ j, (1 ≤ j ≤ 10)%nat →
          file_lines (log_file "non_transfer" j) (new_events s s') =
            mjoin (drop (j - 1) (experiment_lines "non_transfer" 10 10 rs_nt)) ∧
          file_lines (log_file "transfer" j) (new_events s s') =
            mjoin (drop (j - 1) (experiment_lines "transfer" 10 10 rs_tr))
  | Throw _ _ => True
  end.
Proof.
  intros Hnt Htr. pose proof (main_spec full raw s) as H. unfold wp in H.
  destruct (main full raw s) as [[] s'|e s']; [|done].
  destruct H as (rs_nt & rs_tr & Hl1 & Hl2 & _ & _ & _ & HT).
  rewrite Hnt, Htr in HT. simpl in HT.
  exists rs_nt, rs_tr. split; [done|]. split; [done|].
  assert (new_events s s' = main_events [] [] rs_nt rs_tr) as Hnew.
  { unfold new_events. by rewrite HT, drop_app_length. }
  split; [done|]. intros j Hj. rewrite Hnew. unfold main_events.
  rewrite !file_lines_app.
  change (file_lines _ [Print _]) with (@nil string).
  change (file_lines ?f (final_events rs_nt rs_tr)) with (@nil string).
  rewrite !app_nil_l, !app_nil_r. fold num_runs num_epochs. split.
  - rewrite file_lines_experiment by lia.
    rewrite (file_lines_experiment_other _ "transfer"), app_nil_r; [done|].
    intros k. apply log_file_variants_differ.
  - rewrite (file_lines_experiment_other _ "non_transfer"), app_nil_l.
    + apply file_lines_experiment. lia.
    + intros k Heq. symmetry in Heq. by apply log_file_variants_differ in Heq.
Qed.

End Loggers.

(** * The shapes of the forward pass (lines 79-93) *)

Lemma forward_shape_ok nc B C H W rows cols :
  forward_shape nc (Shape4 B C H W) = Ok (rows, cols) ↔
  C = 1%nat ∧ cols = nc ∧ (4 ≤ H)%nat ∧ (4 ≤ W)%nat ∧ (0 < B)%nat ∧
  (rows * 49 = B * (H / 2 / 2 * (W / 2 / 2)))%nat.
Proof.
  unfold forward_shape, conv2d_shape at 1. cbn [sh_n sh_c sh_h sh_w].
  destruct (Nat.eqb_spec C 1) as [->|HC]; cbn [andb rbind];
    [|split; [done|intros (? & _); done]].
  destruct (Nat.leb_spec 3 (H + 2 * 1)) as [H1|H1]; cbn [andb rbind];
    [|split; [done|intros (_ & _ & ? & _); lia]].
  destruct (Nat.leb_spec 3 (W + 2 * 1)) as [W1|W1]; cbn [andb rbind];
    [|split; [done|intros (_ & _ & _ & ? & _); lia]].
  replace (H + 2 * 1 - 3 + 1)%nat with H by lia.
  replace (W + 2 * 1 - 3 + 1)%nat with W by lia.
  unfold max_pool2d_shape at 1. cbn [sh_n sh_c sh_h sh_w].
  destruct (Nat.leb_spec 2 H) as [H2|H2]; cbn [andb rbind];
    [|split; [done|intros (_ & _ & ? & _); lia]].
  destruct (Nat.leb_spec 2 W) as [W2|W2]; cbn [andb rbind];
    [|split; [done|intros (_ & _ & _ & ? & _); lia]].
  unfold conv2d_shape at 1. cbn [sh_n sh_c sh_h sh_w Nat.eqb andb].
  destruct (Nat.leb_spec 3 (H / 2 + 2 * 1)) as [H3|H3]; cbn [andb rbind].
  2:{ split; [done|]. intros (_ & _ & ? & _).
      pose proof (Nat.div_le_lower_bound H 2 1). lia. }
  destruct (Nat.leb_spec 3 (W / 2 + 2 * 1)) as [W3|W3]; cbn [andb rbind].
  2:{ split; [done|]. intros (_ & _ & _ & ? & _).
      pose proof (Nat.div_le_lower_bound W 2 1). lia. }
  replace (H / 2 + 2 * 1 - 3 + 1)%nat with (H / 2)%nat by lia.
  replace (W / 2 + 2 * 1 - 3 + 1)%nat with (W / 2)%nat by lia.
  unfold max_pool2d_shape. cbn [sh_n sh_c sh_h sh_w].
  destruct (Nat.leb_spec 2 (H / 2)) as [H4|H4]; cbn [andb rbind].
  2:{ split; [done|]. intros (_ & _ & ? & _).
      pose proof (Nat.div_le_lower_bound H 2 2). lia. }
  destruct (Nat.leb_spec 2 (W / 2)) as [W4|W4]; cbn [andb rbind].
  2:{ split; [done|]. intros (_ & _ & _ & ? & _).
      pose proof (Nat.div_le_lower_bound W 2 2). lia. }
  assert (4 ≤ H)%nat as H5.
  { destruct (Nat.lt_ge_cases H 4) as [Hlt|]; [|done].
    pose proof (Nat.Div0.div_lt_upper_bound H 2 2). lia. }
  assert (4 ≤ W)%nat as W5.
  { destruct (Nat.lt_ge_cases W 4) as [Hlt|]; [|done].
    pose proof (Nat.Div0.div_lt_upper_bound W 2 2). lia. }
  unfold view_shape. cbn [sh_n sh_c sh_h sh_w].
  set (h := (H / 2 / 2)%nat). set (w := (W / 2 / 2)%nat).
  assert (1 ≤ h)%nat as Hh by (apply Nat.div_le_lower_bound; lia).
  assert (1 ≤ w)%nat as Hw by (apply Nat.div_le_lower_bound; lia).
  change (64 * 7 * 7)%nat with 3136%nat.
  destruct (Nat.eqb_spec (B * 64 * h * w) 0) as [Hz|Hz]; cbn [orb rbind].
  { split; [done|]. intros (_ & _ & _ & _ & HB & _). nia. }
  destruct (Nat.eqb_spec ((B * 64 * h * w) mod 3136) 0) as [Hm|Hm]; cbn [negb rbind].
  - unfold linear_shape. cbn [fst snd]. rewrite Nat.eqb_refl.
    apply Nat.Lcm0.mod_divide in Hm as [q Hq].
    rewrite Hq, Nat.div_mul by lia.
    split.
    + intros [= <- <-]. repeat (split; [done|]). split; [nia|]. nia.
    + intros (_ & -> & _ & _ & _ & Hr). f_equal. f_equal. nia.
  - split; [done|]. intros (_ & _ & _ & _ & _ & Hr). exfalso. apply Hm.
    apply Nat.Lcm0.mod_divide. exists rows. nia.
Qed.

(** X19. The constant [64 * 7 * 7] of [x.view(-1, 64 * 7 * 7)] and of
    [fc1] fits inputs of 28 by 28 pixels: on a non-empty batch of [B]
    one-channel images the forward pass returns [B] rows of [num_classes]
    scores exactly when the two poolings leave 49 positions, as they do
    for 28 by 28. For an input of another size it either raises or
    returns a number of rows that is not the batch size: whenever it
    returns, [49 * rows = B * (H/4 positions) * (W/4 positions)]. *)
Theorem forward_shape_fits_28x28 nc B C H W :
  (0 < B)%nat →
  forward_shape nc (Shape4 B 1 28 28) = Ok (B, nc) ∧
  (forward_shape nc (Shape4 B C H W) = Ok (B, nc) ↔
     C = 1%nat ∧ (H / 2 / 2 * (W / 2 / 2) = 49)%nat) ∧
  (∀ rows cols, forward_shape nc (Shape4 B C H W) = Ok (rows, cols) →
     C = 1%nat ∧ cols = nc ∧ (rows * 49 = B * (H / 2 / 2 * (W / 2 / 2)))%nat).
Proof.
  intros HB. split; [|split].
  - apply forward_shape_ok. change (28 / 2 / 2)%nat with 7%nat.
    repeat (split; [done || lia|]). lia.
  - rewrite forward_shape_ok. split.
    + intros (-> & _ & _ & _ & _ & Hr). split; [done|]. nia.
    + intros (-> & Hhw). split; [done|]. split; [done|].
      assert (1 ≤ H / 2 / 2)%nat as Hh by nia.
      assert (1 ≤ W / 2 / 2)%nat as Hw by nia.
      split.
      { destruct (Nat.lt_ge_cases H 4) as [Hlt|]; [|done].
        pose proof (Nat.Div0.div_lt_upper_bound H 2 2).
        pose proof (Nat.Div0.div_lt_upper_bound (H / 2) 2 1). lia. }
      split.
      { destruct (Nat.lt_ge_cases W 4) as [Hlt|]; [|done].
        pose proof (Nat.Div0.div_lt_upper_bound W 2 2).
        pose proof (Nat.Div0.div_lt_upper_bound (W / 2) 2 1). lia. }
      split; [done|]. rewrite Hhw. lia.
  - intros rows cols Hok. apply forward_shape_ok in Hok as (? & ? & _ & _ & _ & ?). done.
Qed.

(** X20. The two training sets share no example: a position selected for
    the abundant (pretraining) set carries an even label, a position
    selected for the scarce (fine-tuning) set an odd one. *)
Theorem training_sets_disjoint {image : Type} (full : list (image * Z)) p :
  (p ∈ train_indices full → p ∉ small_train_indices full) ∧
  (p ∈ small_train_indices full → p ∉ train_indices full).
Proof.
  assert (p ∈ train_indices full → p ∈ small_train_indices full → False) as H.
  { intros H1 H2. apply train_indices_labels in H1 as (l & Hl & He).
    apply select_per_label_labels in H2 as (l' & Hl' & Ho).
    assert (l' = l) as -> by congruence.
    unfold even_labels in He. unfold odd_labels in Ho.
    rewrite !elem_of_cons, elem_of_nil in He, Ho.
    destruct He as [->|[->|[->|[->|[->|[]]]]]];
      destruct Ho as [?|[?|[?|[?|[?|[]]]]]]; discriminate. }
  split; intros H1 H2; by apply H.
Qed.

(** * The further properties on concrete inputs *)


Lemma select_per_label_takes_what_exists_witness :
  NoDup odd_labels ∧
  NoDup (select_per_label 40 odd_labels toy_mnist []) ∧
  (length (select_per_label 40 odd_labels toy_mnist []) ≤ 40 * length odd_labels)%nat.
Proof.
  assert (NoDup odd_labels) as Hnd by (apply (bool_decide_unpack _); vm_compute; exact I).
  split; [exact Hnd|].
  pose proof (select_per_label_takes_what_exists 40 odd_labels toy_mnist Hnd) as H.
  cbv zeta in H. destruct H as (_ & H1 & _ & _ & _ & H2).
  split; [exact H1|exact H2].
Defined.



Lemma train_model_accuracies_are_percentages_witness :
  ∃ ls accs s',
    @train_model nat toy_lib toy_net toy_small_loader cross_entropy
      (Adam (parameters toy_net)) 2 "Non-Transfer" None toy_net_state = Done (ls, accs) s' ∧
    Forall (λ x, (0 <= x)%Q ∧ (x <= 100)%Q) accs.
Proof.
  destruct (@train_model nat toy_lib toy_net toy_small_loader cross_entropy
              (Adam (parameters toy_net)) 2 "Non-Transfer" None toy_net_state)
    as [[ls accs] s'|e s'] eqn:E.
  - exists ls, accs, s'. split; [reflexivity|].
    exact (proj2 (@train_model_accuracies_are_percentages nat toy_lib toy_net toy_small_loader
                    cross_entropy (Adam (parameters toy_net)) 2 "Non-Transfer" None
                    toy_net_state ls accs s' E)).
  - vm_compute in E. discriminate E.
Defined.

Lemma run_experiment_results_shape_witness :
  ∃ accs lss s',
    @run_experiment nat toy_lib 2 "non_transfer" toy_big_loader toy_small_loader
      toy_test_loader 1 toy_state = Done (accs, lss) s' ∧
    length accs = 2%nat ∧ Forall (λ row, length row = 1%nat) lss.
Proof.
  destruct (@run_experiment nat toy_lib 2 "non_transfer" toy_big_loader toy_small_loader
              toy_test_loader 1 toy_state) as [[accs lss] s'|e s'] eqn:E.
  - exists accs, lss, s'. split; [reflexivity|].
    destruct (@run_experiment_results_shape nat toy_lib 2 "non_transfer" toy_big_loader
                toy_small_loader toy_test_loader 1 toy_state accs lss s' E)
      as (H1 & _ & H2 & _).
    split; [exact H1|exact H2].
  - vm_compute in E. discriminate E.
Defined.



Lemma forward_shape_fits_28x28_witness :
  (0 < 128)%nat ∧
  forward_shape 5 (Shape4 128 1 28 28) = Ok (128%nat, 5%nat) ∧
  (forward_shape 5 (Shape4 128 1 32 32) = Ok (128%nat, 5%nat) ↔
     1%nat = 1%nat ∧ (32 / 2 / 2 * (32 / 2 / 2) = 49)%nat).
Proof.
  assert (0 < 128)%nat as HB by lia.
  split; [exact HB|].
  destruct (forward_shape_fits_28x28 5 128 1 32 32 HB) as (H1 & H2 & _).
  split; [exact H1|exact H2].
Defined.

Lemma main_logs_are_separate_witness :
  handlers toy_state !! "non_transfer" = None ∧ handlers toy_state !! "transfer" = None ∧
  ∀ s', @main nat toy_lib toy_mnist toy_mnist toy_state = Done () s' →
    ∃ rs_nt rs_tr,
      length rs_nt = 10%nat ∧ length rs_tr = 10%nat ∧
      @new_events nat toy_lib toy_state s' = @main_events nat toy_lib [] [] rs_nt rs_tr.
Proof.
  split; [reflexivity|]. split; [reflexivity|].
  intros s' E.
  pose proof (@main_logs_are_separate nat toy_lib toy_mnist toy_mnist toy_state eq_refl eq_refl)
    as H.
  rewrite E in H. destruct H as (rs_nt & rs_tr & H1 & H2 & H3 & _).
  exists rs_nt, rs_tr. split; [exact H1|]. split; [exact H2|exact H3].
Defined.
